(** * Ingestion pipeline of FYP-Data: a shallow embedding and its properties

    The development embeds the two ingestion scripts
    [database_insert/content_ingestion.py] and
    [database_insert/question_ingestion.py]: parsed YAML values, the
    dynamic operations the scripts apply to them, the canonical JSON
    serialisation and SHA-256 behind [hash_content], the [retry] decorator
    around [safe_upsert], the store the scripts write to, and the two
    [ingest] procedures. *)

From Stdlib Require Import ZArith String Ascii List Lia Bool Decimal DecimalString DecimalZ.
From stdpp Require Import gmap strings list fin_maps.

Local Open Scope string_scope.
Local Open Scope Z_scope.
Local Open Scope list_scope.

(* ===================================================================== *)
(** * Parsed YAML values *)
(* ===================================================================== *)

(** The data of the documented files, as [yaml.safe_load] returns it:
    Python [None], [bool], [int], [str], [list] and [dict].  A [dict] keeps
    its items in insertion order and has string keys.  A Rocq [string]
    stands for a sequence of code points below 256.

    This is the whole universe of the development: every statement below
    about "any data" or "any file" ranges over these values.  What else
    [yaml.safe_load] can return is outside it: floating-point scalars,
    timestamps ([date], [datetime]), binary scalars ([bytes]), sets, and
    mappings with a key that is not a string.  On such data the scripts
    behave differently from what is proved here: [json.dumps] raises
    [TypeError] on a timestamp, a set or a binary scalar, writes a float by
    its [repr], turns a key that is not a string into one (so that the keys
    [1] and ["1"] are serialised alike), and cannot order keys of mixed
    types or a NaN key. *)
Unset Elimination Schemes.
Inductive value : Type :=
| YNull
| YBool (b : bool)
| YInt (z : Z)
| YStr (s : string)
| YList (xs : list value)
| YDict (items : list (string * value)).
Set Elimination Schemes.

Definition is_dict (v : value) : bool :=
  match v with YDict _ => true | _ => false end.

(** [d.get(k)] on the items of a dict. *)
Fixpoint dict_get (k : string) (items : list (string * value)) : option value :=
  match items with
  | [] => None
  | (k', v) :: rest => if String.eqb k k' then Some v else dict_get k rest
  end.

(** Python truthiness, as tested by [if not question_type]. *)
Definition truthy (v : value) : bool :=
  match v with
  | YNull => false
  | YBool b => b
  | YInt z => negb (z =? 0)
  | YStr s => negb (String.eqb s "")
  | YList xs => match xs with [] => false | _ => true end
  | YDict items => match items with [] => false | _ => true end
  end.

(** [needle in haystack] on two [str]: the substring test. *)
Fixpoint is_substring (needle hay : string) : bool :=
  String.prefix needle hay ||
  match hay with
  | EmptyString => false
  | String _ hay' => is_substring needle hay'
  end.

Definition is_str (k : string) (v : value) : bool :=
  match v with YStr s => String.eqb k s | _ => false end.

(* ===================================================================== *)
(** * Canonical JSON: [json.dumps(data, sort_keys=True, separators=(",", ":"))] *)
(* ===================================================================== *)

Definition chars (s : string) : list ascii := list_ascii_of_string s.

Definition dquote : ascii := ascii_of_nat 34.
Definition backslash : ascii := ascii_of_nat 92.

Definition hex_digit (n : N) : ascii :=
  match n with
  | 0 => "0" | 1 => "1" | 2 => "2" | 3 => "3" | 4 => "4" | 5 => "5"
  | 6 => "6" | 7 => "7" | 8 => "8" | 9 => "9" | 10 => "a" | 11 => "b"
  | 12 => "c" | 13 => "d" | 14 => "e" | _ => "f"
  end%N%char.

(** One character of a JSON string under [ensure_ascii=True]: the quote
    and the backslash are escaped, the five short escapes are used, every
    other character outside [' '..'~'] becomes [\u00xx]. *)
Definition escape_char (c : ascii) : list ascii :=
  let n := N_of_ascii c in
  if (n =? 34)%N then [backslash; dquote]
  else if (n =? 92)%N then [backslash; backslash]
  else if (n =? 10)%N then chars "\n"
  else if (n =? 13)%N then chars "\r"
  else if (n =? 9)%N then chars "\t"
  else if (n =? 8)%N then chars "\b"
  else if (n =? 12)%N then chars "\f"
  else if ((n <? 32) || (126 <? n))%N
       then chars "\u00" ++ [hex_digit (n / 16); hex_digit (n mod 16)]
  else [c].

Fixpoint escape (s : string) : list ascii :=
  match s with
  | EmptyString => []
  | String c s' => escape_char c ++ escape s'
  end.

Definition json_string (s : string) : list ascii :=
  dquote :: escape s ++ [dquote].

Definition json_int (z : Z) : list ascii :=
  list_ascii_of_string (NilEmpty.string_of_int (Z.to_int z)).

(** [sorted(items)] on items with pairwise distinct keys: insertion by
    key, strings ordered by code point. *)
Fixpoint insert_item {B} (kv : string * B) (l : list (string * B)) : list (string * B) :=
  match l with
  | [] => [kv]
  | kv' :: l' =>
      if String.leb (fst kv) (fst kv') then kv :: l else kv' :: insert_item kv l'
  end.

Definition sort_items {B} (l : list (string * B)) : list (string * B) :=
  foldr insert_item [] l.

Fixpoint join (sep : list ascii) (parts : list (list ascii)) : list ascii :=
  match parts with
  | [] => []
  | [p] => p
  | p :: rest => p ++ sep ++ join sep rest
  end.

Definition json_member (kv : string * list ascii) : list ascii :=
  json_string (fst kv) ++ ":"%char :: snd kv.

Fixpoint encode (v : value) : list ascii :=
  match v with
  | YNull => chars "null"
  | YBool true => chars "true"
  | YBool false => chars "false"
  | YInt z => json_int z
  | YStr s => json_string s
  | YList xs => "["%char :: join [","%char] (map encode xs) ++ ["]"%char]
  | YDict items =>
      "{"%char ::
      join [","%char]
        (map json_member
           (sort_items (map (fun kv => (fst kv, encode (snd kv))) items)))
      ++ ["}"%char]
  end.

Definition json_dumps (v : value) : string := string_of_list_ascii (encode v).

(* ===================================================================== *)
(** * SHA-256: [hashlib.sha256(...).hexdigest()] *)
(* ===================================================================== *)

Module SHA256.

Definition wrap (x : Z) : Z := x mod 2 ^ 32.

Definition add (x y : Z) : Z := wrap (x + y).

Definition rotr (n x : Z) : Z :=
  Z.lor (Z.shiftr x n) (wrap (Z.shiftl x (32 - n))).

Definition Ch (x y z : Z) : Z :=
  Z.lxor (Z.land x y) (Z.land (Z.lxor x (2 ^ 32 - 1)) z).

Definition Maj (x y z : Z) : Z :=
  Z.lxor (Z.lxor (Z.land x y) (Z.land x z)) (Z.land y z).

Definition Sigma0 (x : Z) : Z := Z.lxor (Z.lxor (rotr 2 x) (rotr 13 x)) (rotr 22 x).
Definition Sigma1 (x : Z) : Z := Z.lxor (Z.lxor (rotr 6 x) (rotr 11 x)) (rotr 25 x).
Definition sigma0 (x : Z) : Z := Z.lxor (Z.lxor (rotr 7 x) (rotr 18 x)) (Z.shiftr x 3).
Definition sigma1 (x : Z) : Z := Z.lxor (Z.lxor (rotr 17 x) (rotr 19 x)) (Z.shiftr x 10).

Definition primes : list Z :=
  [2; 3; 5; 7; 11; 13; 17; 19; 23; 29; 31; 37; 41; 43; 47; 53;
   59; 61; 67; 71; 73; 79; 83; 89; 97; 101; 103; 107; 109; 113; 127; 131;
   137; 139; 149; 151; 157; 163; 167; 173; 179; 181; 191; 193; 197; 199; 211; 223;
   227; 229; 233; 239; 241; 251; 257; 263; 269; 271; 277; 281; 283; 293; 307; 311].

(** Integer cube root, one bit at a time from bit [bits - 1] down. *)
Fixpoint cbrt_bits (bits : nat) (n r : Z) : Z :=
  match bits with
  | O => r
  | S b =>
      let r' := r + 2 ^ Z.of_nat b in
      cbrt_bits b n (if r' * r' * r' <=? n then r' else r)
  end.

(** Round constants: the first 32 bits of the fractional parts of the cube
    roots of the first 64 primes. *)
Definition K : list Z :=
  Eval vm_compute in map (fun p => wrap (cbrt_bits 40 (p * 2 ^ 96) 0)) primes.

(** Initial hash value: the first 32 bits of the fractional parts of the
    square roots of the first 8 primes. *)
Definition H0 : list Z :=
  Eval vm_compute in map (fun p => wrap (Z.sqrt (p * 2 ^ 64))) (take 8 primes).

(** Padding: the bit 1, zeros up to 56 mod 64 bytes, the bit length on 8 bytes. *)
Definition be_bytes (n : nat) (x : Z) : list Z :=
  map (fun i => Z.land (Z.shiftr x (8 * Z.of_nat i)) 255) (rev (seq 0 n)).

Definition pad (msg : list Z) : list Z :=
  let len := Z.of_nat (length msg) in
  let zeros := Z.to_nat ((55 - len) mod 64) in
  msg ++ [128] ++ repeat 0 zeros ++ be_bytes 8 (8 * len).

Fixpoint words (fuel : nat) (bytes : list Z) : list Z :=
  match fuel, bytes with
  | S f, b0 :: b1 :: b2 :: b3 :: rest =>
      (b0 * 2 ^ 24 + b1 * 2 ^ 16 + b2 * 2 ^ 8 + b3) :: words f rest
  | _, _ => []
  end.

(** Message schedule: [w] holds the last 16 words, newest first. *)
Definition next_word (w : list Z) : Z :=
  add (add (sigma1 (nth 1 w 0)) (nth 6 w 0)) (add (sigma0 (nth 14 w 0)) (nth 15 w 0)).

Fixpoint schedule (n : nat) (w : list Z) : list Z :=
  match n with
  | O => []
  | S n' => let x := next_word w in x :: schedule n' (x :: take 15 w)
  end.

Definition round (st : list Z) (kw : Z * Z) : list Z :=
  match st with
  | [a; b; c; d; e; f; g; h] =>
      let t1 := add (add (add h (Sigma1 e)) (add (Ch e f g) (fst kw))) (snd kw) in
      let t2 := add (Sigma0 a) (Maj a b c) in
      [add t1 t2; a; b; c; add d t1; e; f; g]
  | _ => st
  end.

Definition compress (h : list Z) (block : list Z) : list Z :=
  let w := block ++ schedule 48 (rev block) in
  let st := fold_left round (combine K w) h in
  map (fun p => add (fst p) (snd p)) (combine h st).

Fixpoint blocks (fuel : nat) (ws : list Z) : list (list Z) :=
  match fuel, ws with
  | S f, _ :: _ => take 16 ws :: blocks f (drop 16 ws)
  | _, _ => []
  end.

Definition digest (msg : list Z) : list Z :=
  let ws := words (length msg + 72) (pad msg) in
  fold_left compress (blocks (length ws) ws) H0.

Definition hex_word (x : Z) : list ascii :=
  map (fun i => hex_digit (Z.to_N (Z.land (Z.shiftr x (4 * Z.of_nat i)) 15)))
      (rev (seq 0 8)).

Definition hexdigest (msg : list Z) : string :=
  string_of_list_ascii (concat (map hex_word (digest msg))).

End SHA256.

(** [normalized.encode("utf-8")]: the serialisation is pure ASCII, one byte
    per character. *)
Definition utf8 (s : string) : list Z :=
  map (fun c => Z.of_N (N_of_ascii c)) (list_ascii_of_string s).

(** [hash_content], the same in both scripts.  On the values of the model
    [json.dumps] always returns, so the function is total here; on data
    outside the model (see [value]) the call of [json.dumps] can raise
    [TypeError], which the scripts do not catch. *)
Definition hash_content (data : value) : string :=
  let normalized := json_dumps data in
  SHA256.hexdigest (utf8 normalized).


(* ===================================================================== *)
(** * Input files *)
(* ===================================================================== *)

(** A per-level file of a subtopic folder: it does not exist, or
    [yaml.safe_load] raises [yaml.YAMLError] on it, or it loads. *)
Inductive yaml_file : Type :=
| Absent
| Malformed
| Loaded (data : value).

(** [CONTENT_ROOT]: the sub-directories in enumeration order, each with
    its sub-directories and their two per-level files. *)
Record subtopic_folder : Type := {
  subtopic_folder_name : string;
  chunks_by_level : yaml_file;
  questions_by_level : yaml_file }.

Record topic_folder : Type := {
  topic_folder_name : string;
  subtopic_folders : list subtopic_folder }.

(* ===================================================================== *)
(** * Rows and the store *)
(* ===================================================================== *)

Record content_row : Type := {
  c_subtopic_id : nat;
  c_difficulty : string;
  c_title : value;
  c_summary : value;
  c_content_json : value;
  c_content_hash : string;
  c_is_published : bool }.

Record question_row : Type := {
  q_subtopic_id : nat;
  q_difficulty : string;
  q_question_type : value;
  q_content_json : value;
  q_question_hash : string;
  q_is_published : bool }.

(** Modelled from the spec: the relational store behind the supabase
    client, which is not part of the repository.  Each table is a finite map
    from its natural key to the row: [topics] by [topic_name], [subtopics] by
    [(topic_id, subtopic_name)], [content] by [(subtopic_id, difficulty)],
    [questions] by [question_hash].  Identifiers are handed out by the store
    from a counter. *)
Record store : Type := {
  topics : gmap string nat;
  subtopics : gmap (nat * string) nat;
  content : gmap (nat * string) content_row;
  questions : gmap string question_row;
  next_topic_id : nat;
  next_subtopic_id : nat }.

Definition empty_store : store :=
  {| topics := ∅; subtopics := ∅; content := ∅; questions := ∅;
     next_topic_id := 1; next_subtopic_id := 1 |}.

(** One [....execute()] call of the scripts. *)
Inductive request : Type :=
| UpsertTopic (topic_name : string)
| SelectTopic (topic_name : string)
| UpsertSubtopic (topic_id : nat) (subtopic_name : string)
| SelectSubtopic (topic_id : nat) (subtopic_name : string)
| UpsertContent (rows : list content_row)
| UpsertQuestions (rows : list question_row).

Definition content_key (r : content_row) : nat * string :=
  (c_subtopic_id r, c_difficulty r).

(** Modelled from the spec: an upsert replaces the row stored at the
    conflict key wholesale and inserts the row when the key is free, one row
    of the request after the other. *)
Definition upsert_rows {K R} `{Countable K} (key : R -> K) (rows : list R)
    (t : gmap K R) : gmap K R :=
  fold_left (fun t r => <[key r := r]> t) rows t.

Definition upsert_content (rows : list content_row)
    (t : gmap (nat * string) content_row) : gmap (nat * string) content_row :=
  upsert_rows content_key rows t.

Definition upsert_questions (rows : list question_row)
    (t : gmap string question_row) : gmap string question_row :=
  upsert_rows q_question_hash rows t.

Inductive exn : Type :=
| YAMLError
| TypeError
| AttributeError
| KeyError
| APIError.

Inductive result (A : Type) : Type :=
| Ok (a : A)
| Raise (e : exn).
Arguments Ok {A} a.
Arguments Raise {A} e.

(** Modelled from the spec: what the store does with a request it serves.
    An upsert of a topic or subtopic whose natural key exists leaves the row
    (and its identifier) alone, otherwise the row is created under the next
    identifier; an upsert of rows rewrites the table; [.single()] fails when
    no row matches. *)
Definition with_topic (name : string) (s : store) : store :=
  match topics s !! name with
  | Some _ => s
  | None =>
      {| topics := <[name := next_topic_id s]> (topics s);
         subtopics := subtopics s; content := content s;
         questions := questions s;
         next_topic_id := S (next_topic_id s);
         next_subtopic_id := next_subtopic_id s |}
  end.

Definition with_subtopic (tid : nat) (name : string) (s : store) : store :=
  match subtopics s !! (tid, name) with
  | Some _ => s
  | None =>
      {| topics := topics s;
         subtopics := <[(tid, name) := next_subtopic_id s]> (subtopics s);
         content := content s; questions := questions s;
         next_topic_id := next_topic_id s;
         next_subtopic_id := S (next_subtopic_id s) |}
  end.

Definition with_content (rows : list content_row) (s : store) : store :=
  {| topics := topics s; subtopics := subtopics s;
     content := upsert_content rows (content s);
     questions := questions s;
     next_topic_id := next_topic_id s;
     next_subtopic_id := next_subtopic_id s |}.

Definition with_questions (rows : list question_row) (s : store) : store :=
  {| topics := topics s; subtopics := subtopics s;
     content := content s;
     questions := upsert_questions rows (questions s);
     next_topic_id := next_topic_id s;
     next_subtopic_id := next_subtopic_id s |}.

Definition serve (r : request) (s : store) : result (option nat) * store :=
  match r with
  | UpsertTopic name => (Ok None, with_topic name s)
  | SelectTopic name =>
      match topics s !! name with
      | Some id => (Ok (Some id), s)
      | None => (Raise APIError, s)
      end
  | UpsertSubtopic tid name => (Ok None, with_subtopic tid name s)
  | SelectSubtopic tid name =>
      match subtopics s !! (tid, name) with
      | Some id => (Ok (Some id), s)
      | None => (Raise APIError, s)
      end
  | UpsertContent rows => (Ok None, with_content rows s)
  | UpsertQuestions rows => (Ok None, with_questions rows s)
  end.

(* ===================================================================== *)
(** * Effects: the store, the log, the clock and exceptions *)
(* ===================================================================== *)

Inductive level : Type := INFO | WARNING | ERROR.

Inductive message : Type :=
| UpsertFailed (table_name : string)
| TopicFailed (topic_name : string)
| SubtopicFailed (subtopic_name : string) (topic_id : nat)
| ProcessingTopic (topic_name : string) (topic_id : nat)
| ProcessingSubtopic (subtopic_name : string) (subtopic_id : nat)
| NoFile (subtopic_name : string)
| InvalidStructure (subtopic_name : string)
| FailedToParse (subtopic_name : string)
| SkippingQuestion (subtopic_name : string)
| InsertedFinalBatch (n : nat)
| Completed
| Retrying (delay : nat).

(** What a run leaves behind, in order: log records, [time.sleep] calls and
    the requests sent to the store.  A request is recorded with the store it
    met and whether the store served it. *)
Inductive event : Type :=
| Log (lvl : level) (msg : message)
| Sleep (seconds : nat)
| Exec (r : request) (before : store) (served : bool).

(** [faults] is the schedule of the store's failures: one entry per
    request to come, [true] when that request fails; past its end every
    request is served. *)
Record world : Type := {
  db : store;
  trace : list event;
  faults : list bool }.

Definition M (A : Type) : Type := world -> result A * world.

Definition ret {A} (a : A) : M A := fun w => (Ok a, w).

Definition raise {A} (e : exn) : M A := fun w => (Raise e, w).

Definition bind {A B} (m : M A) (k : A -> M B) : M B :=
  fun w =>
    match m w with
    | (Ok a, w') => k a w'
    | (Raise e, w') => (Raise e, w')
    end.

Notation "x <- m ;; k" := (bind m (fun x => k))
  (at level 100, m at next level, right associativity).
Notation "m ;;; k" := (bind m (fun _ => k))
  (at level 100, right associativity).

(** [try: m  except Exception as e: handler e]. *)
Definition try_except {A} (m : M A) (handler : exn -> M A) : M A :=
  fun w =>
    match m w with
    | (Ok a, w') => (Ok a, w')
    | (Raise e, w') => handler e w'
    end.

Definition lift {A} (r : result A) : M A := fun w => (r, w).

Definition emit (e : event) : M unit :=
  fun w => (Ok tt, {| db := db w; trace := trace w ++ [e]; faults := faults w |}).

Definition logging (lvl : level) (msg : message) : M unit := emit (Log lvl msg).

Definition sleep (seconds : nat) : M unit := emit (Sleep seconds).

Definition execute (r : request) : M (option nat) :=
  fun w =>
    match faults w with
    | true :: later =>
        (Raise APIError,
         {| db := db w; trace := trace w ++ [Exec r (db w) false]; faults := later |})
    | _ =>
        let '(res, db') := serve r (db w) in
        (res,
         {| db := db'; trace := trace w ++ [Exec r (db w) true];
            faults := tail (faults w) |})
    end.

(** [for x in xs: body x]. *)
Fixpoint for_each {A} (xs : list A) (body : A -> M unit) : M unit :=
  match xs with
  | [] => ret tt
  | x :: rest => body x ;;; for_each rest body
  end.

(** A [for] loop that updates a local variable. *)
Fixpoint for_fold {A S} (xs : list A) (acc : S) (body : S -> A -> M S) : M S :=
  match xs with
  | [] => ret acc
  | x :: rest => acc' <- body acc x ;; for_fold rest acc' body
  end.

(* ===================================================================== *)
(** * Dynamic operations on values *)
(* ===================================================================== *)

(** [k in v]: key membership on a dict, element membership on a list,
    substring on a str; the other values are not iterable. *)
Definition py_in (k : string) (v : value) : result bool :=
  match v with
  | YDict items => Ok (match dict_get k items with Some _ => true | None => false end)
  | YList xs => Ok (existsb (is_str k) xs)
  | YStr s => Ok (is_substring k s)
  | _ => Raise TypeError
  end.

(** [v[k]] with a string [k]. *)
Definition py_getitem (v : value) (k : string) : result value :=
  match v with
  | YDict items =>
      match dict_get k items with Some x => Ok x | None => Raise KeyError end
  | _ => Raise TypeError
  end.

(** [v.get(k, default)]: only a dict has the method. *)
Definition py_get (v : value) (k : string) (default : value) : result value :=
  match v with
  | YDict items =>
      Ok (match dict_get k items with Some x => x | None => default end)
  | _ => Raise AttributeError
  end.

(** The elements [for q in v] runs over: the items of a list, the keys of
    a dict, the characters of a str. *)
Definition py_iter (v : value) : result (list value) :=
  match v with
  | YList xs => Ok xs
  | YDict items => Ok (map (fun kv => YStr (fst kv)) items)
  | YStr s => Ok (map (fun c => YStr (String c EmptyString)) (list_ascii_of_string s))
  | _ => Raise TypeError
  end.

(* ===================================================================== *)
(** * The [retry] decorator *)
(* ===================================================================== *)

(** Modelled from the spec: [retry(tries, delay)] of the [retry] package,
    which is not part of the repository: a failed attempt is followed by a
    warning, a sleep of [delay] seconds and the next attempt, until [tries]
    attempts were made; the exception of the last one is re-raised. *)
Fixpoint retry {A} (tries delay : nat) (f : M A) : M (option A) :=
  match tries with
  | O => ret None
  | S tries' =>
      try_except (a <- f ;; ret (Some a))
        (fun e =>
           match tries' with
           | O => raise e
           | S _ =>
               logging WARNING (Retrying delay) ;;;
               sleep delay ;;;
               retry tries' delay f
           end)
  end.

(* ===================================================================== *)
(** * Topic and subtopic identities (the same text in both scripts) *)
(* ===================================================================== *)

Definition get_or_create_topic (topic_name : string) : M nat :=
  try_except
    (execute (UpsertTopic topic_name) ;;;
     resp <- execute (SelectTopic topic_name) ;;
     match resp with
     | Some topic_id => ret topic_id
     | None => raise KeyError
     end)
    (fun e => logging ERROR (TopicFailed topic_name) ;;; raise e).

Definition get_or_create_subtopic (topic_id : nat) (subtopic_name : string) : M nat :=
  try_except
    (execute (UpsertSubtopic topic_id subtopic_name) ;;;
     resp <- execute (SelectSubtopic topic_id subtopic_name) ;;
     match resp with
     | Some subtopic_id => ret subtopic_id
     | None => raise KeyError
     end)
    (fun e => logging ERROR (SubtopicFailed subtopic_name topic_id) ;;; raise e).

(* ===================================================================== *)
(** * content_ingestion.py *)
(* ===================================================================== *)

Module ContentIngestion.

Definition BATCH_SIZE : nat := 10.
Definition MAX_RETRIES : nat := 3.

Definition DIFFICULTY_MAP : list (string * string) :=
  [("beginner", "basic"); ("intermediate", "core"); ("advanced", "advanced")].

Definition safe_upsert (table_name : string) (rows : list content_row)
  : M (option (option nat)) :=
  retry MAX_RETRIES 2
    (try_except (execute (UpsertContent rows))
       (fun e => logging ERROR (UpsertFailed table_name) ;;; raise e)).

(** One turn of [for yaml_level, db_level in DIFFICULTY_MAP.items()]. *)
Definition ingest_level (subtopic_id : nat) (data : value)
    (batch_rows : list content_row) (entry : string * string)
  : M (list content_row) :=
  let '(yaml_level, db_level) := entry in
  present <- lift (py_in yaml_level data) ;;
  if negb present then ret batch_rows
  else
    level_block <- lift (py_getitem data yaml_level) ;;
    let content_hash := hash_content level_block in
    title <- lift (py_get level_block "title" YNull) ;;
    summary <- lift (py_get level_block "summary" YNull) ;;
    ret (batch_rows ++
         [{| c_subtopic_id := subtopic_id;
             c_difficulty := db_level;
             c_title := title;
             c_summary := summary;
             c_content_json := level_block;
             c_content_hash := content_hash;
             c_is_published := true |}]).

(** The body of the subtopic loop from [batch_rows = []] on. *)
Definition ingest_file (subtopic_id : nat) (subtopic_name : string)
    (yaml_file : yaml_file) : M unit :=
  let batch_rows := [] in
  match yaml_file with
  | Absent => logging WARNING (NoFile subtopic_name)
  | Malformed => raise YAMLError
  | Loaded data =>
      if negb (is_dict data) then logging ERROR (InvalidStructure subtopic_name)
      else
        batch_rows <- for_fold DIFFICULTY_MAP batch_rows (ingest_level subtopic_id data) ;;
        match batch_rows with
        | [] => ret tt
        | _ :: _ =>
            safe_upsert "content" batch_rows ;;;
            logging INFO (InsertedFinalBatch (length batch_rows))
        end
  end.

Definition ingest (CONTENT_ROOT : list topic_folder) : M unit :=
  for_each CONTENT_ROOT (fun topic_folder =>
    let topic_name := topic_folder_name topic_folder in
    topic_id <- get_or_create_topic topic_name ;;
    logging INFO (ProcessingTopic topic_name topic_id) ;;;
    for_each (subtopic_folders topic_folder) (fun subtopic_folder =>
      let subtopic_name := subtopic_folder_name subtopic_folder in
      subtopic_id <- get_or_create_subtopic topic_id subtopic_name ;;
      logging INFO (ProcessingSubtopic subtopic_name subtopic_id) ;;;
      ingest_file subtopic_id subtopic_name (chunks_by_level subtopic_folder))) ;;;
  logging INFO Completed.

End ContentIngestion.

(* ===================================================================== *)
(** * question_ingestion.py *)
(* ===================================================================== *)

Module QuestionIngestion.

Definition BATCH_SIZE : nat := 10.
Definition MAX_RETRIES : nat := 3.

Definition DIFFICULTY_MAP : list (string * string) :=
  [("beginner", "basic"); ("intermediate", "core"); ("advanced", "mastery")].

Definition safe_upsert (table_name : string) (rows : list question_row)
  : M (option (option nat)) :=
  retry MAX_RETRIES 2
    (try_except (execute (UpsertQuestions rows))
       (fun e => logging ERROR (UpsertFailed table_name) ;;; raise e)).

(** One turn of [for q in questions]. *)
Definition ingest_question (subtopic_id : nat) (subtopic_name db_level : string)
    (batch_rows : list question_row) (q : value) : M (list question_row) :=
  question_type <- lift (py_get q "type" YNull) ;;
  if negb (truthy question_type)
  then logging WARNING (SkippingQuestion subtopic_name) ;;; ret batch_rows
  else
    let content_hash := hash_content q in
    let batch_rows :=
      batch_rows ++
      [{| q_subtopic_id := subtopic_id;
          q_difficulty := db_level;
          q_question_type := question_type;
          q_content_json := q;
          q_question_hash := content_hash;
          q_is_published := true |}] in
    if (BATCH_SIZE <=? length batch_rows)%nat
    then safe_upsert "questions" batch_rows ;;; ret []
    else ret batch_rows.

(** One turn of [for yaml_level, db_level in DIFFICULTY_MAP.items()]. *)
Definition ingest_level (subtopic_id : nat) (subtopic_name : string)
    (levels : value) (batch_rows : list question_row) (entry : string * string)
  : M (list question_row) :=
  let '(yaml_level, db_level) := entry in
  present <- lift (py_in yaml_level levels) ;;
  if negb present then ret batch_rows
  else
    level_block <- lift (py_getitem levels yaml_level) ;;
    questions <- lift (py_get level_block "questions" (YList [])) ;;
    qs <- lift (py_iter questions) ;;
    for_fold qs batch_rows (ingest_question subtopic_id subtopic_name db_level).

(** The body of the subtopic loop from [yaml_file = ...] on. *)
Definition ingest_file (subtopic_id : nat) (subtopic_name : string)
    (yaml_file : yaml_file) : M unit :=
  match yaml_file with
  | Absent => logging WARNING (NoFile subtopic_name)
  | Malformed => logging ERROR (FailedToParse subtopic_name)
  | Loaded data =>
      if negb (is_dict data) || negb (match py_in "by_level" data with
                                      | Ok b => b
                                      | Raise _ => false
                                      end)
      then logging ERROR (InvalidStructure subtopic_name)
      else
        let batch_rows := [] in
        levels <- lift (py_getitem data "by_level") ;;
        batch_rows <- for_fold DIFFICULTY_MAP batch_rows
                        (ingest_level subtopic_id subtopic_name levels) ;;
        match batch_rows with
        | [] => ret tt
        | _ :: _ =>
            safe_upsert "questions" batch_rows ;;;
            logging INFO (InsertedFinalBatch (length batch_rows))
        end
  end.

Definition ingest (CONTENT_ROOT : list topic_folder) : M unit :=
  for_each CONTENT_ROOT (fun topic_folder =>
    let topic_name := topic_folder_name topic_folder in
    topic_id <- get_or_create_topic topic_name ;;
    logging INFO (ProcessingTopic topic_name topic_id) ;;;
    for_each (subtopic_folders topic_folder) (fun subtopic_folder =>
      let subtopic_name := subtopic_folder_name subtopic_folder in
      subtopic_id <- get_or_create_subtopic topic_id subtopic_name ;;
      logging INFO (ProcessingSubtopic subtopic_name subtopic_id) ;;;
      ingest_file subtopic_id subtopic_name (questions_by_level subtopic_folder))) ;;;
  logging INFO Completed.

End QuestionIngestion.

(* ===================================================================== *)
(** * Vocabulary of the statements *)
(* ===================================================================== *)

(** The events a computation adds to the trace of a world. *)
Definition new_events {A} (m : M A) (w : world) : list event :=
  drop (length (trace w)) (trace (m w).2).

Definition sent (e : event) : option request :=
  match e with Exec r _ _ => Some r | _ => None end.

(** The requests of a piece of trace, served or not. *)
Definition requests (evs : list event) : list request := omap sent evs.

Definition is_row_write (r : request) : bool :=
  match r with
  | UpsertContent _ | UpsertQuestions _ => true
  | _ => false
  end.

Definition written (e : event) : option request :=
  match e with
  | Exec r _ true => if is_row_write r then Some r else None
  | _ => None
  end.

(** The batches of rows a piece of trace got into the store. *)
Definition writes (evs : list event) : list request := omap written evs.

Definition content_rows_of (r : request) : list content_row :=
  match r with UpsertContent rows => rows | _ => [] end.

Definition question_rows_of (r : request) : list question_row :=
  match r with UpsertQuestions rows => rows | _ => [] end.

Definition replay_step (s : store) (e : event) : store :=
  match e with
  | Exec r _ true => (serve r s).2
  | _ => s
  end.

(** The store after the served requests of a piece of trace. *)
Definition replay (s : store) (evs : list event) : store :=
  fold_left replay_step evs s.

(** Every request of the trace met the store its predecessors left. *)
Fixpoint coherent (s : store) (evs : list event) : Prop :=
  match evs with
  | [] => True
  | e :: rest =>
      match e with Exec _ before _ => before = s | _ => True end
      /\ coherent (replay_step s e) rest
  end.

(** A served request that left the store as it found it. *)
Definition quiet (e : event) : Prop :=
  match e with
  | Exec r before true => (serve r before).2 = before
  | _ => True
  end.

Definition hierarchy_quiet (e : event) : Prop :=
  match e with
  | Exec r before true => if is_row_write r then True else (serve r before).2 = before
  | _ => True
  end.

(** [covers s s']: every topic and subtopic of [s] is in [s'], with the
    same identifier. *)
Definition covers (s s' : store) : Prop :=
  topics s ⊆ topics s' /\ subtopics s ⊆ subtopics s'.

Definition same_hierarchy (s s' : store) : Prop :=
  topics s = topics s' /\ subtopics s = subtopics s' /\
  next_topic_id s = next_topic_id s' /\ next_subtopic_id s = next_subtopic_id s'.

(** The four tables of two stores hold the same rows. *)
Definition same_rows (s s' : store) : Prop :=
  topics s = topics s' /\ subtopics s = subtopics s' /\
  content s = content s' /\ questions s = questions s'.

(** [l] cut into pieces of [n] elements, the last one possibly shorter. *)
Fixpoint chunks_fuel {A} (fuel n : nat) (l : list A) : list (list A) :=
  match fuel, l with
  | S f, _ :: _ => take n l :: chunks_fuel f n (drop n l)
  | _, _ => []
  end.

Definition chunks {A} (n : nat) (l : list A) : list (list A) :=
  chunks_fuel (length l) n l.

(** Two script invocations one after the other: the second starts whatever
    the first returned or raised. *)
Definition then_run {A B} (first : M A) (second : M B) : M B :=
  fun w => second (first w).2.

(** [emits E Q m]: whatever the world, [m] adds only events satisfying [E]
    to the trace, and a value it returns satisfies [Q]. *)
Definition emits {A} (E : event -> Prop) (Q : A -> Prop) (m : M A) : Prop :=
  forall w,
    (exists new, trace (m w).2 = trace w ++ new /\ Forall E new) /\
    (forall a, (m w).1 = Ok a -> Q a).

(** The world with one more warning in its log. *)
Definition warn (msg : message) (w : world) : world :=
  {| db := db w; trace := trace w ++ [Log WARNING msg]; faults := faults w |}.

(** What an upsert attempt that the store fails leaves in the trace, and
    what [retry] adds before the next attempt. *)
Definition failed_attempt (r : request) (table_name : string) (s : store)
  : list event :=
  [Exec r s false; Log ERROR (UpsertFailed table_name)].

Definition pause : list event := [Log WARNING (Retrying 2); Sleep 2].

(** The traversal both [ingest] procedures perform, over the per-level
    file [select] picks and the treatment [ingest_file] gives it: the body
    of the subtopic loop, the body of the topic loop, the whole. *)
Definition subtopic_step (select : subtopic_folder -> yaml_file)
    (ingest_file : nat -> string -> yaml_file -> M unit)
    (topic_id : nat) (subtopic_folder : subtopic_folder) : M unit :=
  subtopic_id <- get_or_create_subtopic topic_id
                   (subtopic_folder_name subtopic_folder) ;;
  logging INFO (ProcessingSubtopic (subtopic_folder_name subtopic_folder)
                  subtopic_id) ;;;
  ingest_file subtopic_id (subtopic_folder_name subtopic_folder)
    (select subtopic_folder).

Definition topic_step (select : subtopic_folder -> yaml_file)
    (ingest_file : nat -> string -> yaml_file -> M unit)
    (topic_folder : topic_folder) : M unit :=
  topic_id <- get_or_create_topic (topic_folder_name topic_folder) ;;
  logging INFO (ProcessingTopic (topic_folder_name topic_folder) topic_id) ;;;
  for_each (subtopic_folders topic_folder)
    (subtopic_step select ingest_file topic_id).

Definition traverse (select : subtopic_folder -> yaml_file)
    (ingest_file : nat -> string -> yaml_file -> M unit)
    (CONTENT_ROOT : list topic_folder) : M unit :=
  for_each CONTENT_ROOT (topic_step select ingest_file) ;;;
  logging INFO Completed.

(** A request carries published rows only. *)
Definition published (e : event) : Prop :=
  match e with
  | Exec (UpsertContent rows) _ _ => Forall (fun r => c_is_published r = true) rows
  | Exec (UpsertQuestions rows) _ _ => Forall (fun r => q_is_published r = true) rows
  | _ => True
  end.

(** A small corpus: one topic, two subtopics, each with one beginner
    block and one beginner question. *)
Definition SubB : subtopic_folder :=
  {| subtopic_folder_name := "SubB";
     chunks_by_level :=
       Loaded (YDict [("beginner", YDict [("title", YStr "T1")])]);
     questions_by_level :=
       Loaded (YDict [("by_level",
         YDict [("beginner",
           YDict [("questions",
             YList [YDict [("type", YStr "mcq"); ("q", YStr "Q1")]])])])]) |}.

Definition SubC : subtopic_folder :=
  {| subtopic_folder_name := "SubC";
     chunks_by_level :=
       Loaded (YDict [("beginner", YDict [("title", YStr "T2")])]);
     questions_by_level :=
       Loaded (YDict [("by_level",
         YDict [("beginner",
           YDict [("questions",
             YList [YDict [("type", YStr "mcq"); ("q", YStr "Q2")]])])])]) |}.

Definition two_subtopics : list topic_folder :=
  [{| topic_folder_name := "TopicA"; subtopic_folders := [SubB; SubC] |}].

(** A fresh world whose store fails the requests [failing] marks. *)
Definition fresh (failing : list bool) : world :=
  {| db := empty_store; trace := []; faults := failing |}.

(** A corpus whose first subtopic holds files that do not parse. *)
Definition SubBad : subtopic_folder :=
  {| subtopic_folder_name := "SubBad";
     chunks_by_level := Malformed;
     questions_by_level := Malformed |}.

Definition unparseable_first : list topic_folder :=
  [{| topic_folder_name := "TopicA"; subtopic_folders := [SubBad; SubC] |}].

(** The world with one more error in its log. *)
Definition report (msg : message) (w : world) : world :=
  {| db := db w; trace := trace w ++ [Log ERROR msg]; faults := faults w |}.

(** What structural validation rejects: the loaded data is not a mapping,
    or (questions) has no [by_level] key. *)
Definition not_a_mapping (data : value) : Prop := is_dict data = false.

Definition lacks_by_level (data : value) : Prop :=
  exists items, data = YDict items /\ dict_get "by_level" items = None.

(** The content row [ingest] builds from a block found under a level. *)
Definition content_row_of (subtopic_id : nat) (db_level : string)
    (block : list (string * value)) : content_row :=
  {| c_subtopic_id := subtopic_id;
     c_difficulty := db_level;
     c_title := default YNull (dict_get "title" block);
     c_summary := default YNull (dict_get "summary" block);
     c_content_json := YDict block;
     c_content_hash := hash_content (YDict block);
     c_is_published := true |}.

(** The question row [ingest] builds from an item. *)
Definition question_row_of (subtopic_id : nat) (db_level : string)
    (fields : list (string * value)) : question_row :=
  {| q_subtopic_id := subtopic_id;
     q_difficulty := db_level;
     q_question_type := default YNull (dict_get "type" fields);
     q_content_json := YDict fields;
     q_question_hash := hash_content (YDict fields);
     q_is_published := true |}.

(** The row of an item that is a mapping with a type, if it is one. *)
Definition item_row (subtopic_id : nat) (db_level : string) (q : value)
  : option question_row :=
  match q with
  | YDict fields =>
      if truthy (default YNull (dict_get "type" fields))
      then Some (question_row_of subtopic_id db_level fields)
      else None
  | _ => None
  end.

(** The question items a file lists under a level. *)
Definition level_items (levels : list (string * value)) (yaml_level : string)
  : list value :=
  match dict_get yaml_level levels with
  | Some (YDict block) =>
      match dict_get "questions" block with
      | Some (YList qs) => qs
      | _ => []
      end
  | _ => []
  end.

(** The rows of a chunks file and of a questions file, in the order the
    flows build them. *)
Definition content_rows (subtopic_id : nat) (items : list (string * value))
  : list content_row :=
  omap (fun entry : string * string =>
          match dict_get entry.1 items with
          | Some (YDict block) => Some (content_row_of subtopic_id entry.2 block)
          | _ => None
          end) ContentIngestion.DIFFICULTY_MAP.

Definition question_rows (subtopic_id : nat) (levels : list (string * value))
  : list question_row :=
  concat (map (fun entry : string * string =>
                 omap (item_row subtopic_id entry.2) (level_items levels entry.1))
            QuestionIngestion.DIFFICULTY_MAP).

(** The documented shapes: each level a chunks file holds is a mapping;
    each level a questions file holds is a mapping whose [questions], if
    any, is a list of mappings. *)
Definition content_level_shaped (items : list (string * value))
    (entry : string * string) : bool :=
  match dict_get entry.1 items with
  | None | Some (YDict _) => true
  | _ => false
  end.

Definition content_shaped (items : list (string * value)) : bool :=
  forallb (content_level_shaped items) ContentIngestion.DIFFICULTY_MAP.

Definition question_level_shaped (levels : list (string * value))
    (entry : string * string) : bool :=
  match dict_get entry.1 levels with
  | None => true
  | Some (YDict block) =>
      match dict_get "questions" block with
      | None => true
      | Some (YList qs) => forallb is_dict qs
      | _ => false
      end
  | _ => false
  end.

Definition question_shaped (levels : list (string * value)) : bool :=
  forallb (question_level_shaped levels) QuestionIngestion.DIFFICULTY_MAP.

(** [packs n all flushed buffer]: the rows [all] built so far are the full
    batches [flushed], each of [n] rows, followed by the rows still in the
    buffer, fewer than [n]. *)
Definition packs {A} (n : nat) (all : list A) (flushed : list (list A))
    (buffer : list A) : Prop :=
  concat flushed ++ buffer = all /\
  Forall (fun c => length c = n) flushed /\
  (length buffer < n)%nat.

(** A questions file with eleven typed items under one level. *)
Definition eleven_questions : list (string * value) :=
  [("by_level",
    YDict [("beginner",
      YDict [("questions",
        YList (map (fun n => YDict [("type", YStr "mcq"); ("n", YInt n)])
                 [1; 2; 3; 4; 5; 6; 7; 8; 9; 10; 11]))])])].

(** [calm m]: started in a world whose store serves every request, [m]
    ends in such a world, the requests in its trace met the store their
    predecessors left, and the store it leaves is the store after them. *)
Definition calm {A} (m : M A) : Prop :=
  forall w, faults w = [] ->
    faults (m w).2 = [] /\
    exists new,
      trace (m w).2 = trace w ++ new /\
      coherent (db w) new /\
      db (m w).2 = replay (db w) new.

(** [rerunnable m]: run again on a store that holds every topic and
    subtopic a first run left, [m] returns or raises the same, creates no
    topic and no subtopic, and sends the same batches of rows. *)
Definition rerunnable {A} (m : M A) : Prop :=
  forall w1 w2, faults w1 = [] -> faults w2 = [] ->
    covers (db (m w1).2) (db w2) ->
    (m w2).1 = (m w1).1 /\
    same_hierarchy (db (m w2).2) (db w2) /\
    exists new1 new2,
      trace (m w1).2 = trace w1 ++ new1 /\
      trace (m w2).2 = trace w2 ++ new2 /\
      writes new2 = writes new1 /\
      Forall hierarchy_quiet new2.

Definition good {A} (m : M A) : Prop := calm m /\ rerunnable m.

(** The rows of the batches a piece of trace got into the store. *)
Definition content_written (evs : list event) : list content_row :=
  concat (map content_rows_of (writes evs)).

Definition questions_written (evs : list event) : list question_row :=
  concat (map question_rows_of (writes evs)).

(** The last row of [rows] stored under the conflict key [k]. *)
Fixpoint last_row {K R} `{EqDecision K} (key : R -> K) (k : K) (rows : list R)
  : option R :=
  match rows with
  | [] => None
  | r :: rest =>
      match last_row key k rest with
      | Some r' => Some r'
      | None => if decide (key r = k) then Some r else None
      end
  end.

(** [idempotent_at m w]: run from [w] and then again from where the first
    run ended, [m] returns or raises the same, leaves the four tables as the
    first run left them, and sends the same batches of rows; and when no two
    rows the first run wrote share a conflict key, every request of the
    second run leaves the store as it finds it. *)
Definition idempotent_at {A} (m : M A) (w : world) : Prop :=
  let first := m w in
  let second := m first.2 in
  second.1 = first.1 /\
  same_rows (db second.2) (db first.2) /\
  writes (new_events m first.2) = writes (new_events m w) /\
  (NoDup (map content_key (content_written (new_events m w))) ->
   NoDup (map q_question_hash (questions_written (new_events m w))) ->
   Forall quiet (new_events m first.2)).

(** A corpus in which two subtopics hold the same question item. *)
Definition SubD : subtopic_folder :=
  {| subtopic_folder_name := "SubD";
     chunks_by_level := Absent;
     questions_by_level := questions_by_level SubB |}.

Definition shared_question : list topic_folder :=
  [{| topic_folder_name := "TopicA"; subtopic_folders := [SubB; SubD] |}].

(** A request the store served, or an event that is no request. *)
Definition attended (e : event) : Prop :=
  match e with Exec _ _ served => served = true | _ => True end.

(** [tracked m]: whatever the world, the requests [m] adds to the trace met
    the store their predecessors left and the store [m] leaves is the store
    after the served ones; and when the store fails nothing, every request
    of [m] is served. *)
Definition tracked {A} (m : M A) : Prop :=
  forall w,
    exists new,
      trace (m w).2 = trace w ++ new /\
      coherent (db w) new /\
      db (m w).2 = replay (db w) new /\
      (faults w = [] -> faults (m w).2 = [] /\ Forall attended new).

(** An event that is no upsert into the [questions] table, respectively
    into the [content] table. *)
Definition spares_questions (e : event) : Prop :=
  match e with Exec (UpsertQuestions _) _ _ => False | _ => True end.

Definition spares_content (e : event) : Prop :=
  match e with Exec (UpsertContent _) _ _ => False | _ => True end.

(** Every mapping in [v], at any depth, has pairwise distinct keys, as
    every Python dict has. *)
Fixpoint distinct_keys (v : value) : bool :=
  match v with
  | YList xs => forallb distinct_keys xs
  | YDict items =>
      bool_decide (NoDup (map fst items))
      && forallb (fun kv => distinct_keys kv.2) items
  | _ => true
  end.

(** [reordered x y]: [y] is [x] with the items of its mappings, at any
    depth, listed in another order. *)
Unset Elimination Schemes.
Inductive reordered : value -> value -> Prop :=
| reordered_null : reordered YNull YNull
| reordered_bool b : reordered (YBool b) (YBool b)
| reordered_int z : reordered (YInt z) (YInt z)
| reordered_str s : reordered (YStr s) (YStr s)
| reordered_list xs ys :
    Forall2 reordered xs ys -> reordered (YList xs) (YList ys)
| reordered_dict items shuffled items' :
    Forall2 (fun kv kv' => kv.1 = kv'.1 /\ reordered kv.2 kv'.2) items shuffled ->
    Permutation shuffled items' ->
    reordered (YDict items) (YDict items').
Set Elimination Schemes.

(** The store holds a topic, respectively a subtopic, with this
    identifier. *)
Definition topic_stored (s : store) (tid : nat) : Prop :=
  exists name, topics s !! name = Some tid.

Definition subtopic_stored (s : store) (sid : nat) : Prop :=
  exists key, subtopics s !! key = Some sid.

(** [referential s]: every subtopic of [s] belongs to a topic of [s], and
    every content row and every question row to a subtopic of [s]. *)
Definition referential (s : store) : Prop :=
  (forall key sid, subtopics s !! key = Some sid -> topic_stored s key.1) /\
  (forall key r, content s !! key = Some r -> subtopic_stored s (c_subtopic_id r)) /\
  (forall h r, questions s !! h = Some r -> subtopic_stored s (q_subtopic_id r)).

(** [registered root s]: every topic folder of [root] has its row in [s],
    and every subtopic folder its row under the identifier of its topic. *)
Definition registered (root : list topic_folder) (s : store) : Prop :=
  forall t, t ∈ root ->
    exists tid,
      topics s !! topic_folder_name t = Some tid /\
      forall sub, sub ∈ subtopic_folders t ->
        is_Some (subtopics s !! (tid, subtopic_folder_name sub)).

(** A batch of rows of the subtopic [sid], or an event that is no
    request. *)
Definition rows_of_subtopic (sid : nat) (e : event) : Prop :=
  match e with
  | Exec (UpsertContent rows) _ _ => Forall (fun r => c_subtopic_id r = sid) rows
  | Exec (UpsertQuestions rows) _ _ => Forall (fun r => q_subtopic_id r = sid) rows
  | Exec _ _ _ => False
  | _ => True
  end.

(** [hoare P m Q R]: started on a store satisfying [P], whatever the log
    and the failures to come, [m] leaves a store satisfying [Q a] when it
    returns [a] and [R] when it raises. *)
Definition hoare {A} (P : store -> Prop) (m : M A) (Q : A -> store -> Prop)
    (R : store -> Prop) : Prop :=
  forall w, P (db w) ->
    match (m w).1 with
    | Ok a => Q a (db (m w).2)
    | Raise _ => R (db (m w).2)
    end.

(** A corpus with a subtopic without files and one whose files hold no
    mapping. *)
Definition SubEmpty : subtopic_folder :=
  {| subtopic_folder_name := "SubEmpty";
     chunks_by_level := Absent;
     questions_by_level := Absent |}.

Definition SubList : subtopic_folder :=
  {| subtopic_folder_name := "SubList";
     chunks_by_level := Loaded (YList []);
     questions_by_level := Loaded (YList []) |}.

Definition odd_files : list topic_folder :=
  [{| topic_folder_name := "TopicA"; subtopic_folders := [SubEmpty; SubB] |};
   {| topic_folder_name := "TopicB"; subtopic_folders := [SubList] |}].

(** A batch of rows of a size the scripts allow: at least one row, and at
    most the three levels of a chunks file, respectively [BATCH_SIZE]
    questions. *)
Definition batch_sized (e : event) : Prop :=
  match e with
  | Exec (UpsertContent rows) _ _ => (1 <= length rows <= 3)%nat
  | Exec (UpsertQuestions rows) _ _ =>
      (1 <= length rows <= QuestionIngestion.BATCH_SIZE)%nat
  | _ => True
  end.

(** Any event but the record of completion. *)
Definition unfinished (e : event) : Prop := e <> Log INFO Completed.

(** A decimal digit, and a character of the printable ASCII range
    [' '..'~']. *)
Definition is_digit (c : ascii) : bool :=
  ((48 <=? N_of_ascii c) && (N_of_ascii c <=? 57))%N.

Definition printable (c : ascii) : bool :=
  ((32 <=? N_of_ascii c) && (N_of_ascii c <=? 126))%N.




(** The serialisation of one item of a mapping. *)
Definition member (kv : string * value) : list ascii :=
  json_member (kv.1, encode kv.2).


(** The hierarchy a traversal of [root] registers, folder after folder in
    the order of the enumeration: each topic folder, then its subtopic
    folders under the identifier the topic has in the store. *)
Definition register_subtopics (tid : nat) (subs : list subtopic_folder)
    (s : store) : store :=
  fold_left (fun s sub => with_subtopic tid (subtopic_folder_name sub) s) subs s.

Definition register_topic (s : store) (t : topic_folder) : store :=
  let s' := with_topic (topic_folder_name t) s in
  match topics s' !! topic_folder_name t with
  | Some tid => register_subtopics tid (subtopic_folders t) s'
  | None => s'
  end.

Definition register (root : list topic_folder) (s : store) : store :=
  fold_left register_topic root s.

(** A content row, respectively a question row, as the scripts build it
    from its payload: the digest is that of the payload, the title and the
    summary are those the payload gives, and the type is the one the payload
    gives and is not empty. *)
Definition content_row_sound (r : content_row) : Prop :=
  c_content_hash r = hash_content (c_content_json r) /\
  py_get (c_content_json r) "title" YNull = Ok (c_title r) /\
  py_get (c_content_json r) "summary" YNull = Ok (c_summary r).

Definition question_row_sound (r : question_row) : Prop :=
  q_question_hash r = hash_content (q_content_json r) /\
  py_get (q_content_json r) "type" YNull = Ok (q_question_type r) /\
  truthy (q_question_type r) = true.

Definition rows_sound (e : event) : Prop :=
  match e with
  | Exec (UpsertContent rows) _ _ => Forall content_row_sound rows
  | Exec (UpsertQuestions rows) _ _ => Forall question_row_sound rows
  | _ => True
  end.

(** A batch of content rows with pairwise distinct conflict keys. *)
Definition keys_distinct (e : event) : Prop :=
  match e with
  | Exec (UpsertContent rows) _ _ => NoDup (map content_key rows)
  | _ => True
  end.

(** A topic folder, by its name and its subtopic folders. *)
Definition folder (name : string) (subs : list subtopic_folder) : topic_folder :=
  {| topic_folder_name := name; subtopic_folders := subs |}.

(** The world a returned run leaves, less the record of completion: the
    world in which the run would have gone on, had the corpus held more. *)
Definition reopened (w : world) : world :=
  {| db := db w; trace := removelast (trace w); faults := faults w |}.

(** The two requests that resolve a subtopic, both served, and the
    identifier the lookup returns: the one the subtopic had, or the store's
    next. *)
Definition resolved (tid : nat) (name : string) (s : store) : list event :=
  [Exec (UpsertSubtopic tid name) s true;
   Exec (SelectSubtopic tid name) (with_subtopic tid name s) true].

Definition resolved_id (tid : nat) (name : string) (s : store) : nat :=
  default (next_subtopic_id s) (subtopics s !! (tid, name)).


(** The warnings about skipped questions in a piece of trace, by
    subtopic. *)
Definition skipped (evs : list event) : list string :=
  omap (fun e => match e with
                 | Log WARNING (SkippingQuestion name) => Some name
                 | _ => None
                 end) evs.

(** An item whose [type] is missing or empty, and the items of that kind a
    questions file lists under the three levels. *)
Definition untyped (q : value) : bool :=
  match q with
  | YDict fields => negb (truthy (default YNull (dict_get "type" fields)))
  | _ => false
  end.

Definition untyped_items (levels : list (string * value)) : list value :=
  concat (map (fun entry : string * string =>
                 List.filter untyped (level_items levels entry.1))
            QuestionIngestion.DIFFICULTY_MAP).

(** The rows of a chunks file and of a questions file when the source
    levels are stored under the difficulties [table] gives them, level after
    level in the order of [table]. *)
Definition content_rows_as (table : list (string * string)) (subtopic_id : nat)
    (items : list (string * value)) : list content_row :=
  omap (fun entry : string * string =>
          match dict_get entry.1 items with
          | Some (YDict block) => Some (content_row_of subtopic_id entry.2 block)
          | _ => None
          end) table.

Definition question_rows_as (table : list (string * string)) (subtopic_id : nat)
    (levels : list (string * value)) : list question_row :=
  concat (map (fun entry : string * string =>
                 omap (item_row subtopic_id entry.2) (level_items levels entry.1))
            table).

(** A subtopic whose two files hold the three levels, and a subtopic whose
    questions file lists an item without type and an item with an empty
    type between typed ones. *)
Definition SubAll : subtopic_folder :=
  {| subtopic_folder_name := "SubAll";
     chunks_by_level :=
       Loaded (YDict [("beginner", YDict [("title", YStr "B")]);
                      ("intermediate", YDict [("title", YStr "I")]);
                      ("advanced", YDict [("title", YStr "A")])]);
     questions_by_level :=
       Loaded (YDict [("by_level",
         YDict [("beginner",
                 YDict [("questions",
                   YList [YDict [("type", YStr "mcq"); ("q", YStr "QB")]])]);
                ("intermediate",
                 YDict [("questions",
                   YList [YDict [("type", YStr "mcq"); ("q", YStr "QI")]])]);
                ("advanced",
                 YDict [("questions",
                   YList [YDict [("type", YStr "mcq"); ("q", YStr "QA")]])])])]) |}.

Definition SubMixed : subtopic_folder :=
  {| subtopic_folder_name := "SubMixed";
     chunks_by_level := Absent;
     questions_by_level :=
       Loaded (YDict [("by_level",
         YDict [("beginner",
                 YDict [("questions",
                   YList [YDict [("type", YStr "mcq"); ("q", YStr "Q1")];
                          YDict [("q", YStr "Q2")];
                          YDict [("type", YStr ""); ("q", YStr "Q3")];
                          YDict [("type", YStr "open"); ("q", YStr "Q4")]])])])]) |}.



(* ===================================================================== *)
(** * The monad: equations and the [emits] logic *)
(* ===================================================================== *)

Lemma bind_ok {A B} (m : M A) (k : A -> M B) w a w' :
  m w = (Ok a, w') -> bind m k w = k a w'.
Proof. unfold bind. intros ->. reflexivity. Qed.

Lemma bind_raise {A B} (m : M A) (k : A -> M B) w e w' :
  m w = (Raise e, w') -> bind m k w = (Raise e, w').
Proof. unfold bind. intros ->. reflexivity. Qed.

Lemma bind_lift_ok {A B} (a : A) (k : A -> M B) w :
  bind (lift (Ok a)) k w = k a w.
Proof. reflexivity. Qed.

Lemma bind_lift_raise {A B} e (k : A -> M B) w :
  bind (lift (Raise e)) k w = (Raise e, w).
Proof. reflexivity. Qed.

Lemma bind_congr_l {A B} (m m' : M A) (k : A -> M B) w :
  m w = m' w -> bind m k w = bind m' k w.
Proof. unfold bind. intros ->. reflexivity. Qed.

Lemma bind_congr_r {A B} (m : M A) (k k' : A -> M B) w :
  (forall a w', m w = (Ok a, w') -> k a w' = k' a w') ->
  bind m k w = bind m k' w.
Proof.
  unfold bind. destruct (m w) as [[a|e] w']; [|reflexivity].
  intros H. apply H. reflexivity.
Qed.

Lemma for_each_app {A} (xs ys : list A) body w :
  for_each (xs ++ ys) body w = (for_each xs body ;;; for_each ys body) w.
Proof.
  revert w. induction xs as [|x xs IH]; intros w; simpl.
  - reflexivity.
  - unfold bind in *. destruct (body x w) as [[[]|e] w1]; [|reflexivity].
    apply IH.
Qed.

Lemma for_fold_app {A S} (xs ys : list A) (acc : S) body w :
  for_fold (xs ++ ys) acc body w
  = (acc' <- for_fold xs acc body ;; for_fold ys acc' body) w.
Proof.
  revert acc w. induction xs as [|x xs IH]; intros acc w; simpl.
  - reflexivity.
  - unfold bind in *. destruct (body acc x w) as [[acc1|e] w1]; [|reflexivity].
    apply IH.
Qed.

Section Emits.
Context (E : event -> Prop).

Lemma emits_ret {A} (Q : A -> Prop) a : Q a -> emits E Q (ret a).
Proof.
  intros HQ w. split.
  - exists []. simpl. rewrite app_nil_r. auto.
  - simpl. intros ? [= <-]. exact HQ.
Qed.

Lemma emits_raise {A} (Q : A -> Prop) e : emits E Q (raise e).
Proof.
  intros w. split.
  - exists []. simpl. rewrite app_nil_r. auto.
  - simpl. intros ? [=].
Qed.

Lemma emits_lift {A} (Q : A -> Prop) (r : result A) :
  (forall a, r = Ok a -> Q a) -> emits E Q (lift r).
Proof.
  intros HQ w. split.
  - exists []. simpl. rewrite app_nil_r. auto.
  - simpl. exact HQ.
Qed.

Lemma emits_weaken {A} (Q Q' : A -> Prop) m :
  emits E Q m -> (forall a, Q a -> Q' a) -> emits E Q' m.
Proof.
  intros Hm HQ w. destruct (Hm w) as [Ht Hr]. split; [exact Ht|].
  intros a Ha. auto.
Qed.

Lemma emits_bind {A B} (Q : A -> Prop) (R : B -> Prop) m (k : A -> M B) :
  emits E Q m -> (forall a, Q a -> emits E R (k a)) -> emits E R (bind m k).
Proof.
  intros Hm Hk w. destruct (Hm w) as [(new & Ht & HE) Hr].
  unfold bind. destruct (m w) as [[a|e] w1] eqn:Hmw; simpl in *.
  - destruct (Hk a (Hr a eq_refl) w1) as [(new' & Ht' & HE') Hr'].
    split; [|exact Hr'].
    exists (new ++ new'). rewrite Ht', Ht, app_assoc. split; [reflexivity|].
    apply Forall_app; auto.
  - split; [eauto|]. intros ? [=].
Qed.

Lemma emits_try {A} (Q : A -> Prop) m (h : exn -> M A) :
  emits E Q m -> (forall e, emits E Q (h e)) -> emits E Q (try_except m h).
Proof.
  intros Hm Hh w. destruct (Hm w) as [(new & Ht & HE) Hr].
  unfold try_except. destruct (m w) as [[a|e] w1] eqn:Hmw; simpl in *.
  - split; [eauto|]. intros ? [= <-]. auto.
  - destruct (Hh e w1) as [(new' & Ht' & HE') Hr'].
    split; [|exact Hr'].
    exists (new ++ new'). rewrite Ht', Ht, app_assoc. split; [reflexivity|].
    apply Forall_app; auto.
Qed.

Lemma emits_emit e : E e -> emits E (fun _ => True) (emit e).
Proof.
  intros He w. split; [|auto].
  exists [e]. simpl. auto.
Qed.

Lemma emits_execute r :
  (forall before served, E (Exec r before served)) ->
  emits E (fun _ => True) (execute r).
Proof.
  intros He w. split; [|auto].
  exists [Exec r (db w) (match faults w with true :: _ => false | _ => true end)].
  unfold execute.
  destruct (faults w) as [|[] later]; simpl;
    try destruct (serve r (db w)); simpl; auto.
Qed.

Lemma emits_for_each {A} (xs : list A) body :
  (forall x, x ∈ xs -> emits E (fun _ => True) (body x)) ->
  emits E (fun _ => True) (for_each xs body).
Proof.
  induction xs as [|x xs IH]; intros Hb; simpl.
  - apply emits_ret. exact I.
  - eapply emits_bind.
    + apply Hb. left.
    + intros _ _. apply IH. intros y Hy. apply Hb. right. exact Hy.
Qed.

Lemma emits_for_fold {A S} (Inv : S -> Prop) (xs : list A) acc body :
  Inv acc ->
  (forall acc x, Inv acc -> x ∈ xs -> emits E Inv (body acc x)) ->
  emits E Inv (for_fold xs acc body).
Proof.
  revert acc. induction xs as [|x xs IH]; intros acc Hacc Hb; simpl.
  - apply emits_ret. exact Hacc.
  - eapply emits_bind.
    + apply Hb; [exact Hacc | left].
    + intros acc' Hacc'. apply IH; [exact Hacc'|].
      intros acc0 y H0 Hy. apply Hb; [exact H0 | right; exact Hy].
Qed.

Lemma emits_retry {A} tries delay (f : M A) :
  E (Log WARNING (Retrying delay)) -> E (Sleep delay) ->
  emits E (fun _ => True) f ->
  emits E (fun _ => True) (retry tries delay f).
Proof.
  intros Hw Hs Hf. induction tries as [|tries IH]; simpl.
  - apply emits_ret. exact I.
  - apply emits_try.
    + eapply emits_bind; [exact Hf|]. intros a _. apply emits_ret. exact I.
    + intros e. destruct tries as [|tries'].
      * apply emits_raise.
      * eapply emits_bind; [apply emits_emit; exact Hw|]. intros _ _.
        eapply emits_bind; [apply emits_emit; exact Hs|]. intros _ _.
        exact IH.
Qed.

End Emits.

Lemma emits_events {A} E (Q : A -> Prop) m w :
  emits E Q m -> Forall E (new_events m w).
Proof.
  intros Hm. destruct (Hm w) as [(new & Ht & HE) _].
  unfold new_events. rewrite Ht, drop_app_length. exact HE.
Qed.

Lemma emits_impl {A} (E E' : event -> Prop) (Q : A -> Prop) m :
  (forall e, E e -> E' e) -> emits E Q m -> emits E' Q m.
Proof.
  intros HE Hm w. destruct (Hm w) as [(new & Ht & Hnew) Hr].
  split; [|exact Hr]. exists new. split; [exact Ht|].
  eapply Forall_impl; eauto.
Qed.

Lemma emits_then_run {A B} E (Q : A -> Prop) (R : B -> Prop) (m1 : M A) (m2 : M B) :
  emits E Q m1 -> emits E R m2 -> emits E R (then_run m1 m2).
Proof.
  intros H1 H2 w. unfold then_run.
  destruct (H1 w) as [(n1 & Ht1 & HE1) _].
  destruct (H2 (m1 w).2) as [(n2 & Ht2 & HE2) Hr]. split; [|exact Hr].
  exists (n1 ++ n2). rewrite Ht2, Ht1, app_assoc. split; [reflexivity|].
  apply Forall_app; auto.
Qed.

(** ** The traversal *)

Lemma content_ingest_traverse root :
  ContentIngestion.ingest root
  = traverse chunks_by_level ContentIngestion.ingest_file root.
Proof. reflexivity. Qed.

Lemma question_ingest_traverse root :
  QuestionIngestion.ingest root
  = traverse questions_by_level QuestionIngestion.ingest_file root.
Proof. reflexivity. Qed.

Section EmitsTraverse.
Context (E : event -> Prop).
Context (E_log : forall lvl msg, E (Log lvl msg)).
Context (E_hierarchy : forall r before served,
            is_row_write r = false -> E (Exec r before served)).

Lemma emits_logging lvl msg : emits E (fun _ => True) (logging lvl msg).
Proof. apply emits_emit, E_log. Qed.

Lemma emits_get_or_create_topic name :
  emits E (fun _ => True) (get_or_create_topic name).
Proof.
  apply emits_try.
  - eapply emits_bind; [apply emits_execute; auto|]. intros _ _.
    eapply emits_bind; [apply emits_execute; auto|]. intros [id|] _.
    + apply emits_ret. exact I.
    + apply emits_raise.
  - intros e. eapply emits_bind; [apply emits_logging|]. intros _ _.
    apply emits_raise.
Qed.

Lemma emits_get_or_create_subtopic tid name :
  emits E (fun _ => True) (get_or_create_subtopic tid name).
Proof.
  apply emits_try.
  - eapply emits_bind; [apply emits_execute; auto|]. intros _ _.
    eapply emits_bind; [apply emits_execute; auto|]. intros [id|] _.
    + apply emits_ret. exact I.
    + apply emits_raise.
  - intros e. eapply emits_bind; [apply emits_logging|]. intros _ _.
    apply emits_raise.
Qed.

Lemma emits_traverse select ingest_file root :
  (forall t s sid, t ∈ root -> s ∈ subtopic_folders t ->
     emits E (fun _ => True)
       (ingest_file sid (subtopic_folder_name s) (select s))) ->
  emits E (fun _ => True) (traverse select ingest_file root).
Proof.
  intros Hfile. unfold traverse, topic_step, subtopic_step.
  eapply emits_bind; [|intros _ _; apply emits_logging].
  apply emits_for_each. intros t Ht.
  eapply emits_bind; [apply emits_get_or_create_topic|]. intros tid _.
  eapply emits_bind; [apply emits_logging|]. intros _ _.
  apply emits_for_each. intros s Hs.
  eapply emits_bind; [apply emits_get_or_create_subtopic|]. intros sid _.
  eapply emits_bind; [apply emits_logging|]. intros _ _.
  eapply Hfile; eassumption.
Qed.

Lemma emits_content_safe_upsert table rows :
  (forall before served, E (Exec (UpsertContent rows) before served)) ->
  E (Sleep 2) ->
  emits E (fun _ => True) (ContentIngestion.safe_upsert table rows).
Proof.
  intros Hrows Hsleep. apply emits_retry; auto.
  apply emits_try.
  - eapply emits_weaken; [apply emits_execute; auto|]. auto.
  - intros e. eapply emits_bind; [apply emits_logging|]. intros _ _.
    apply emits_raise.
Qed.

Lemma emits_question_safe_upsert table rows :
  (forall before served, E (Exec (UpsertQuestions rows) before served)) ->
  E (Sleep 2) ->
  emits E (fun _ => True) (QuestionIngestion.safe_upsert table rows).
Proof.
  intros Hrows Hsleep. apply emits_retry; auto.
  apply emits_try.
  - eapply emits_weaken; [apply emits_execute; auto|]. auto.
  - intros e. eapply emits_bind; [apply emits_logging|]. intros _ _.
    apply emits_raise.
Qed.

(** The content flow sends the rows of its buffer, and a row enters the
    buffer only through [ingest_level]. *)
Lemma emits_content_file (P : content_row -> Prop) sid name file :
  (forall rows before served,
      Forall P rows -> E (Exec (UpsertContent rows) before served)) ->
  E (Sleep 2) ->
  (forall data batch entry,
      file = Loaded data -> entry ∈ ContentIngestion.DIFFICULTY_MAP ->
      Forall P batch ->
      emits E (Forall P) (ContentIngestion.ingest_level sid data batch entry)) ->
  emits E (fun _ => True) (ContentIngestion.ingest_file sid name file).
Proof.
  intros Hrows Hsleep Hlevel. unfold ContentIngestion.ingest_file.
  destruct file as [| |data].
  - apply emits_logging.
  - apply emits_raise.
  - destruct (negb (is_dict data)); [apply emits_logging|].
    eapply emits_bind.
    + apply (emits_for_fold E (Forall P)); [constructor|].
      intros acc x Hacc Hx. apply Hlevel; auto.
    + intros [|r batch] Hbatch; [apply emits_ret; exact I|].
      eapply emits_bind; [|intros _ _; apply emits_logging].
      apply emits_content_safe_upsert; auto.
Qed.

(** The question flow: the same, with the flush inside the loop. *)
Lemma emits_question_file (P : question_row -> Prop) sid name file :
  (forall rows before served,
      Forall P rows -> E (Exec (UpsertQuestions rows) before served)) ->
  E (Sleep 2) ->
  (forall data levels batch entry,
      file = Loaded data -> py_getitem data "by_level" = Ok levels ->
      entry ∈ QuestionIngestion.DIFFICULTY_MAP ->
      Forall P batch ->
      emits E (Forall P)
        (QuestionIngestion.ingest_level sid name levels batch entry)) ->
  emits E (fun _ => True) (QuestionIngestion.ingest_file sid name file).
Proof.
  intros Hrows Hsleep Hlevel. unfold QuestionIngestion.ingest_file.
  destruct file as [| |data]; try apply emits_logging.
  match goal with |- context [if ?c then _ else _] => destruct c end;
    [apply emits_logging|].
  eapply (emits_bind E (fun levels => py_getitem data "by_level" = Ok levels)).
  { apply emits_lift. auto. }
  intros levels Hlevels.
  eapply emits_bind.
  + apply (emits_for_fold E (Forall P)); [constructor|].
    intros acc x Hacc Hx. eapply Hlevel; eauto.
  + intros [|r batch] Hbatch; [apply emits_ret; exact I|].
    eapply emits_bind; [|intros _ _; apply emits_logging].
    apply emits_question_safe_upsert; auto.
Qed.

End EmitsTraverse.

(** ** Rows enter the buffers one level at a time *)

Lemma emits_content_level E (P : content_row -> Prop) sid data batch entry :
  Forall P batch ->
  (forall block title summary,
      py_getitem data entry.1 = Ok block ->
      P {| c_subtopic_id := sid; c_difficulty := entry.2; c_title := title;
           c_summary := summary; c_content_json := block;
           c_content_hash := hash_content block; c_is_published := true |}) ->
  emits E (Forall P) (ContentIngestion.ingest_level sid data batch entry).
Proof.
  intros Hbatch Hrow. destruct entry as [yl dl]. simpl in Hrow.
  unfold ContentIngestion.ingest_level.
  eapply emits_bind; [apply emits_lift with (Q := fun _ => True); auto|].
  intros present _. destruct (negb present); [apply emits_ret; exact Hbatch|].
  eapply (emits_bind E (fun block => py_getitem data yl = Ok block)).
  { apply emits_lift. auto. }
  intros block Hblock.
  eapply emits_bind; [apply emits_lift with (Q := fun _ => True); auto|].
  intros title _.
  eapply emits_bind; [apply emits_lift with (Q := fun _ => True); auto|].
  intros summary _.
  apply emits_ret. apply Forall_app. split; [exact Hbatch|].
  constructor; [|constructor]. apply Hrow. exact Hblock.
Qed.

Lemma emits_question_item E (P : question_row -> Prop) sid name dl batch q :
  (forall lvl msg, E (Log lvl msg)) ->
  (forall rows before served,
      Forall P rows -> E (Exec (UpsertQuestions rows) before served)) ->
  E (Sleep 2) ->
  Forall P batch ->
  (forall t, py_get q "type" YNull = Ok t ->
      P {| q_subtopic_id := sid; q_difficulty := dl; q_question_type := t;
           q_content_json := q; q_question_hash := hash_content q;
           q_is_published := true |}) ->
  emits E (Forall P) (QuestionIngestion.ingest_question sid name dl batch q).
Proof.
  intros Hlog Hrows Hsleep Hbatch Hrow. unfold QuestionIngestion.ingest_question.
  eapply (emits_bind E (fun t => py_get q "type" YNull = Ok t)).
  { apply emits_lift. auto. }
  intros t Ht. destruct (negb (truthy t)).
  - eapply emits_bind; [apply emits_emit, Hlog|]. intros _ _.
    apply emits_ret. exact Hbatch.
  - assert (Forall P (batch ++ [{| q_subtopic_id := sid; q_difficulty := dl;
        q_question_type := t; q_content_json := q;
        q_question_hash := hash_content q; q_is_published := true |}])) as Hall.
    { apply Forall_app. split; [exact Hbatch|]. constructor; [auto|constructor]. }
    match goal with |- context [if ?c then _ else _] => destruct c end.
    + eapply emits_bind.
      * apply emits_question_safe_upsert; auto.
      * intros _ _. apply emits_ret. constructor.
    + apply emits_ret. exact Hall.
Qed.

Lemma emits_question_level E (P : question_row -> Prop) sid name levels batch entry :
  (forall lvl msg, E (Log lvl msg)) ->
  (forall rows before served,
      Forall P rows -> E (Exec (UpsertQuestions rows) before served)) ->
  E (Sleep 2) ->
  Forall P batch ->
  (forall block questions qs q t,
      py_getitem levels entry.1 = Ok block ->
      py_get block "questions" (YList []) = Ok questions ->
      py_iter questions = Ok qs -> q ∈ qs ->
      py_get q "type" YNull = Ok t ->
      P {| q_subtopic_id := sid; q_difficulty := entry.2; q_question_type := t;
           q_content_json := q; q_question_hash := hash_content q;
           q_is_published := true |}) ->
  emits E (Forall P) (QuestionIngestion.ingest_level sid name levels batch entry).
Proof.
  intros Hlog Hrows Hsleep Hbatch Hrow. destruct entry as [yl dl]. simpl in Hrow.
  unfold QuestionIngestion.ingest_level.
  eapply emits_bind; [apply emits_lift with (Q := fun _ => True); auto|].
  intros present _. destruct (negb present); [apply emits_ret; exact Hbatch|].
  eapply (emits_bind E (fun block => py_getitem levels yl = Ok block)).
  { apply emits_lift. auto. }
  intros block Hblock.
  eapply (emits_bind E (fun qq => py_get block "questions" (YList []) = Ok qq)).
  { apply emits_lift. auto. }
  intros questions Hquestions.
  eapply (emits_bind E (fun qs => py_iter questions = Ok qs)).
  { apply emits_lift. auto. }
  intros qs Hqs.
  apply emits_for_fold; [exact Hbatch|].
  intros acc q Hacc Hq. apply emits_question_item; auto.
  intros t Ht. eapply Hrow; eauto.
Qed.

(** C10. Every content row and every question row that a run of either
    flow sends to the store has [is_published] set to [True], whatever the
    input files, the store and its failures. *)
Theorem rows_always_published (root : list topic_folder) (w : world) :
  Forall published (new_events (ContentIngestion.ingest root) w) /\
  Forall published (new_events (QuestionIngestion.ingest root) w).
Proof.
  split; eapply emits_events.
  - rewrite content_ingest_traverse. apply emits_traverse.
    + intros; exact I.
    + intros [] ? ? ?; simpl; try exact I; discriminate.
    + intros t s sid _ _.
      apply emits_content_file with (P := fun r => c_is_published r = true);
        simpl; auto.
      * intros data batch entry _ _ Hbatch.
        apply emits_content_level; auto.
  - rewrite question_ingest_traverse. apply emits_traverse.
    + intros; exact I.
    + intros [] ? ? ?; simpl; try exact I; discriminate.
    + intros t s sid _ _.
      apply emits_question_file with (P := fun r => q_is_published r = true);
        simpl; auto.
      * intros data levels batch entry _ _ _ Hbatch.
        apply emits_question_level; simpl; auto.
Qed.

(** ** Loops depend on their bodies pointwise *)

Lemma for_fold_ext {A S} (xs : list A) (acc : S) body body' w :
  (forall acc x w, x ∈ xs -> body acc x w = body' acc x w) ->
  for_fold xs acc body w = for_fold xs acc body' w.
Proof.
  revert acc w. induction xs as [|x xs IH]; intros acc w Hb; simpl.
  - reflexivity.
  - unfold bind. rewrite Hb by left.
    destruct (body' acc x w) as [[acc'|e] w']; [|reflexivity].
    apply IH. intros. apply Hb. right. assumption.
Qed.

Lemma for_each_ext {A} (xs : list A) body body' w :
  (forall x w, x ∈ xs -> body x w = body' x w) ->
  for_each xs body w = for_each xs body' w.
Proof.
  revert w. induction xs as [|x xs IH]; intros w Hb; simpl.
  - reflexivity.
  - unfold bind. rewrite Hb by left.
    destruct (body' x w) as [[[]|e] w']; [|reflexivity].
    apply IH. intros. apply Hb. right. assumption.
Qed.

Arguments hash_content : simpl never.

(** ** The levels a file is asked for *)

Lemma content_level_absent sid items batch entry w :
  dict_get entry.1 items = None ->
  ContentIngestion.ingest_level sid (YDict items) batch entry w = (Ok batch, w).
Proof.
  destruct entry as [yl dl]. simpl. intros H.
  unfold ContentIngestion.ingest_level, bind, lift. simpl. rewrite H. reflexivity.
Qed.

Lemma question_level_absent sid name levels batch entry w :
  dict_get entry.1 levels = None ->
  QuestionIngestion.ingest_level sid name (YDict levels) batch entry w = (Ok batch, w).
Proof.
  destruct entry as [yl dl]. simpl. intros H.
  unfold QuestionIngestion.ingest_level, bind, lift. simpl. rewrite H. reflexivity.
Qed.

Lemma content_level_agree sid items items' batch entry w :
  dict_get entry.1 items = dict_get entry.1 items' ->
  ContentIngestion.ingest_level sid (YDict items) batch entry w
  = ContentIngestion.ingest_level sid (YDict items') batch entry w.
Proof.
  destruct entry as [yl dl]. simpl. intros H.
  unfold ContentIngestion.ingest_level, bind, lift. simpl. rewrite H. reflexivity.
Qed.

Lemma question_level_agree sid name levels levels' batch entry w :
  dict_get entry.1 levels = dict_get entry.1 levels' ->
  QuestionIngestion.ingest_level sid name (YDict levels) batch entry w
  = QuestionIngestion.ingest_level sid name (YDict levels') batch entry w.
Proof.
  destruct entry as [yl dl]. simpl. intros H.
  unfold QuestionIngestion.ingest_level, bind, lift. simpl. rewrite H. reflexivity.
Qed.

(** C9. Both flows ask the file for the three levels of their table and for
    nothing else.  A level of the table that the file lacks adds no row and
    leaves the world (store, log) untouched; and two files that agree on the
    three levels of the table are treated alike in every respect, whatever
    other level names they hold: same rows, same requests, same log. *)
Theorem unlisted_levels_ignored
    (sid : nat) (name : string)
    (items items' qitems qitems' levels levels' : list (string * value))
    (Hagree : forall k, k ∈ ["beginner"; "intermediate"; "advanced"] ->
                dict_get k items = dict_get k items')
    (Hlevels : dict_get "by_level" qitems = Some (YDict levels))
    (Hlevels' : dict_get "by_level" qitems' = Some (YDict levels'))
    (Hqagree : forall k, k ∈ ["beginner"; "intermediate"; "advanced"] ->
                dict_get k levels = dict_get k levels') :
  (forall batch entry w,
      dict_get entry.1 items = None ->
      ContentIngestion.ingest_level sid (YDict items) batch entry w = (Ok batch, w)) /\
  (forall batch entry w,
      dict_get entry.1 levels = None ->
      QuestionIngestion.ingest_level sid name (YDict levels) batch entry w
      = (Ok batch, w)) /\
  (forall w,
      ContentIngestion.ingest_file sid name (Loaded (YDict items)) w
      = ContentIngestion.ingest_file sid name (Loaded (YDict items')) w) /\
  (forall w,
      QuestionIngestion.ingest_file sid name (Loaded (YDict qitems)) w
      = QuestionIngestion.ingest_file sid name (Loaded (YDict qitems')) w).
Proof.
  split; [intros; apply content_level_absent; assumption|].
  split; [intros; apply question_level_absent; assumption|].
  split; intros w.
  - unfold ContentIngestion.ingest_file. simpl negb. cbv iota.
    apply bind_congr_l. apply for_fold_ext.
    intros acc entry w0 Hin. apply content_level_agree. apply Hagree.
    exact (list_elem_of_fmap_2 fst _ _ Hin).
  - unfold QuestionIngestion.ingest_file, py_in, py_getitem. simpl negb.
    rewrite Hlevels, Hlevels'. cbn [negb is_dict orb]. rewrite !bind_lift_ok.
    apply bind_congr_l. apply for_fold_ext.
    intros acc entry w0 Hin. apply question_level_agree. apply Hqagree.
    exact (list_elem_of_fmap_2 fst _ _ Hin).
Qed.

Lemma unlisted_levels_ignored_witness :
  ContentIngestion.ingest_file 1 "Sub1"
    (Loaded (YDict [("beginner", YDict [("title", YStr "T1")])])) (fresh [])
  = ContentIngestion.ingest_file 1 "Sub1"
      (Loaded (YDict [("expert", YDict [("title", YStr "T9")]);
                      ("beginner", YDict [("title", YStr "T1")])])) (fresh []).
Proof.
  refine (proj1 (proj2 (proj2
    (unlisted_levels_ignored 1 "Sub1"
       [("beginner", YDict [("title", YStr "T1")])]
       [("expert", YDict [("title", YStr "T9")]);
        ("beginner", YDict [("title", YStr "T1")])]
       [("by_level", YDict [])] [("by_level", YDict [("expert", YNull)])]
       [] [("expert", YNull)] _ eq_refl eq_refl _))) (fresh [])).
  - intros k Hk.
    repeat (apply elem_of_cons in Hk as [->|Hk]; [reflexivity|]).
    apply elem_of_nil in Hk. destruct Hk.
  - intros k Hk.
    repeat (apply elem_of_cons in Hk as [->|Hk]; [reflexivity|]).
    apply elem_of_nil in Hk. destruct Hk.
Defined.

(** ** Question items *)

Lemma question_without_type sid name dl batch fields w :
  dict_get "type" fields = None ->
  QuestionIngestion.ingest_question sid name dl batch (YDict fields) w
  = (Ok batch, warn (SkippingQuestion name) w).
Proof.
  intros H. unfold QuestionIngestion.ingest_question. simpl.
  rewrite bind_lift_ok, H. reflexivity.
Qed.

Lemma question_with_type sid name dl batch fields t w :
  dict_get "type" fields = Some t -> truthy t = true ->
  QuestionIngestion.ingest_question sid name dl batch (YDict fields) w
  = let row := {| q_subtopic_id := sid; q_difficulty := dl;
                  q_question_type := t; q_content_json := YDict fields;
                  q_question_hash := hash_content (YDict fields);
                  q_is_published := true |} in
    if (QuestionIngestion.BATCH_SIZE <=? length (batch ++ [row]))%nat
    then (QuestionIngestion.safe_upsert "questions" (batch ++ [row]) ;;; ret []) w
    else (Ok (batch ++ [row]), w).
Proof.
  intros H Ht. unfold QuestionIngestion.ingest_question. simpl.
  rewrite bind_lift_ok, H, Ht. simpl.
  match goal with |- context [if ?c then _ else _] => destruct c end; reflexivity.
Qed.

(** ** [safe_upsert]: three attempts, two seconds apart *)


Lemma question_safe_upsert_exhausted table rows w rest :
  faults w = true :: true :: true :: rest ->
  QuestionIngestion.safe_upsert table rows w
  = (Raise APIError,
     {| db := db w;
        trace := trace w
                 ++ failed_attempt (UpsertQuestions rows) table (db w) ++ pause
                 ++ failed_attempt (UpsertQuestions rows) table (db w) ++ pause
                 ++ failed_attempt (UpsertQuestions rows) table (db w);
        faults := rest |}).
Proof.
  destruct w as [s tr fl]. simpl. intros ->.
  cbn. rewrite <- !app_assoc. reflexivity.
Qed.

Lemma content_safe_upsert_recovers table rows w k rest :
  (k < 3)%nat -> faults w = repeat true k ++ false :: rest ->
  ContentIngestion.safe_upsert table rows w
  = (Ok (Some None),
     {| db := (serve (UpsertContent rows) (db w)).2;
        trace := trace w
                 ++ concat (repeat (failed_attempt (UpsertContent rows) table (db w)
                                    ++ pause) k)
                 ++ [Exec (UpsertContent rows) (db w) true];
        faults := rest |}).
Proof.
  destruct w as [s tr fl]. simpl. intros Hk ->.
  destruct k as [|[|[|k]]]; [| | |lia];
    cbn; rewrite <- ?app_assoc; reflexivity.
Qed.

Lemma question_safe_upsert_recovers table rows w k rest :
  (k < 3)%nat -> faults w = repeat true k ++ false :: rest ->
  QuestionIngestion.safe_upsert table rows w
  = (Ok (Some None),
     {| db := (serve (UpsertQuestions rows) (db w)).2;
        trace := trace w
                 ++ concat (repeat (failed_attempt (UpsertQuestions rows) table (db w)
                                    ++ pause) k)
                 ++ [Exec (UpsertQuestions rows) (db w) true];
        faults := rest |}).
Proof.
  destruct w as [s tr fl]. simpl. intros Hk ->.
  destruct k as [|[|[|k]]]; [| | |lia];
    cbn; rewrite <- ?app_assoc; reflexivity.
Qed.

(** ** An exception ends the traversal *)

Lemma for_each_raise_prefix {A} (xs ys : list A) body w e w' :
  for_each xs body w = (Raise e, w') ->
  for_each (xs ++ ys) body w = (Raise e, w').
Proof. intros H. rewrite for_each_app. apply bind_raise. exact H. Qed.

Lemma traverse_raise_prefix select ingest_file root name subs more_subs more_topics
    w e w' :
  traverse select ingest_file
    (root ++ [{| topic_folder_name := name; subtopic_folders := subs |}]) w
  = (Raise e, w') ->
  traverse select ingest_file
    (root ++ {| topic_folder_name := name; subtopic_folders := subs ++ more_subs |}
          :: more_topics) w
  = (Raise e, w').
Proof.
  unfold traverse.
  set (sub := subtopic_step select ingest_file).
  set (top := topic_step select ingest_file).
  intros H. apply bind_raise.
  assert (for_each
            (root ++ [{| topic_folder_name := name; subtopic_folders := subs |}])
            top w = (Raise e, w')) as Hloop.
  { unfold bind in H.
    destruct (for_each _ top w) as [[[]|e0] w0]; [discriminate|exact H]. }
  clear H. rewrite for_each_app in Hloop. rewrite for_each_app.
  unfold bind in *.
  destruct (for_each root top w) as [[[]|e0] w0]; [|exact Hloop].
  simpl in *. unfold bind in *. unfold top, topic_step in *.
  simpl in *. unfold bind in *. fold sub in Hloop |- *.
  destruct (get_or_create_topic name w0) as [[tid|e1] w1]; [|exact Hloop].
  destruct (logging INFO (ProcessingTopic name tid) w1) as [[[]|e2] w2];
    [|exact Hloop].
  destruct (for_each subs (sub tid) w2) as [[[]|e3] w3] eqn:Hsubs;
    [discriminate|].
  rewrite (for_each_raise_prefix _ _ _ _ _ _ Hsubs). exact Hloop.
Qed.


Lemma question_file_write_exhausted sid name items levels r rows w w1 rest :
  dict_get "by_level" items = Some levels ->
  for_fold QuestionIngestion.DIFFICULTY_MAP []
    (QuestionIngestion.ingest_level sid name levels) w = (Ok (r :: rows), w1) ->
  faults w1 = true :: true :: true :: rest ->
  QuestionIngestion.ingest_file sid name (Loaded (YDict items)) w
  = (Raise APIError,
     {| db := db w1;
        trace := trace w1
                 ++ failed_attempt (UpsertQuestions (r :: rows)) "questions" (db w1)
                 ++ pause
                 ++ failed_attempt (UpsertQuestions (r :: rows)) "questions" (db w1)
                 ++ pause
                 ++ failed_attempt (UpsertQuestions (r :: rows)) "questions" (db w1);
        faults := rest |}).
Proof.
  intros Hlevels Hrows Hfaults.
  unfold QuestionIngestion.ingest_file, py_in, py_getitem.
  rewrite Hlevels. cbn [negb is_dict orb]. rewrite bind_lift_ok.
  rewrite (bind_ok _ _ _ _ _ Hrows).
  apply bind_raise. apply question_safe_upsert_exhausted. exact Hfaults.
Qed.


(** ** Files that fail structural validation *)

Lemma content_file_not_mapping sid name data w :
  not_a_mapping data ->
  ContentIngestion.ingest_file sid name (Loaded data) w
  = (Ok tt, report (InvalidStructure name) w).
Proof.
  unfold not_a_mapping, ContentIngestion.ingest_file. intros ->. reflexivity.
Qed.

Lemma content_file_unparseable sid name w :
  ContentIngestion.ingest_file sid name Malformed w = (Raise YAMLError, w).
Proof. reflexivity. Qed.

Lemma question_file_unparseable sid name w :
  QuestionIngestion.ingest_file sid name Malformed w
  = (Ok tt, report (FailedToParse name) w).
Proof. reflexivity. Qed.

Lemma question_file_not_mapping sid name data w :
  not_a_mapping data ->
  QuestionIngestion.ingest_file sid name (Loaded data) w
  = (Ok tt, report (InvalidStructure name) w).
Proof.
  unfold not_a_mapping, QuestionIngestion.ingest_file. intros ->. reflexivity.
Qed.

Lemma question_file_lacks_by_level sid name data w :
  lacks_by_level data ->
  QuestionIngestion.ingest_file sid name (Loaded data) w
  = (Ok tt, report (InvalidStructure name) w).
Proof.
  intros (items & -> & Hnone).
  unfold QuestionIngestion.ingest_file, py_in. rewrite Hnone. reflexivity.
Qed.

(** C6 at the failing input.  A chunks file that does not parse makes the
    content run raise [yaml.YAMLError]: the run ends at that subtopic and the
    next one, whose file is fine, is neither created nor ingested.  The
    question run over the same folders logs the parse failure and goes on to
    ingest the next subtopic. *)
Theorem unparseable_chunks_file_ends_content_run :
  ((ContentIngestion.ingest unparseable_first (fresh [])).1 = Raise YAMLError /\
   subtopics (db (ContentIngestion.ingest unparseable_first (fresh [])).2)
     !! (1%nat, "SubC") = None /\
   content (db (ContentIngestion.ingest unparseable_first (fresh [])).2) = ∅ /\
   Forall (fun e => match e with Log ERROR _ => False | _ => True end)
     (trace (ContentIngestion.ingest unparseable_first (fresh [])).2)) /\
  ((QuestionIngestion.ingest unparseable_first (fresh [])).1 = Ok tt /\
   Log ERROR (FailedToParse "SubBad")
     ∈ trace (QuestionIngestion.ingest unparseable_first (fresh [])).2 /\
   subtopics (db (QuestionIngestion.ingest unparseable_first (fresh [])).2)
     !! (1%nat, "SubC") = Some 2%nat /\
   size (questions (db (QuestionIngestion.ingest unparseable_first (fresh [])).2))
     = 1%nat).
Proof.
  split; [split; [|split; [|split]]|split; [|split; [|split]]];
    try (vm_compute; reflexivity).
  - vm_compute. repeat constructor.
  - vm_compute. repeat first [ apply list_elem_of_here | apply list_elem_of_further ].
Qed.

(** ** Requests the store serves *)

Lemma execute_served r w :
  faults w = [] ->
  execute r w
  = ((serve r (db w)).1,
     {| db := (serve r (db w)).2; trace := trace w ++ [Exec r (db w) true];
        faults := [] |}).
Proof.
  intros H. unfold execute. rewrite H. destruct (serve r (db w)). reflexivity.
Qed.

Lemma topic_after_upsert name s :
  topics (with_topic name s) !! name
  = Some (default (next_topic_id s) (topics s !! name)).
Proof.
  unfold with_topic. destruct (topics s !! name) as [id|] eqn:H; simpl.
  - exact H.
  - apply lookup_insert_eq.
Qed.

Lemma subtopic_after_upsert tid name s :
  subtopics (with_subtopic tid name s) !! (tid, name)
  = Some (default (next_subtopic_id s) (subtopics s !! (tid, name))).
Proof.
  unfold with_subtopic. destruct (subtopics s !! (tid, name)) as [id|] eqn:H; simpl.
  - exact H.
  - apply lookup_insert_eq.
Qed.

Lemma get_or_create_topic_served name w :
  faults w = [] ->
  get_or_create_topic name w
  = (Ok (default (next_topic_id (db w)) (topics (db w) !! name)),
     {| db := with_topic name (db w);
        trace := trace w ++ [Exec (UpsertTopic name) (db w) true;
                             Exec (SelectTopic name) (with_topic name (db w)) true];
        faults := [] |}).
Proof.
  intros H. unfold get_or_create_topic, try_except.
  erewrite bind_ok by (rewrite execute_served by exact H; reflexivity).
  unfold bind. rewrite execute_served by reflexivity.
  cbn [serve db trace faults fst snd]. rewrite topic_after_upsert.
  cbn. rewrite <- app_assoc. reflexivity.
Qed.

Lemma get_or_create_subtopic_served tid name w :
  faults w = [] ->
  get_or_create_subtopic tid name w
  = (Ok (default (next_subtopic_id (db w)) (subtopics (db w) !! (tid, name))),
     {| db := with_subtopic tid name (db w);
        trace := trace w ++ [Exec (UpsertSubtopic tid name) (db w) true;
                             Exec (SelectSubtopic tid name)
                               (with_subtopic tid name (db w)) true];
        faults := [] |}).
Proof.
  intros H. unfold get_or_create_subtopic, try_except.
  erewrite bind_ok by (rewrite execute_served by exact H; reflexivity).
  unfold bind. rewrite execute_served by reflexivity.
  cbn [serve db trace faults fst snd]. rewrite subtopic_after_upsert.
  cbn. rewrite <- app_assoc. reflexivity.
Qed.

Lemma content_safe_upsert_served table rows w :
  faults w = [] ->
  ContentIngestion.safe_upsert table rows w
  = (Ok (Some None),
     {| db := with_content rows (db w);
        trace := trace w ++ [Exec (UpsertContent rows) (db w) true];
        faults := [] |}).
Proof.
  intros H. unfold ContentIngestion.safe_upsert, ContentIngestion.MAX_RETRIES.
  cbn [retry]. unfold try_except, bind.
  rewrite execute_served by exact H. reflexivity.
Qed.

Lemma question_safe_upsert_served table rows w :
  faults w = [] ->
  QuestionIngestion.safe_upsert table rows w
  = (Ok (Some None),
     {| db := with_questions rows (db w);
        trace := trace w ++ [Exec (UpsertQuestions rows) (db w) true];
        faults := [] |}).
Proof.
  intros H. unfold QuestionIngestion.safe_upsert, QuestionIngestion.MAX_RETRIES.
  cbn [retry]. unfold try_except, bind.
  rewrite execute_served by exact H. reflexivity.
Qed.

Lemma content_level_block sid items batch yl dl block w :
  dict_get yl items = Some (YDict block) ->
  ContentIngestion.ingest_level sid (YDict items) batch (yl, dl) w
  = (Ok (batch ++ [content_row_of sid dl block]), w).
Proof.
  intros H. unfold ContentIngestion.ingest_level, bind, lift. simpl.
  rewrite H. reflexivity.
Qed.

(** C7. A chunks file with a beginner, an intermediate and an advanced
    block, under topic TopicA and subtopic Sub1, ingested into an empty
    store: the run returns, and the store holds one topic row named TopicA,
    one subtopic row, and three content rows with the difficulties basic,
    core and advanced, each carrying its source block and, as
    [content_hash], the fingerprint of that block. *)
Theorem content_scenario
    (items b1 b2 b3 : list (string * value)) (qfile : yaml_file)
    (Hbeginner : dict_get "beginner" items = Some (YDict b1))
    (Hintermediate : dict_get "intermediate" items = Some (YDict b2))
    (Hadvanced : dict_get "advanced" items = Some (YDict b3)) :
  let root :=
    [{| topic_folder_name := "TopicA";
        subtopic_folders :=
          [{| subtopic_folder_name := "Sub1";
              chunks_by_level := Loaded (YDict items);
              questions_by_level := qfile |}] |}] in
  let out := ContentIngestion.ingest root (fresh []) in
  out.1 = Ok tt /\
  topics (db out.2) = {["TopicA" := 1%nat]} /\
  subtopics (db out.2) = {[(1%nat, "Sub1") := 1%nat]} /\
  content (db out.2)
    = <[(1%nat, "advanced") := content_row_of 1 "advanced" b3]>
        (<[(1%nat, "core") := content_row_of 1 "core" b2]>
           (<[(1%nat, "basic") := content_row_of 1 "basic" b1]> ∅)) /\
  size (topics (db out.2)) = 1%nat /\
  size (subtopics (db out.2)) = 1%nat /\
  size (content (db out.2)) = 3%nat /\
  c_content_hash (content_row_of 1 "basic" b1) = hash_content (YDict b1) /\
  c_content_hash (content_row_of 1 "core" b2) = hash_content (YDict b2) /\
  c_content_hash (content_row_of 1 "advanced" b3) = hash_content (YDict b3).
Proof.
  cbv zeta. unfold ContentIngestion.ingest, fresh.
  cbn [for_each topic_folder_name subtopic_folders subtopic_folder_name chunks_by_level].
  erewrite bind_ok.
  2:{ erewrite bind_ok.
      2:{ erewrite bind_ok by (apply get_or_create_topic_served; reflexivity).
          cbn [db trace faults empty_store topics next_topic_id].
          rewrite lookup_empty. cbn [default].
          erewrite bind_ok by reflexivity.
          erewrite bind_ok.
          2:{ erewrite bind_ok by (apply get_or_create_subtopic_served; reflexivity).
              erewrite bind_ok by reflexivity.
              unfold ContentIngestion.ingest_file. cbn [negb is_dict].
              erewrite bind_ok.
              2:{ unfold ContentIngestion.DIFFICULTY_MAP. cbn [for_fold].
                  erewrite bind_ok by (apply content_level_block; eassumption).
                  erewrite bind_ok by (apply content_level_block; eassumption).
                  erewrite bind_ok by (apply content_level_block; eassumption).
                  reflexivity. }
              cbn [app].
              erewrite bind_ok by (apply content_safe_upsert_served; reflexivity).
              reflexivity. }
          reflexivity. }
      reflexivity. }
  cbn [logging emit db trace faults fst snd].
  unfold with_topic, with_subtopic.
  cbn [empty_store topics subtopics content questions next_topic_id next_subtopic_id].
  rewrite !lookup_empty.
  cbn [default with_content topics subtopics content questions next_topic_id
       next_subtopic_id upsert_content upsert_rows fold_left content_key c_subtopic_id
       c_difficulty content_row_of].
  rewrite !lookup_empty.
  cbn [default with_content topics subtopics content questions next_topic_id
       next_subtopic_id upsert_content upsert_rows fold_left content_key c_subtopic_id
       c_difficulty content_row_of].
  split; [reflexivity|]. split; [reflexivity|]. split; [reflexivity|].
  split; [reflexivity|].
  split; [rewrite insert_empty; apply map_size_singleton|].
  split; [rewrite insert_empty; apply map_size_singleton|].
  split; [|repeat split].
  cbn [content_key content_row_of c_subtopic_id c_difficulty].
  rewrite !map_size_insert_None, map_size_empty; [reflexivity| | |].
  - apply lookup_empty.
  - rewrite lookup_insert_ne by discriminate. apply lookup_empty.
  - rewrite !lookup_insert_ne by discriminate. apply lookup_empty.
Qed.

Lemma content_scenario_witness :
  let block := [("title", YStr "T1")] in
  let items := [("beginner", YDict block); ("intermediate", YDict block);
                ("advanced", YDict block)] in
  let root :=
    [{| topic_folder_name := "TopicA";
        subtopic_folders :=
          [{| subtopic_folder_name := "Sub1";
              chunks_by_level := Loaded (YDict items);
              questions_by_level := Absent |}] |}] in
  size (content (db (ContentIngestion.ingest root (fresh [])).2)) = 3%nat.
Proof.
  cbv zeta.
  exact (proj1 (proj2 (proj2 (proj2 (proj2 (proj2 (proj2
    (content_scenario
       [("beginner", YDict [("title", YStr "T1")]);
        ("intermediate", YDict [("title", YStr "T1")]);
        ("advanced", YDict [("title", YStr "T1")])]
       [("title", YStr "T1")] [("title", YStr "T1")] [("title", YStr "T1")]
       Absent eq_refl eq_refl eq_refl)))))))).
Defined.

(** ** Batches *)

Lemma chunks_fuel_packs {A} (n fuel : nat) (fs : list (list A)) (b : list A) :
  (0 < n)%nat -> Forall (fun c => length c = n) fs -> (length b < n)%nat ->
  (length (concat fs ++ b) <= fuel)%nat ->
  chunks_fuel fuel n (concat fs ++ b)
  = fs ++ match b with [] => [] | _ :: _ => [b] end.
Proof.
  intros Hn Hfs Hb. revert fuel. induction Hfs as [|c fs Hc Hfs IH]; intros fuel Hfuel.
  - simpl in *. destruct b as [|x b'].
    + destruct fuel; reflexivity.
    + destruct fuel as [|f]; [simpl in Hfuel; lia|].
      simpl chunks_fuel. rewrite take_ge, drop_ge by (simpl in *; lia).
      destruct f; reflexivity.
  - simpl concat in *. rewrite <- app_assoc in *.
    destruct c as [|x c']; [simpl in Hc; lia|].
    destruct fuel as [|f]; [simpl in Hfuel; lia|].
    change (chunks_fuel (S f) n ((x :: c') ++ concat fs ++ b))
      with (take n ((x :: c') ++ concat fs ++ b)
            :: chunks_fuel f n (drop n ((x :: c') ++ concat fs ++ b))).
    rewrite <- Hc, take_app_length, drop_app_length.
    rewrite Hc, IH; [reflexivity|].
    rewrite length_app in Hfuel. simpl in Hfuel. lia.
Qed.

Lemma chunks_packs {A} (n : nat) (all : list A) fs b :
  (0 < n)%nat -> packs n all fs b ->
  chunks n all = fs ++ match b with [] => [] | _ :: _ => [b] end.
Proof.
  intros Hn (<- & Hfs & Hb). unfold chunks. apply chunks_fuel_packs; auto.
Qed.

Lemma chunks_short {A} (n : nat) (l : list A) :
  (length l < n)%nat -> chunks n l = match l with [] => [] | _ :: _ => [l] end.
Proof.
  intros H. apply (chunks_packs n l [] l); [lia|].
  split; [reflexivity|]. split; [constructor|exact H].
Qed.

Lemma requests_app evs evs' : requests (evs ++ evs') = requests evs ++ requests evs'.
Proof. apply omap_app. Qed.

Lemma new_events_app {A} (m : M A) w new :
  trace (m w).2 = trace w ++ new -> new_events m w = new.
Proof. intros H. unfold new_events. rewrite H. apply drop_app_length. Qed.

(** The content flow: a pure loop over the table. *)
Lemma content_levels_shaped sid items entries batch w :
  forallb (content_level_shaped items) entries = true ->
  for_fold entries batch (ContentIngestion.ingest_level sid (YDict items)) w
  = (Ok (batch ++ omap (fun entry : string * string =>
            match dict_get entry.1 items with
            | Some (YDict block) => Some (content_row_of sid entry.2 block)
            | _ => None
            end) entries), w).
Proof.
  revert batch. induction entries as [|[yl dl] entries IH]; intros batch Hshape.
  - simpl. rewrite app_nil_r. reflexivity.
  - simpl in Hshape. apply andb_true_iff in Hshape as [Hentry Hrest].
    unfold content_level_shaped in Hentry. simpl in Hentry.
    cbn [for_fold omap list_omap fst snd].
    destruct (dict_get yl items) as [v|] eqn:Hget.
    + destruct v; try discriminate.
      erewrite bind_ok by (apply content_level_block; exact Hget).
      rewrite IH by exact Hrest. rewrite <- app_assoc. reflexivity.
    + erewrite bind_ok by (apply (content_level_absent _ _ _ (yl, dl)); exact Hget).
      apply IH. exact Hrest.
Qed.

Lemma content_rows_short sid items :
  (length (content_rows sid items) <= 3)%nat.
Proof.
  unfold content_rows, ContentIngestion.DIFFICULTY_MAP. simpl.
  repeat match goal with |- context [dict_get ?k items] =>
    destruct (dict_get k items) as [[]|] end; simpl; lia.
Qed.

Lemma content_file_served sid name items w :
  faults w = [] -> content_shaped items = true ->
  ContentIngestion.ingest_file sid name (Loaded (YDict items)) w
  = match content_rows sid items with
    | [] => (Ok tt, w)
    | r :: rows =>
        (Ok tt,
         {| db := with_content (r :: rows) (db w);
            trace := trace w ++ [Exec (UpsertContent (r :: rows)) (db w) true;
                                 Log INFO (InsertedFinalBatch (length (r :: rows)))];
            faults := [] |})
    end.
Proof.
  intros Hfaults Hshape. unfold ContentIngestion.ingest_file. cbn [negb is_dict].
  erewrite bind_ok by (apply content_levels_shaped; exact Hshape).
  cbn [app]. fold (content_rows sid items).
  destruct (content_rows sid items) as [|r rows]; [reflexivity|].
  erewrite bind_ok by (apply content_safe_upsert_served; exact Hfaults).
  unfold logging, emit. cbn [db trace faults]. rewrite <- app_assoc. reflexivity.
Qed.

(** The question flow: the buffer is sent whenever it holds [BATCH_SIZE] rows. *)
Lemma question_item_served sid name dl batch q w :
  faults w = [] -> is_dict q = true ->
  QuestionIngestion.ingest_question sid name dl batch q w
  = match item_row sid dl q with
    | None => (Ok batch, warn (SkippingQuestion name) w)
    | Some row =>
        if (QuestionIngestion.BATCH_SIZE <=? length (batch ++ [row]))%nat
        then (Ok [],
              {| db := with_questions (batch ++ [row]) (db w);
                 trace := trace w
                          ++ [Exec (UpsertQuestions (batch ++ [row])) (db w) true];
                 faults := [] |})
        else (Ok (batch ++ [row]), w)
    end.
Proof.
  intros Hfaults Hq. destruct q as [| | | | |fields]; try discriminate.
  unfold item_row, question_row_of.
  destruct (dict_get "type" fields) as [t|] eqn:Ht; cbn [default from_option id].
  - destruct (truthy t) eqn:Htruthy.
    + rewrite (question_with_type _ _ _ _ _ _ _ Ht Htruthy). cbv zeta.
      match goal with |- context [if ?c then _ else _] => destruct c end;
        [|reflexivity].
      erewrite bind_ok by (apply question_safe_upsert_served; exact Hfaults).
      reflexivity.
    + unfold QuestionIngestion.ingest_question. simpl.
      rewrite bind_lift_ok, Ht, Htruthy. reflexivity.
  - apply question_without_type. exact Ht.
Qed.

Lemma question_items_served sid name dl qs all flushed batch w :
  faults w = [] -> forallb is_dict qs = true ->
  packs QuestionIngestion.BATCH_SIZE all flushed batch ->
  exists flushed' buffer w' new,
    for_fold qs batch (QuestionIngestion.ingest_question sid name dl) w
      = (Ok buffer, w') /\
    faults w' = [] /\
    trace w' = trace w ++ new /\
    requests new = map UpsertQuestions flushed' /\
    packs QuestionIngestion.BATCH_SIZE (all ++ omap (item_row sid dl) qs)
      (flushed ++ flushed') buffer.
Proof.
  revert all flushed batch w.
  induction qs as [|q qs IH]; intros all flushed batch w Hfaults Hqs Hpacks.
  - exists [], batch, w, []. simpl. rewrite !app_nil_r. auto.
  - simpl in Hqs. apply andb_true_iff in Hqs as [Hq Hqs].
    cbn [for_fold omap list_omap].
    pose proof (question_item_served sid name dl batch q w Hfaults Hq) as Hstep.
    destruct Hpacks as (Hall & Hfull & Hlen).
    destruct (item_row sid dl q) as [row|].
    + destruct (QuestionIngestion.BATCH_SIZE <=? length (batch ++ [row]))%nat eqn:Hfullb.
      * apply Nat.leb_le in Hfullb. rewrite length_app in Hfullb. simpl in Hfullb.
        destruct (IH (all ++ [row]) (flushed ++ [batch ++ [row]]) []
                    {| db := with_questions (batch ++ [row]) (db w);
                       trace := trace w
                                ++ [Exec (UpsertQuestions (batch ++ [row])) (db w) true];
                       faults := [] |})
          as (fl' & buf & w' & new & Hrun & Hf' & Htr & Hreq & Hp); auto.
        { split; [|split].
          - rewrite concat_app. simpl. rewrite !app_nil_r, <- Hall, app_assoc.
            reflexivity.
          - apply Forall_app. split; [exact Hfull|]. constructor; [|constructor].
            rewrite length_app. simpl. lia.
          - unfold QuestionIngestion.BATCH_SIZE. simpl. lia. }
        exists ((batch ++ [row]) :: fl'), buf, w',
          (Exec (UpsertQuestions (batch ++ [row])) (db w) true :: new).
        rewrite (bind_ok _ _ _ _ _ Hstep). split; [exact Hrun|].
        split; [exact Hf'|]. split.
        { rewrite Htr. cbn [trace]. rewrite <- app_assoc. reflexivity. }
        split.
        { cbn. f_equal. exact Hreq. }
        rewrite <- !app_assoc in Hp. exact Hp.
      * apply Nat.leb_gt in Hfullb.
        destruct (IH (all ++ [row]) flushed (batch ++ [row]) w)
          as (fl' & buf & w' & new & Hrun & Hf' & Htr & Hreq & Hp); auto.
        { split; [|split]; auto. rewrite app_assoc, Hall. reflexivity. }
        exists fl', buf, w', new.
        rewrite (bind_ok _ _ _ _ _ Hstep). split; [exact Hrun|].
        split; [exact Hf'|]. split; [exact Htr|]. split; [exact Hreq|].
        rewrite <- app_assoc in Hp. exact Hp.
    + destruct (IH all flushed batch (warn (SkippingQuestion name) w))
        as (fl' & buf & w' & new & Hrun & Hf' & Htr & Hreq & Hp); auto.
      { split; [|split]; auto. }
      exists fl', buf, w', (Log WARNING (SkippingQuestion name) :: new).
      rewrite (bind_ok _ _ _ _ _ Hstep). split; [exact Hrun|].
      split; [exact Hf'|]. split.
      { rewrite Htr. cbn [trace warn]. rewrite <- app_assoc. reflexivity. }
      split; [exact Hreq|exact Hp].
Qed.

Lemma question_level_items sid name levels batch entry w :
  question_level_shaped levels entry = true ->
  QuestionIngestion.ingest_level sid name (YDict levels) batch entry w
  = for_fold (level_items levels entry.1) batch
      (QuestionIngestion.ingest_question sid name entry.2) w.
Proof.
  destruct entry as [yl dl]. unfold question_level_shaped, level_items.
  cbn [fst snd]. intros Hshape.
  unfold QuestionIngestion.ingest_level, py_in, py_getitem.
  rewrite bind_lift_ok.
  destruct (dict_get yl levels) as [v|]; [|reflexivity].
  destruct v as [| | | | |block]; try discriminate.
  cbn [negb]. rewrite bind_lift_ok. unfold py_get.
  rewrite bind_lift_ok.
  destruct (dict_get "questions" block) as [v|]; [|reflexivity].
  destruct v as [| | | |qs|]; try discriminate. reflexivity.
Qed.

Lemma question_level_items_dicts levels entry :
  question_level_shaped levels entry = true ->
  forallb is_dict (level_items levels entry.1) = true.
Proof.
  unfold question_level_shaped, level_items.
  destruct (dict_get entry.1 levels) as [v|]; [|reflexivity].
  destruct v as [| | | | |block]; try reflexivity.
  destruct (dict_get "questions" block) as [v|]; [|reflexivity].
  destruct v as [| | | |qs|]; try reflexivity. auto.
Qed.

Lemma question_levels_served sid name levels entries all flushed batch w :
  faults w = [] -> forallb (question_level_shaped levels) entries = true ->
  packs QuestionIngestion.BATCH_SIZE all flushed batch ->
  exists flushed' buffer w' new,
    for_fold entries batch (QuestionIngestion.ingest_level sid name (YDict levels)) w
      = (Ok buffer, w') /\
    faults w' = [] /\
    trace w' = trace w ++ new /\
    requests new = map UpsertQuestions flushed' /\
    packs QuestionIngestion.BATCH_SIZE
      (all ++ concat (map (fun entry : string * string =>
                             omap (item_row sid entry.2) (level_items levels entry.1))
                        entries))
      (flushed ++ flushed') buffer.
Proof.
  revert all flushed batch w.
  induction entries as [|entry entries IH]; intros all flushed batch w Hfaults Hshape Hp.
  - exists [], batch, w, []. simpl. rewrite !app_nil_r. auto.
  - simpl in Hshape. apply andb_true_iff in Hshape as [Hentry Hrest].
    destruct (question_items_served sid name entry.2 (level_items levels entry.1)
                all flushed batch w Hfaults
                (question_level_items_dicts _ _ Hentry) Hp)
      as (fl1 & buf1 & w1 & new1 & Hrun1 & Hf1 & Htr1 & Hreq1 & Hp1).
    destruct (IH _ _ _ _ Hf1 Hrest Hp1)
      as (fl2 & buf2 & w2 & new2 & Hrun2 & Hf2 & Htr2 & Hreq2 & Hp2).
    exists (fl1 ++ fl2), buf2, w2, (new1 ++ new2).
    cbn [for_fold]. erewrite bind_ok
      by (rewrite question_level_items by exact Hentry; exact Hrun1).
    split; [exact Hrun2|]. split; [exact Hf2|]. split.
    { rewrite Htr2, Htr1, app_assoc. reflexivity. }
    split.
    { rewrite requests_app, Hreq1, Hreq2, map_app. reflexivity. }
    cbn [map concat]. rewrite !app_assoc in *. exact Hp2.
Qed.

Lemma question_file_served sid name items levels w :
  faults w = [] -> dict_get "by_level" items = Some (YDict levels) ->
  question_shaped levels = true ->
  (QuestionIngestion.ingest_file sid name (Loaded (YDict items)) w).1 = Ok tt /\
  requests (new_events (QuestionIngestion.ingest_file sid name (Loaded (YDict items))) w)
  = map UpsertQuestions (chunks QuestionIngestion.BATCH_SIZE (question_rows sid levels)).
Proof.
  intros Hfaults Hlevels Hshape.
  destruct (question_levels_served sid name levels QuestionIngestion.DIFFICULTY_MAP
              [] [] [] w Hfaults Hshape)
    as (fl & buf & w1 & new & Hrun & Hf1 & Htr & Hreq & Hp).
  { split; [reflexivity|]. split; [constructor|].
    unfold QuestionIngestion.BATCH_SIZE. simpl. lia. }
  cbn [app] in Hp. fold (question_rows sid levels) in Hp.
  assert (0 < QuestionIngestion.BATCH_SIZE)%nat as Hpos
    by (unfold QuestionIngestion.BATCH_SIZE; lia).
  rewrite (chunks_packs _ _ _ _ Hpos Hp).
  assert (QuestionIngestion.ingest_file sid name (Loaded (YDict items)) w
          = match buf with
            | [] => (Ok tt, w1)
            | _ :: _ =>
                (Ok tt,
                 {| db := with_questions buf (db w1);
                    trace := trace w1
                             ++ [Exec (UpsertQuestions buf) (db w1) true;
                                 Log INFO (InsertedFinalBatch (length buf))];
                    faults := [] |})
            end) as Hfile.
  { unfold QuestionIngestion.ingest_file, py_in, py_getitem.
    rewrite Hlevels. cbn [negb is_dict orb]. rewrite bind_lift_ok.
    rewrite (bind_ok _ _ _ _ _ Hrun).
    destruct buf as [|r rows]; [reflexivity|].
    erewrite bind_ok by (apply question_safe_upsert_served; exact Hf1).
    unfold logging, emit. cbn [db trace faults]. rewrite <- app_assoc. reflexivity. }
  destruct buf as [|r rows].
  - rewrite Hfile. split; [reflexivity|].
    rewrite app_nil_r, <- Hreq. f_equal.
    apply new_events_app. rewrite Hfile. exact Htr.
  - rewrite Hfile. split; [reflexivity|].
    rewrite (new_events_app _ _
               (new ++ [Exec (UpsertQuestions (r :: rows)) (db w1) true;
                        Log INFO (InsertedFinalBatch (length (r :: rows)))])).
    + rewrite requests_app, map_app, Hreq. reflexivity.
    + rewrite Hfile. cbn [snd trace]. rewrite Htr, <- app_assoc. reflexivity.
Qed.

Lemma chunks_fuel_concat {A} (n fuel : nat) (l : list A) :
  (0 < n)%nat -> (length l <= fuel)%nat -> concat (chunks_fuel fuel n l) = l.
Proof.
  intros Hn. revert l. induction fuel as [|f IH]; intros l Hl.
  - destruct l; [reflexivity|simpl in Hl; lia].
  - destruct l as [|x l]; [reflexivity|].
    change (concat (take n (x :: l) :: chunks_fuel f n (drop n (x :: l))) = x :: l).
    cbn [concat]. rewrite IH.
    + apply take_drop.
    + rewrite length_drop. simpl in *. lia.
Qed.

Lemma chunks_fuel_sizes {A} (n fuel : nat) (l : list A) :
  (0 < n)%nat ->
  Forall (fun c => 0 < length c <= n)%nat (chunks_fuel fuel n l).
Proof.
  intros Hn. revert l. induction fuel as [|f IH]; intros l.
  - constructor.
  - destruct l as [|x l]; [constructor|].
    change (Forall (fun c => 0 < length c <= n)%nat
              (take n (x :: l) :: chunks_fuel f n (drop n (x :: l)))).
    constructor; [|apply IH].
    rewrite length_take. simpl. lia.
Qed.

Lemma chunks_fuel_full {A} (n fuel : nat) (l : list A) cs c :
  chunks_fuel fuel n l = cs ++ [c] -> Forall (fun c => length c = n) cs.
Proof.
  revert l cs. induction fuel as [|f IH]; intros l cs H.
  - destruct cs; discriminate.
  - destruct l as [|x l]; [destruct cs; discriminate|].
    change (take n (x :: l) :: chunks_fuel f n (drop n (x :: l)) = cs ++ [c]) in H.
    destruct cs as [|c0 cs]; [constructor|].
    injection H as Hc0 Hrest. constructor; [|eapply IH; exact Hrest].
    subst c0. rewrite length_take.
    destruct (decide (n <= length (x :: l))%nat) as [|Hshort]; [lia|].
    rewrite drop_ge in Hrest by lia.
    destruct f; destruct cs; discriminate.
Qed.

Lemma question_buffer_bounded sid name dl batch q w batch' w' :
  (length batch < QuestionIngestion.BATCH_SIZE)%nat ->
  QuestionIngestion.ingest_question sid name dl batch q w = (Ok batch', w') ->
  (length batch' < QuestionIngestion.BATCH_SIZE)%nat.
Proof.
  intros Hlen. unfold QuestionIngestion.ingest_question, bind at 1, lift.
  destruct (py_get q "type" YNull) as [t|e]; [|discriminate].
  destruct (negb (truthy t)).
  - unfold bind, logging, emit, ret. intros [= <- _]. exact Hlen.
  - match goal with |- context [if ?c then _ else _] => destruct c eqn:Hfull end.
    + unfold bind.
      destruct (QuestionIngestion.safe_upsert _ _ w) as [[r|e] w1]; [|discriminate].
      unfold ret. intros [= <- _]. unfold QuestionIngestion.BATCH_SIZE. simpl. lia.
    + unfold ret. intros [= <- _]. apply Nat.leb_gt in Hfull. exact Hfull.
Qed.

(** C4. With the store serving its requests and files of the documented
    shape, the upsert requests either flow issues for a subtopic are its rows
    cut into batches of [BATCH_SIZE] = 10: a batch is sent as soon as the
    buffer holds 10 rows, the rows left at the end of the subtopic are sent
    as a last batch, and nothing is sent for an empty buffer.  The buffer of
    the question flow stays below 10 rows between items, and the buffer of
    the content flow never holds more than 3. *)
Theorem batches_bounded_and_flushed
    (sid : nat) (name : string) (items qitems levels : list (string * value))
    (w : world)
    (Hfaults : faults w = [])
    (Hcontent : content_shaped items = true)
    (Hlevels : dict_get "by_level" qitems = Some (YDict levels))
    (Hquestions : question_shaped levels = true) :
  let content_run := ContentIngestion.ingest_file sid name (Loaded (YDict items)) in
  let question_run := QuestionIngestion.ingest_file sid name (Loaded (YDict qitems)) in
  ContentIngestion.BATCH_SIZE = 10%nat /\ QuestionIngestion.BATCH_SIZE = 10%nat /\
  (content_run w).1 = Ok tt /\
  requests (new_events content_run w)
    = map UpsertContent (chunks ContentIngestion.BATCH_SIZE (content_rows sid items)) /\
  (length (content_rows sid items) <= 3)%nat /\
  (question_run w).1 = Ok tt /\
  requests (new_events question_run w)
    = map UpsertQuestions
        (chunks QuestionIngestion.BATCH_SIZE (question_rows sid levels)) /\
  (forall dl batch q w0 batch' w1,
      (length batch < QuestionIngestion.BATCH_SIZE)%nat ->
      QuestionIngestion.ingest_question sid name dl batch q w0 = (Ok batch', w1) ->
      (length batch' < QuestionIngestion.BATCH_SIZE)%nat) /\
  (forall (A : Type) (l : list A) (n : nat),
      (0 < n)%nat ->
      concat (chunks n l) = l /\
      Forall (fun c => 0 < length c <= n)%nat (chunks n l) /\
      (forall cs c, chunks n l = cs ++ [c] -> Forall (fun c => length c = n) cs)).
Proof.
  cbv zeta. split; [reflexivity|]. split; [reflexivity|].
  pose proof (content_file_served sid name items w Hfaults Hcontent) as Hc.
  pose proof (content_rows_short sid items) as Hshort.
  split; [rewrite Hc; destruct (content_rows sid items); reflexivity|].
  split.
  { rewrite chunks_short by (unfold ContentIngestion.BATCH_SIZE; lia).
    destruct (content_rows sid items) as [|r rows] eqn:Hrows.
    - unfold new_events. rewrite Hc. cbn [snd]. rewrite drop_all. reflexivity.
    - erewrite new_events_app by (rewrite Hc; reflexivity). reflexivity. }
  split; [exact Hshort|].
  destruct (question_file_served sid name qitems levels w Hfaults Hlevels Hquestions)
    as [Hok Hreq].
  split; [exact Hok|]. split; [exact Hreq|].
  split; [intros; eapply question_buffer_bounded; eassumption|].
  intros A l n Hn. split; [apply chunks_fuel_concat; auto|].
  split; [apply chunks_fuel_sizes; auto|].
  intros cs c. apply chunks_fuel_full.
Qed.

(** Eleven items under one level leave in two batches, one block in one. *)
Lemma batches_bounded_and_flushed_witness :
  map (fun r => length (question_rows_of r))
    (requests (new_events
       (QuestionIngestion.ingest_file 1 "Sub1" (Loaded (YDict eleven_questions)))
       (fresh [])))
  = [10%nat; 1%nat].
Proof.
  rewrite (proj1 (proj2 (proj2 (proj2 (proj2 (proj2 (proj2
    (batches_bounded_and_flushed 1 "Sub1" [("beginner", YDict [("title", YStr "T1")])]
       eleven_questions
       [("beginner",
         YDict [("questions",
           YList (map (fun n => YDict [("type", YStr "mcq"); ("n", YInt n)])
                    [1; 2; 3; 4; 5; 6; 7; 8; 9; 10; 11]))])]
       (fresh []) eq_refl eq_refl eq_refl eq_refl)))))))).
  vm_compute. reflexivity.
Defined.

(** ** Traces and the store *)

Lemma replay_app s evs evs' : replay s (evs ++ evs') = replay (replay s evs) evs'.
Proof. apply fold_left_app. Qed.

Lemma coherent_app s evs evs' :
  coherent s (evs ++ evs') <-> coherent s evs /\ coherent (replay s evs) evs'.
Proof.
  revert s. induction evs as [|e evs IH]; intros s; simpl.
  - tauto.
  - rewrite IH. tauto.
Qed.

Lemma writes_app evs evs' : writes (evs ++ evs') = writes evs ++ writes evs'.
Proof. apply omap_app. Qed.

Lemma covers_refl s : covers s s.
Proof. split; reflexivity. Qed.

Lemma covers_trans s1 s2 s3 : covers s1 s2 -> covers s2 s3 -> covers s1 s3.
Proof. intros [H1 H2] [H3 H4]. split; etrans; eauto. Qed.

Lemma covers_with_topic name s : covers s (with_topic name s).
Proof.
  unfold with_topic. destruct (topics s !! name) eqn:H; [apply covers_refl|].
  split; simpl; [|reflexivity]. apply insert_subseteq. exact H.
Qed.

Lemma covers_with_subtopic tid name s : covers s (with_subtopic tid name s).
Proof.
  unfold with_subtopic. destruct (subtopics s !! (tid, name)) eqn:H;
    [apply covers_refl|].
  split; simpl; [reflexivity|]. apply insert_subseteq. exact H.
Qed.

Lemma serve_select_topic name s : (serve (SelectTopic name) s).2 = s.
Proof. simpl. destruct (topics s !! name); reflexivity. Qed.

Lemma serve_select_subtopic tid name s : (serve (SelectSubtopic tid name) s).2 = s.
Proof. simpl. destruct (subtopics s !! (tid, name)); reflexivity. Qed.

Lemma covers_serve r s : covers s (serve r s).2.
Proof.
  destruct r.
  - apply covers_with_topic.
  - rewrite serve_select_topic. apply covers_refl.
  - apply covers_with_subtopic.
  - rewrite serve_select_subtopic. apply covers_refl.
  - split; reflexivity.
  - split; reflexivity.
Qed.

Lemma covers_replay s evs : covers s (replay s evs).
Proof.
  revert s. induction evs as [|e evs IH]; intros s; simpl.
  - apply covers_refl.
  - eapply covers_trans; [|apply IH].
    destruct e as [| |r b [|]]; simpl; try apply covers_refl. apply covers_serve.
Qed.

Lemma covers_same_hierarchy s s' s'' :
  covers s s' -> same_hierarchy s'' s' -> covers s s''.
Proof. intros [H1 H2] (E1 & E2 & _). unfold covers. rewrite E1, E2. auto. Qed.

Lemma same_hierarchy_refl s : same_hierarchy s s.
Proof. repeat split. Qed.

Lemma same_hierarchy_trans s1 s2 s3 :
  same_hierarchy s1 s2 -> same_hierarchy s2 s3 -> same_hierarchy s1 s3.
Proof.
  intros (A1 & A2 & A3 & A4) (B1 & B2 & B3 & B4).
  repeat split; congruence.
Qed.

(** ** [good] computations *)

Lemma good_pure {A} (m : M A) :
  (forall w, (m w).2 = w) -> (forall w w', (m w).1 = (m w').1) -> good m.
Proof.
  intros Hw Hr. split.
  - intros w Hf. rewrite Hw. split; [exact Hf|].
    exists []. rewrite app_nil_r. simpl. auto.
  - intros w1 w2 _ _ _. rewrite !Hw. split; [apply Hr|].
    split; [apply same_hierarchy_refl|].
    exists [], []. rewrite !app_nil_r. auto.
Qed.

Lemma good_ret {A} (a : A) : good (ret a).
Proof. apply good_pure; reflexivity. Qed.

Lemma good_raise {A} e : good (@raise A e).
Proof. apply good_pure; reflexivity. Qed.

Lemma good_lift {A} (r : result A) : good (lift r).
Proof. apply good_pure; reflexivity. Qed.

Lemma good_emit e :
  match e with Exec _ _ _ => False | _ => True end -> good (emit e).
Proof.
  intros He. split.
  - intros w Hf. split; [exact Hf|]. exists [e]. simpl.
    destruct e; try contradiction; auto.
  - intros w1 w2 _ _ _. split; [reflexivity|].
    split; [apply same_hierarchy_refl|].
    exists [e], [e]. simpl. repeat split; auto.
    constructor; [|constructor]. destruct e; try contradiction; exact I.
Qed.

Lemma good_logging lvl msg : good (logging lvl msg).
Proof. apply good_emit. exact I. Qed.

Lemma good_sleep n : good (sleep n).
Proof. apply good_emit. exact I. Qed.

Lemma good_bind {A B} (m : M A) (k : A -> M B) :
  good m -> (forall a, good (k a)) -> good (bind m k).
Proof.
  intros [Hcm Hrm] Hk. split.
  - intros w Hf. destruct (Hcm w Hf) as (Hf1 & new1 & Ht1 & Hc1 & Hd1).
    unfold bind. destruct (m w) as [[a|e] w1] eqn:Hmw; simpl in *.
    + destruct (Hk a) as [Hck _].
      destruct (Hck w1 Hf1) as (Hf2 & new2 & Ht2 & Hc2 & Hd2).
      split; [exact Hf2|]. exists (new1 ++ new2).
      rewrite Ht2, Ht1, app_assoc. split; [reflexivity|].
      rewrite coherent_app, replay_app, <- Hd1. auto.
    + split; [exact Hf1|]. exists new1. auto.
  - intros w1 w2 Hf1 Hf2 Hcov.
    destruct (Hcm w1 Hf1) as (Hf1' & n1 & Ht1 & Hc1 & Hd1).
    destruct (Hcm w2 Hf2) as (Hf2' & n2 & Ht2 & Hc2 & Hd2).
    unfold bind in *. destruct (m w1) as [[a|e] w1'] eqn:Hm1; simpl in *.
    + destruct (Hk a) as [Hck Hrk].
      destruct (Hck w1' Hf1') as (_ & nk & _ & _ & Hdk).
      assert (covers (db w1') (db w2)) as Hcov1.
      { eapply covers_trans; [|exact Hcov]. rewrite Hdk. apply covers_replay. }
      specialize (Hrm w1 w2 Hf1 Hf2). rewrite Hm1 in Hrm. simpl in Hrm.
      destruct (Hrm Hcov1) as (Hres & Hsame & m1 & m2 & Hm1t & Hm2t & Hw & Hq).
      destruct (m w2) as [[a'|e'] w2'] eqn:Hm2; simpl in *; [|discriminate].
      injection Hres as ->.
      destruct (Hrk w1' w2' Hf1' Hf2') as (Hres' & Hsame' & k1 & k2 & Hk1 & Hk2 & Hw' & Hq').
      { eapply covers_same_hierarchy; eauto. }
      split; [exact Hres'|].
      split; [eapply same_hierarchy_trans; eauto|].
      exists (m1 ++ k1), (m2 ++ k2).
      rewrite Hk1, Hk2, Hm1t, Hm2t, !app_assoc, !writes_app, Hw, Hw'.
      repeat split; auto. apply Forall_app; auto.
    + specialize (Hrm w1 w2 Hf1 Hf2). rewrite Hm1 in Hrm. simpl in Hrm.
      destruct (Hrm Hcov) as (Hres & Hsame & m1 & m2 & Hm1t & Hm2t & Hw & Hq).
      destruct (m w2) as [[a'|e'] w2'] eqn:Hm2; simpl in *; [discriminate|].
      injection Hres as ->.
      split; [reflexivity|]. split; [exact Hsame|].
      exists m1, m2. auto.
Qed.

Lemma good_try {A} (m : M A) (h : exn -> M A) :
  good m -> (forall e, good (h e)) -> good (try_except m h).
Proof.
  intros [Hcm Hrm] Hh. split.
  - intros w Hf. destruct (Hcm w Hf) as (Hf1 & new1 & Ht1 & Hc1 & Hd1).
    unfold try_except. destruct (m w) as [[a|e] w1] eqn:Hmw; simpl in *.
    + split; [exact Hf1|]. exists new1. auto.
    + destruct (Hh e) as [Hch _].
      destruct (Hch w1 Hf1) as (Hf2 & new2 & Ht2 & Hc2 & Hd2).
      split; [exact Hf2|]. exists (new1 ++ new2).
      rewrite Ht2, Ht1, app_assoc. split; [reflexivity|].
      rewrite coherent_app, replay_app, <- Hd1. auto.
  - intros w1 w2 Hf1 Hf2 Hcov.
    destruct (Hcm w1 Hf1) as (Hf1' & n1 & Ht1 & Hc1 & Hd1).
    destruct (Hcm w2 Hf2) as (Hf2' & n2 & Ht2 & Hc2 & Hd2).
    unfold try_except in *. destruct (m w1) as [[a|e] w1'] eqn:Hm1; simpl in *.
    + specialize (Hrm w1 w2 Hf1 Hf2). rewrite Hm1 in Hrm. simpl in Hrm.
      destruct (Hrm Hcov) as (Hres & Hsame & m1 & m2 & Hm1t & Hm2t & Hw & Hq).
      destruct (m w2) as [[a'|e'] w2'] eqn:Hm2; simpl in *; [|discriminate].
      injection Hres as ->.
      split; [reflexivity|]. split; [exact Hsame|].
      exists m1, m2. auto.
    + destruct (Hh e) as [Hch Hrh].
      destruct (Hch w1' Hf1') as (_ & nk & _ & _ & Hdk).
      assert (covers (db w1') (db w2)) as Hcov1.
      { eapply covers_trans; [|exact Hcov]. rewrite Hdk. apply covers_replay. }
      specialize (Hrm w1 w2 Hf1 Hf2). rewrite Hm1 in Hrm. simpl in Hrm.
      destruct (Hrm Hcov1) as (Hres & Hsame & m1 & m2 & Hm1t & Hm2t & Hw & Hq).
      destruct (m w2) as [[a'|e'] w2'] eqn:Hm2; simpl in *; [discriminate|].
      injection Hres as ->.
      destruct (Hrh w1' w2' Hf1' Hf2') as (Hres' & Hsame' & k1 & k2 & Hk1 & Hk2 & Hw' & Hq').
      { eapply covers_same_hierarchy; eauto. }
      split; [exact Hres'|].
      split; [eapply same_hierarchy_trans; eauto|].
      exists (m1 ++ k1), (m2 ++ k2).
      rewrite Hk1, Hk2, Hm1t, Hm2t, !app_assoc, !writes_app, Hw, Hw'.
      repeat split; auto. apply Forall_app; auto.
Qed.

Lemma good_for_each {A} (xs : list A) body :
  (forall x, good (body x)) -> good (for_each xs body).
Proof.
  intros Hb. induction xs as [|x xs IH]; simpl.
  - apply good_ret.
  - apply good_bind; auto.
Qed.

Lemma good_for_fold {A S} (xs : list A) (acc : S) body :
  (forall acc x, good (body acc x)) -> good (for_fold xs acc body).
Proof.
  intros Hb. revert acc. induction xs as [|x xs IH]; intros acc; simpl.
  - apply good_ret.
  - apply good_bind; auto.
Qed.

Lemma good_retry {A} tries delay (f : M A) : good f -> good (retry tries delay f).
Proof.
  intros Hf. induction tries as [|tries IH]; simpl.
  - apply good_ret.
  - apply good_try.
    + apply good_bind; [exact Hf|]. intros. apply good_ret.
    + intros e. destruct tries; [apply good_raise|].
      apply good_bind; [apply good_logging|]. intros _.
      apply good_bind; [apply good_sleep|]. intros _. exact IH.
Qed.

Lemma good_then_run {A B} (m1 : M A) (m2 : M B) :
  good m1 -> good m2 -> good (then_run m1 m2).
Proof.
  intros [Hc1 Hr1] [Hc2 Hr2]. split.
  - intros w Hf. destruct (Hc1 w Hf) as (Hf1 & new1 & Ht1 & Hco1 & Hd1).
    destruct (Hc2 _ Hf1) as (Hf2 & new2 & Ht2 & Hco2 & Hd2).
    unfold then_run. split; [exact Hf2|]. exists (new1 ++ new2).
    rewrite Ht2, Ht1, app_assoc. split; [reflexivity|].
    rewrite coherent_app, replay_app, <- Hd1. auto.
  - intros w1 w2 Hf1 Hf2 Hcov. unfold then_run in *.
    destruct (Hc1 w1 Hf1) as (Hf1' & n1 & Ht1 & Hco1 & Hd1).
    destruct (Hc1 w2 Hf2) as (Hf2' & n2 & Ht2 & Hco2 & Hd2).
    destruct (Hc2 _ Hf1') as (_ & nk & _ & _ & Hdk).
    assert (covers (db (m1 w1).2) (db w2)) as Hcov1.
    { eapply covers_trans; [|exact Hcov]. rewrite Hdk. apply covers_replay. }
    destruct (Hr1 w1 w2 Hf1 Hf2 Hcov1) as (_ & Hsame & a1 & a2 & Ha1 & Ha2 & Hw & Hq).
    destruct (Hr2 (m1 w1).2 (m1 w2).2 Hf1' Hf2')
      as (Hres' & Hsame' & k1 & k2 & Hk1 & Hk2 & Hw' & Hq').
    { eapply covers_same_hierarchy; eauto. }
    split; [exact Hres'|].
    split; [eapply same_hierarchy_trans; eauto|].
    exists (a1 ++ k1), (a2 ++ k2).
    rewrite Hk1, Hk2, Ha1, Ha2, !app_assoc, !writes_app, Hw, Hw'.
    repeat split; auto. apply Forall_app; auto.
Qed.

Lemma good_execute_write r :
  is_row_write r = true -> good (execute r).
Proof.
  intros Hr. split.
  - intros w Hf. rewrite execute_served by exact Hf. simpl.
    split; [reflexivity|]. exists [Exec r (db w) true]. simpl. auto.
  - intros w1 w2 Hf1 Hf2 _. rewrite !execute_served by assumption. simpl.
    destruct r; try discriminate; simpl.
    + split; [reflexivity|]. split; [repeat split|].
      eexists [_], [_]. simpl. repeat split; auto.
      constructor; [exact I|constructor].
    + split; [reflexivity|]. split; [repeat split|].
      eexists [_], [_]. simpl. repeat split; auto.
      constructor; [exact I|constructor].
Qed.

Lemma with_topic_present name id s :
  topics s !! name = Some id -> with_topic name s = s.
Proof. unfold with_topic. intros ->. reflexivity. Qed.

Lemma with_subtopic_present tid name id s :
  subtopics s !! (tid, name) = Some id -> with_subtopic tid name s = s.
Proof. unfold with_subtopic. intros ->. reflexivity. Qed.

Lemma good_get_or_create_topic name : good (get_or_create_topic name).
Proof.
  split.
  - intros w Hf. rewrite get_or_create_topic_served by exact Hf. simpl.
    split; [reflexivity|]. eexists [_; _]. split; [reflexivity|].
    simpl. rewrite topic_after_upsert. simpl. auto.
  - intros w1 w2 Hf1 Hf2 Hcov.
    rewrite (get_or_create_topic_served name w1 Hf1) in Hcov |- *.
    rewrite (get_or_create_topic_served name w2 Hf2).
    destruct Hcov as [Hcov _]. simpl in *.
    pose proof (topic_after_upsert name (db w1)) as Hid.
    eapply lookup_weaken in Hid; [|exact Hcov].
    rewrite Hid. simpl.
    rewrite (with_topic_present _ _ _ Hid).
    split; [reflexivity|]. split; [apply same_hierarchy_refl|].
    eexists [_; _], [_; _]. split; [reflexivity|]. split; [reflexivity|].
    split; [reflexivity|].
    constructor; [|constructor; [|constructor]]; simpl.
    + apply (with_topic_present _ _ _ Hid).
    + rewrite Hid. reflexivity.
Qed.

Lemma good_get_or_create_subtopic tid name : good (get_or_create_subtopic tid name).
Proof.
  split.
  - intros w Hf. rewrite get_or_create_subtopic_served by exact Hf. simpl.
    split; [reflexivity|]. eexists [_; _]. split; [reflexivity|].
    simpl. rewrite subtopic_after_upsert. simpl. auto.
  - intros w1 w2 Hf1 Hf2 Hcov.
    rewrite (get_or_create_subtopic_served tid name w1 Hf1) in Hcov |- *.
    rewrite (get_or_create_subtopic_served tid name w2 Hf2).
    destruct Hcov as [_ Hcov]. simpl in *.
    pose proof (subtopic_after_upsert tid name (db w1)) as Hid.
    eapply lookup_weaken in Hid; [|exact Hcov].
    rewrite Hid. simpl.
    rewrite (with_subtopic_present _ _ _ _ Hid).
    split; [reflexivity|]. split; [apply same_hierarchy_refl|].
    eexists [_; _], [_; _]. split; [reflexivity|]. split; [reflexivity|].
    split; [reflexivity|].
    constructor; [|constructor; [|constructor]]; simpl.
    + apply (with_subtopic_present _ _ _ _ Hid).
    + rewrite Hid. reflexivity.
Qed.

Lemma good_content_safe_upsert table rows :
  good (ContentIngestion.safe_upsert table rows).
Proof.
  apply good_retry. apply good_try.
  - apply good_execute_write. reflexivity.
  - intros e. apply good_bind; [apply good_logging|]. intros _. apply good_raise.
Qed.

Lemma good_question_safe_upsert table rows :
  good (QuestionIngestion.safe_upsert table rows).
Proof.
  apply good_retry. apply good_try.
  - apply good_execute_write. reflexivity.
  - intros e. apply good_bind; [apply good_logging|]. intros _. apply good_raise.
Qed.

Lemma good_content_file sid name file :
  good (ContentIngestion.ingest_file sid name file).
Proof.
  unfold ContentIngestion.ingest_file. destruct file as [| |data].
  - apply good_logging.
  - apply good_raise.
  - destruct (negb (is_dict data)); [apply good_logging|].
    apply good_bind.
    + apply good_for_fold. intros batch [yl dl].
      unfold ContentIngestion.ingest_level.
      apply good_bind; [apply good_lift|]. intros present.
      destruct (negb present); [apply good_ret|].
      apply good_bind; [apply good_lift|]. intros block.
      apply good_bind; [apply good_lift|]. intros title.
      apply good_bind; [apply good_lift|]. intros summary.
      apply good_ret.
    + intros [|r rows]; [apply good_ret|].
      apply good_bind; [apply good_content_safe_upsert|]. intros _.
      apply good_logging.
Qed.

Lemma good_question_file sid name file :
  good (QuestionIngestion.ingest_file sid name file).
Proof.
  unfold QuestionIngestion.ingest_file. destruct file as [| |data];
    try apply good_logging.
  match goal with |- context [if ?c then _ else _] => destruct c end;
    [apply good_logging|].
  apply good_bind; [apply good_lift|]. intros levels.
  apply good_bind.
  - apply good_for_fold. intros batch [yl dl].
    unfold QuestionIngestion.ingest_level.
    apply good_bind; [apply good_lift|]. intros present.
    destruct (negb present); [apply good_ret|].
    apply good_bind; [apply good_lift|]. intros block.
    apply good_bind; [apply good_lift|]. intros questions.
    apply good_bind; [apply good_lift|]. intros qs.
    apply good_for_fold. intros batch' q.
    unfold QuestionIngestion.ingest_question.
    apply good_bind; [apply good_lift|]. intros t.
    destruct (negb (truthy t)).
    + apply good_bind; [apply good_logging|]. intros _. apply good_ret.
    + match goal with |- context [if ?c then _ else _] => destruct c end;
        [|apply good_ret].
      apply good_bind; [apply good_question_safe_upsert|]. intros _.
      apply good_ret.
  - intros [|r rows]; [apply good_ret|].
    apply good_bind; [apply good_question_safe_upsert|]. intros _.
    apply good_logging.
Qed.

Lemma good_traverse select ingest_file root :
  (forall sid name file, good (ingest_file sid name file)) ->
  good (traverse select ingest_file root).
Proof.
  intros Hfile. unfold traverse, topic_step, subtopic_step.
  apply good_bind; [|intros _; apply good_logging].
  apply good_for_each. intros t.
  apply good_bind; [apply good_get_or_create_topic|]. intros tid.
  apply good_bind; [apply good_logging|]. intros _.
  apply good_for_each. intros s.
  apply good_bind; [apply good_get_or_create_subtopic|]. intros sid.
  apply good_bind; [apply good_logging|]. intros _.
  apply Hfile.
Qed.

Lemma good_content_ingest root : good (ContentIngestion.ingest root).
Proof.
  rewrite content_ingest_traverse. apply good_traverse. apply good_content_file.
Qed.

Lemma good_question_ingest root : good (QuestionIngestion.ingest root).
Proof.
  rewrite question_ingest_traverse. apply good_traverse. apply good_question_file.
Qed.

(** ** Upserts under a conflict key *)

Section Upsert.
Context {K R : Type} `{Countable K} (key : R -> K).

Lemma upsert_rows_cons r rows (t : gmap K R) :
  upsert_rows key (r :: rows) t = upsert_rows key rows (<[key r := r]> t).
Proof. reflexivity. Qed.

Lemma upsert_rows_app rows rows' (t : gmap K R) :
  upsert_rows key (rows ++ rows') t = upsert_rows key rows' (upsert_rows key rows t).
Proof. apply fold_left_app. Qed.

Lemma upsert_lookup rows (t : gmap K R) k :
  upsert_rows key rows t !! k
  = match last_row key k rows with Some r => Some r | None => t !! k end.
Proof.
  revert t. induction rows as [|r rows IH]; intros t.
  - reflexivity.
  - rewrite upsert_rows_cons, IH. simpl.
    destruct (last_row key k rows); [reflexivity|].
    destruct (decide (key r = k)) as [->|Hne].
    + apply lookup_insert_eq.
    + apply lookup_insert_ne. exact Hne.
Qed.

Lemma upsert_twice rows (t : gmap K R) :
  upsert_rows key rows (upsert_rows key rows t) = upsert_rows key rows t.
Proof.
  apply map_eq. intros k. rewrite !upsert_lookup.
  destruct (last_row key k rows); reflexivity.
Qed.

Lemma last_row_key k rows r : last_row key k rows = Some r -> key r = k /\ r ∈ rows.
Proof.
  induction rows as [|r0 rows IH]; simpl; [discriminate|].
  destruct (last_row key k rows) as [r'|].
  - intros [= <-]. destruct (IH eq_refl). split; [assumption|]. right. assumption.
  - destruct (decide (key r0 = k)); [|discriminate].
    intros [= <-]. split; [assumption|left].
Qed.

Lemma last_row_nodup rows r :
  NoDup (map key rows) -> r ∈ rows -> last_row key (key r) rows = Some r.
Proof.
  induction rows as [|r0 rows IH]; intros Hnd Hin.
  - apply elem_of_nil in Hin. destruct Hin.
  - simpl in Hnd. apply NoDup_cons in Hnd as [Hfresh Hnd]. simpl.
    apply elem_of_cons in Hin as [->|Hin].
    + destruct (last_row key (key r0) rows) as [r'|] eqn:Hl.
      * apply last_row_key in Hl as [Hk Hr']. exfalso. apply Hfresh.
        rewrite <- Hk. apply (list_elem_of_fmap_2 key). exact Hr'.
      * rewrite decide_True by reflexivity. reflexivity.
    + rewrite (IH Hnd Hin). reflexivity.
Qed.

Lemma upsert_stored batch (t : gmap K R) :
  (forall r, r ∈ batch -> t !! key r = Some r) -> upsert_rows key batch t = t.
Proof.
  induction batch as [|r batch IH]; intros Hin; [reflexivity|].
  rewrite upsert_rows_cons, insert_id by (apply Hin; left).
  apply IH. intros r' Hr'. apply Hin. right. exact Hr'.
Qed.

Lemma upsert_nodup_stored rows (t : gmap K R) r :
  NoDup (map key rows) -> r ∈ rows -> upsert_rows key rows t !! key r = Some r.
Proof.
  intros Hnd Hin. rewrite upsert_lookup, (last_row_nodup _ _ Hnd Hin). reflexivity.
Qed.

End Upsert.

Lemma upsert_content_app rows rows' t :
  upsert_content (rows ++ rows') t = upsert_content rows' (upsert_content rows t).
Proof. apply upsert_rows_app. Qed.

Lemma upsert_questions_app rows rows' t :
  upsert_questions (rows ++ rows') t = upsert_questions rows' (upsert_questions rows t).
Proof. apply upsert_rows_app. Qed.

Lemma replay_step_content s e :
  content (replay_step s e)
  = upsert_content (from_option content_rows_of [] (written e)) (content s).
Proof.
  destruct e as [| |r b [|]]; try reflexivity.
  destruct r; simpl; try reflexivity.
  - unfold with_topic. destruct (topics s !! topic_name); reflexivity.
  - destruct (topics s !! topic_name); reflexivity.
  - unfold with_subtopic. destruct (subtopics s !! (topic_id, subtopic_name));
      reflexivity.
  - destruct (subtopics s !! (topic_id, subtopic_name)); reflexivity.
Qed.

Lemma replay_step_questions s e :
  questions (replay_step s e)
  = upsert_questions (from_option question_rows_of [] (written e)) (questions s).
Proof.
  destruct e as [| |r b [|]]; try reflexivity.
  destruct r; simpl; try reflexivity.
  - unfold with_topic. destruct (topics s !! topic_name); reflexivity.
  - destruct (topics s !! topic_name); reflexivity.
  - unfold with_subtopic. destruct (subtopics s !! (topic_id, subtopic_name));
      reflexivity.
  - destruct (subtopics s !! (topic_id, subtopic_name)); reflexivity.
Qed.

Lemma replay_content s evs :
  content (replay s evs) = upsert_content (content_written evs) (content s).
Proof.
  revert s. induction evs as [|e evs IH]; intros s; [reflexivity|].
  change (replay s (e :: evs)) with (replay (replay_step s e) evs).
  rewrite IH, replay_step_content. unfold content_written, writes.
  cbn [omap list_omap]. destruct (written e) as [r|]; simpl.
  - rewrite upsert_content_app. reflexivity.
  - reflexivity.
Qed.

Lemma replay_questions s evs :
  questions (replay s evs) = upsert_questions (questions_written evs) (questions s).
Proof.
  revert s. induction evs as [|e evs IH]; intros s; [reflexivity|].
  change (replay s (e :: evs)) with (replay (replay_step s e) evs).
  rewrite IH, replay_step_questions. unfold questions_written, writes.
  cbn [omap list_omap]. destruct (written e) as [r|]; simpl.
  - rewrite upsert_questions_app. reflexivity.
  - reflexivity.
Qed.

Lemma written_row_write e r : written e = Some r -> is_row_write r = true.
Proof.
  destruct e as [| |r0 b [|]]; try discriminate. simpl.
  destruct (is_row_write r0) eqn:Hr; [|discriminate]. intros [= <-]. exact Hr.
Qed.

(** Requests that find their rows stored leave the store alone. *)
Lemma settled_quiet evs s :
  coherent s evs -> Forall hierarchy_quiet evs ->
  (forall r, r ∈ writes evs -> (serve r s).2 = s) ->
  Forall quiet evs.
Proof.
  induction evs as [|e evs IH]; intros Hco Hq Hstored; [constructor|].
  simpl in Hco. destruct Hco as [Hbefore Hco].
  apply Forall_cons in Hq as [Hqe Hq].
  assert (replay_step s e = s /\ quiet e) as [Hstep Hquiet].
  { destruct e as [| |r b [|]]; simpl in Hbefore, Hqe |- *; auto. subst b.
    destruct (is_row_write r) eqn:Hr.
    - assert ((serve r s).2 = s) as Hs.
      { apply Hstored. unfold writes. cbn [omap list_omap written].
        rewrite Hr. left. }
      auto.
    - auto. }
  constructor; [exact Hquiet|].
  rewrite Hstep in Hco. apply IH; auto.
  intros r Hin. apply Hstored. unfold writes in *. cbn [omap list_omap].
  destruct (written e); [right|]; exact Hin.
Qed.

Lemma elem_of_concat {A} (x : A) (l : list A) (ls : list (list A)) :
  x ∈ l -> l ∈ ls -> x ∈ concat ls.
Proof.
  intros Hx Hl. induction ls as [|l0 ls IH].
  - apply elem_of_nil in Hl. destruct Hl.
  - simpl. apply elem_of_app. apply elem_of_cons in Hl as [<-|Hl]; auto.
Qed.

Lemma store_eta s :
  {| topics := topics s; subtopics := subtopics s; content := content s;
     questions := questions s; next_topic_id := next_topic_id s;
     next_subtopic_id := next_subtopic_id s |} = s.
Proof. destruct s. reflexivity. Qed.

Lemma good_idempotent {A} (m : M A) w :
  good m -> faults w = [] -> idempotent_at m w.
Proof.
  intros [Hcalm Hrerun] Hf. unfold idempotent_at. cbv zeta.
  destruct (Hcalm w Hf) as (Hf1 & new1 & Ht1 & Hco1 & Hd1).
  destruct (Hcalm _ Hf1) as (Hf2 & new2 & Ht2 & Hco2 & Hd2).
  destruct (Hrerun w (m w).2 Hf Hf1 (covers_refl _))
    as (Hres & Hsame & n1 & n2 & Hn1 & Hn2 & Hw & Hq).
  assert (n1 = new1) as -> by (rewrite Hn1 in Ht1; eapply app_inv_head; exact Ht1).
  assert (n2 = new2) as -> by (rewrite Hn2 in Ht2; eapply app_inv_head; exact Ht2).
  rewrite (new_events_app _ _ _ Ht1), (new_events_app _ _ _ Ht2).
  assert (content (db (m (m w).2).2) = content (db (m w).2)) as Hcontent.
  { rewrite Hd2, replay_content. unfold content_written. rewrite Hw.
    fold (content_written new1). rewrite Hd1, replay_content.
    apply (upsert_twice content_key). }
  assert (questions (db (m (m w).2).2) = questions (db (m w).2)) as Hquestions.
  { rewrite Hd2, replay_questions. unfold questions_written. rewrite Hw.
    fold (questions_written new1). rewrite Hd1, replay_questions.
    apply (upsert_twice q_question_hash). }
  split; [exact Hres|]. split.
  { destruct Hsame as (E1 & E2 & _). repeat split; assumption. }
  split; [exact Hw|].
  intros Hndc Hndq. apply (settled_quiet new2 (db (m w).2)); auto.
  intros r Hr. rewrite Hw in Hr.
  assert (is_row_write r = true) as Hrow.
  { apply list_elem_of_omap in Hr as (e & _ & He).
    eapply written_row_write; eauto. }
  destruct r as [| | | |rows|rows]; try discriminate; simpl.
  - unfold with_content, upsert_content.
    rewrite (upsert_stored content_key); [apply store_eta|].
    intros row Hrow'. rewrite Hd1, replay_content. unfold upsert_content.
    apply (upsert_nodup_stored content_key); [exact Hndc|].
    unfold content_written. apply (elem_of_concat _ rows); [exact Hrow'|].
    apply (list_elem_of_fmap_2 content_rows_of _ _ Hr).
  - unfold with_questions, upsert_questions.
    rewrite (upsert_stored q_question_hash); [apply store_eta|].
    intros row Hrow'. rewrite Hd1, replay_questions. unfold upsert_questions.
    apply (upsert_nodup_stored q_question_hash); [exact Hndq|].
    unfold questions_written. apply (elem_of_concat _ rows); [exact Hrow'|].
    apply (list_elem_of_fmap_2 question_rows_of _ _ Hr).
Qed.
(** C1, as the code has it.  With the store serving its requests, a second
    run over the unchanged corpus (of the content script, of the question
    script, of one after the other) returns or raises as the first did,
    leaves the four tables, rows and hashes, exactly as the first run left
    them, and sends the same batches of rows; and when no two rows written by
    the first run share a conflict key, every request of the second run
    leaves the store as it finds it. *)
Theorem rerun_idempotent (root : list topic_folder) (w : world)
    (Hfaults : faults w = []) :
  idempotent_at (ContentIngestion.ingest root) w /\
  idempotent_at (QuestionIngestion.ingest root) w /\
  idempotent_at
    (then_run (ContentIngestion.ingest root) (QuestionIngestion.ingest root)) w.
Proof.
  split; [|split]; apply good_idempotent; try exact Hfaults.
  - apply good_content_ingest.
  - apply good_question_ingest.
  - apply good_then_run; [apply good_content_ingest|apply good_question_ingest].
Qed.

Lemma rerun_idempotent_witness :
  idempotent_at
    (then_run (ContentIngestion.ingest two_subtopics)
       (QuestionIngestion.ingest two_subtopics)) (fresh []).
Proof.
  exact (proj2 (proj2 (rerun_idempotent two_subtopics (fresh []) eq_refl))).
Defined.

(** The claim fails on the code where two subtopics hold the same question
    item: both rows are keyed by the item's hash, so the second run, which
    ends with the tables of the first, starts by overwriting the row the
    first run ended with. *)
Lemma second_run_rewrites_shared_question :
  let run := QuestionIngestion.ingest shared_question in
  let first := run (fresh []) in
  let second := run first.2 in
  first.1 = Ok tt /\ second.1 = Ok tt /\
  same_rows (db second.2) (db first.2) /\
  ~ Forall quiet (new_events run first.2).
Proof.
  cbv zeta. split; [vm_compute; reflexivity|]. split; [vm_compute; reflexivity|].
  split; [repeat split; vm_compute; reflexivity|].
  set (evs := new_events _ _).
  destruct (evs !! 6%nat) as [e|] eqn:He; [|vm_compute in He; discriminate].
  intros Hall. pose proof (Forall_lookup_1 _ _ _ _ Hall He) as Hq.
  vm_compute in He. injection He as <-.
  unfold quiet in Hq.
  apply (f_equal (fun s =>
    q_subtopic_id <$> questions s
      !! hash_content (YDict [("type", YStr "mcq"); ("q", YStr "Q1")]))) in Hq.
  vm_compute in Hq. discriminate.
Qed.

(** ** Topic and subtopic identities *)

(** X1. With the store serving its requests, [get_or_create_topic] returns
    the identifier stored under the name once it is done; a topic that
    existed keeps its identifier, a new one takes the store's next; every
    other topic and the three other tables are left as they were; and a
    second call returns the same identifier without changing the store. *)
Theorem topic_identity_settles (name : string) (w : world)
    (Hfaults : faults w = []) :
  let first := get_or_create_topic name w in
  let second := get_or_create_topic name first.2 in
  exists id,
    first.1 = Ok id /\
    topics (db first.2) !! name = Some id /\
    id = default (next_topic_id (db w)) (topics (db w) !! name) /\
    (forall other, other <> name ->
       topics (db first.2) !! other = topics (db w) !! other) /\
    subtopics (db first.2) = subtopics (db w) /\
    content (db first.2) = content (db w) /\
    questions (db first.2) = questions (db w) /\
    second.1 = Ok id /\
    db second.2 = db first.2.
Proof.
  cbv zeta. rewrite (get_or_create_topic_served name w Hfaults).
  rewrite get_or_create_topic_served by reflexivity. cbn [fst snd db].
  exists (default (next_topic_id (db w)) (topics (db w) !! name)).
  pose proof (topic_after_upsert name (db w)) as Hid.
  split; [reflexivity|]. split; [exact Hid|]. split; [reflexivity|].
  split.
  { intros other Hne. unfold with_topic.
    destruct (topics (db w) !! name); [reflexivity|]. simpl.
    apply lookup_insert_ne. congruence. }
  split; [unfold with_topic; destruct (topics (db w) !! name); reflexivity|].
  split; [unfold with_topic; destruct (topics (db w) !! name); reflexivity|].
  split; [unfold with_topic; destruct (topics (db w) !! name); reflexivity|].
  rewrite Hid. split; [reflexivity|].
  apply (with_topic_present _ _ _ Hid).
Qed.

Lemma topic_identity_settles_witness :
  exists id,
    (get_or_create_topic "TopicA" (fresh [])).1 = Ok id /\
    (get_or_create_topic "TopicA" (get_or_create_topic "TopicA" (fresh [])).2).1
      = Ok id.
Proof.
  destruct (topic_identity_settles "TopicA" (fresh []) eq_refl)
    as (id & H1 & _ & _ & _ & _ & _ & _ & H2 & _).
  exists id. split; [exact H1|exact H2].
Defined.

(** X2. The same for [get_or_create_subtopic], keyed by the topic's
    identifier and the subtopic's name. *)
Theorem subtopic_identity_settles (topic_id : nat) (name : string) (w : world)
    (Hfaults : faults w = []) :
  let first := get_or_create_subtopic topic_id name w in
  let second := get_or_create_subtopic topic_id name first.2 in
  exists id,
    first.1 = Ok id /\
    subtopics (db first.2) !! (topic_id, name) = Some id /\
    id = default (next_subtopic_id (db w)) (subtopics (db w) !! (topic_id, name)) /\
    (forall other, other <> (topic_id, name) ->
       subtopics (db first.2) !! other = subtopics (db w) !! other) /\
    topics (db first.2) = topics (db w) /\
    content (db first.2) = content (db w) /\
    questions (db first.2) = questions (db w) /\
    second.1 = Ok id /\
    db second.2 = db first.2.
Proof.
  cbv zeta. rewrite (get_or_create_subtopic_served topic_id name w Hfaults).
  rewrite get_or_create_subtopic_served by reflexivity. cbn [fst snd db].
  exists (default (next_subtopic_id (db w)) (subtopics (db w) !! (topic_id, name))).
  pose proof (subtopic_after_upsert topic_id name (db w)) as Hid.
  split; [reflexivity|]. split; [exact Hid|]. split; [reflexivity|].
  split.
  { intros other Hne. unfold with_subtopic.
    destruct (subtopics (db w) !! (topic_id, name)); [reflexivity|]. simpl.
    apply lookup_insert_ne. congruence. }
  split; [unfold with_subtopic;
          destruct (subtopics (db w) !! (topic_id, name)); reflexivity|].
  split; [unfold with_subtopic;
          destruct (subtopics (db w) !! (topic_id, name)); reflexivity|].
  split; [unfold with_subtopic;
          destruct (subtopics (db w) !! (topic_id, name)); reflexivity|].
  rewrite Hid. split; [reflexivity|].
  apply (with_subtopic_present _ _ _ _ Hid).
Qed.

Lemma subtopic_identity_settles_witness :
  exists id,
    (get_or_create_subtopic 1 "Sub1" (fresh [])).1 = Ok id /\
    (get_or_create_subtopic 1 "Sub1"
       (get_or_create_subtopic 1 "Sub1" (fresh [])).2).1 = Ok id.
Proof.
  destruct (subtopic_identity_settles 1 "Sub1" (fresh []) eq_refl)
    as (id & H1 & _ & _ & _ & _ & _ & _ & H2 & _).
  exists id. split; [exact H1|exact H2].
Defined.

(** X3. [get_or_create_topic] and [get_or_create_subtopic] make one attempt:
    when the store fails the upsert, the failure is logged as an error and
    re-raised, the lookup is not sent and the store is untouched; when the
    store serves the upsert and fails the lookup, the failure is logged and
    re-raised too, and the row the upsert created stays. *)
Theorem identity_failure_is_logged_and_raised
    (topic_id : nat) (name : string) (w : world) (rest : list bool) :
  (faults w = true :: rest ->
   get_or_create_topic name w
   = (Raise APIError,
      {| db := db w;
         trace := trace w ++ [Exec (UpsertTopic name) (db w) false;
                              Log ERROR (TopicFailed name)];
         faults := rest |}) /\
   get_or_create_subtopic topic_id name w
   = (Raise APIError,
      {| db := db w;
         trace := trace w ++ [Exec (UpsertSubtopic topic_id name) (db w) false;
                              Log ERROR (SubtopicFailed name topic_id)];
         faults := rest |})) /\
  (faults w = false :: true :: rest ->
   get_or_create_topic name w
   = (Raise APIError,
      {| db := with_topic name (db w);
         trace := trace w ++ [Exec (UpsertTopic name) (db w) true;
                              Exec (SelectTopic name) (with_topic name (db w)) false;
                              Log ERROR (TopicFailed name)];
         faults := rest |}) /\
   get_or_create_subtopic topic_id name w
   = (Raise APIError,
      {| db := with_subtopic topic_id name (db w);
         trace := trace w ++ [Exec (UpsertSubtopic topic_id name) (db w) true;
                              Exec (SelectSubtopic topic_id name)
                                (with_subtopic topic_id name (db w)) false;
                              Log ERROR (SubtopicFailed name topic_id)];
         faults := rest |})).
Proof.
  destruct w as [s tr fl]. simpl. split; intros ->; split;
    cbn; rewrite <- ?app_assoc; reflexivity.
Qed.

(** X4. A failure of the store while a topic is resolved ends the run at
    once: [ingest] raises after that single attempt, and neither the
    subtopics of the topic nor the topics after it are looked at. *)
Theorem topic_failure_ends_run
    (t : topic_folder) (later : list topic_folder) (w : world) (rest : list bool)
    (Hfaults : faults w = true :: rest) :
  let ended :=
    {| db := db w;
       trace := trace w ++ [Exec (UpsertTopic (topic_folder_name t)) (db w) false;
                            Log ERROR (TopicFailed (topic_folder_name t))];
       faults := rest |} in
  ContentIngestion.ingest (t :: later) w = (Raise APIError, ended) /\
  QuestionIngestion.ingest (t :: later) w = (Raise APIError, ended).
Proof.
  cbv zeta.
  assert (get_or_create_topic (topic_folder_name t) w
          = (Raise APIError,
             {| db := db w;
                trace := trace w
                         ++ [Exec (UpsertTopic (topic_folder_name t)) (db w) false;
                             Log ERROR (TopicFailed (topic_folder_name t))];
                faults := rest |})) as Htopic.
  { destruct w as [s tr fl]. simpl in Hfaults. subst fl.
    cbn. rewrite <- ?app_assoc. reflexivity. }
  split.
  - unfold ContentIngestion.ingest. apply bind_raise. cbn [for_each].
    apply bind_raise. apply bind_raise. exact Htopic.
  - unfold QuestionIngestion.ingest. apply bind_raise. cbn [for_each].
    apply bind_raise. apply bind_raise. exact Htopic.
Qed.

Lemma topic_failure_ends_run_witness :
  (ContentIngestion.ingest two_subtopics (fresh [true])).1 = Raise APIError /\
  db (ContentIngestion.ingest two_subtopics (fresh [true])).2 = empty_store.
Proof.
  destruct (topic_failure_ends_run
              {| topic_folder_name := "TopicA"; subtopic_folders := [SubB; SubC] |}
              [] (fresh [true]) [] eq_refl) as [H _].
  unfold two_subtopics. rewrite H. split; reflexivity.
Defined.

(** ** Every computation of the scripts is [tracked] *)

Lemma tracked_pure {A} (m : M A) : (forall w, (m w).2 = w) -> tracked m.
Proof.
  intros Hw w. exists []. rewrite Hw, app_nil_r. simpl. auto.
Qed.

Lemma tracked_ret {A} (a : A) : tracked (ret a).
Proof. apply tracked_pure. reflexivity. Qed.

Lemma tracked_raise {A} e : tracked (@raise A e).
Proof. apply tracked_pure. reflexivity. Qed.

Lemma tracked_lift {A} (r : result A) : tracked (lift r).
Proof. apply tracked_pure. reflexivity. Qed.

Lemma tracked_emit e :
  match e with Exec _ _ _ => False | _ => True end -> tracked (emit e).
Proof.
  intros He w. exists [e]. simpl.
  destruct e; try contradiction; repeat split; auto.
Qed.

Lemma tracked_logging lvl msg : tracked (logging lvl msg).
Proof. apply tracked_emit. exact I. Qed.

Lemma tracked_execute r : tracked (execute r).
Proof.
  intros w. unfold execute. destruct (faults w) as [|[|] later] eqn:Hf.
  - destruct (serve r (db w)) as [res s'] eqn:Hs. simpl.
    exists [Exec r (db w) true]. simpl. rewrite Hs. simpl.
    repeat split; auto. constructor; [reflexivity|constructor].
  - exists [Exec r (db w) false]. simpl. repeat split; auto; discriminate.
  - destruct (serve r (db w)) as [res s'] eqn:Hs. simpl.
    exists [Exec r (db w) true]. simpl. rewrite Hs. simpl.
    repeat split; auto; discriminate.
Qed.

Lemma tracked_seq {A B} (m : M A) (f : result A -> world -> result B * world) :
  tracked m ->
  (forall r w1, exists new,
      trace (f r w1).2 = trace w1 ++ new /\
      coherent (db w1) new /\
      db (f r w1).2 = replay (db w1) new /\
      (faults w1 = [] -> faults (f r w1).2 = [] /\ Forall attended new)) ->
  tracked (fun w => f (m w).1 (m w).2).
Proof.
  intros Hm Hf w. destruct (Hm w) as (new1 & Ht1 & Hc1 & Hd1 & Hs1).
  destruct (Hf (m w).1 (m w).2) as (new2 & Ht2 & Hc2 & Hd2 & Hs2).
  exists (new1 ++ new2). rewrite Ht2, Ht1, app_assoc. split; [reflexivity|].
  rewrite coherent_app, replay_app, <- Hd1. split; [auto|]. split; [exact Hd2|].
  intros Hf0. destruct (Hs1 Hf0) as [Hf1 Ha1]. destruct (Hs2 Hf1) as [Hf2 Ha2].
  split; [exact Hf2|]. apply Forall_app. auto.
Qed.

Lemma tracked_bind {A B} (m : M A) (k : A -> M B) :
  tracked m -> (forall a, tracked (k a)) -> tracked (bind m k).
Proof.
  intros Hm Hk w.
  pose proof (tracked_seq m
    (fun r w1 => match r with Ok a => k a w1 | Raise e => (Raise e, w1) end) Hm)
    as H.
  assert (tracked (fun w => match (m w).1 with
                            | Ok a => k a (m w).2
                            | Raise e => (Raise e, (m w).2)
                            end)) as Hseq.
  { apply H. intros [a|e] w1.
    - apply Hk.
    - exists []. simpl. rewrite app_nil_r. auto. }
  specialize (Hseq w). unfold bind. simpl in Hseq.
  destruct (m w) as [[a|e] w1]; exact Hseq.
Qed.

Lemma tracked_try {A} (m : M A) (h : exn -> M A) :
  tracked m -> (forall e, tracked (h e)) -> tracked (try_except m h).
Proof.
  intros Hm Hh w.
  pose proof (tracked_seq m
    (fun r w1 => match r with Ok a => (Ok a, w1) | Raise e => h e w1 end) Hm)
    as H.
  assert (tracked (fun w => match (m w).1 with
                            | Ok a => (Ok a, (m w).2)
                            | Raise e => h e (m w).2
                            end)) as Hseq.
  { apply H. intros [a|e] w1.
    - exists []. simpl. rewrite app_nil_r. auto.
    - apply Hh. }
  specialize (Hseq w). unfold try_except. simpl in Hseq.
  destruct (m w) as [[a|e] w1]; exact Hseq.
Qed.

Lemma tracked_for_each {A} (xs : list A) body :
  (forall x, tracked (body x)) -> tracked (for_each xs body).
Proof.
  intros Hb. induction xs as [|x xs IH]; simpl.
  - apply tracked_ret.
  - apply tracked_bind; auto.
Qed.

Lemma tracked_for_fold {A S} (xs : list A) (acc : S) body :
  (forall acc x, tracked (body acc x)) -> tracked (for_fold xs acc body).
Proof.
  intros Hb. revert acc. induction xs as [|x xs IH]; intros acc; simpl.
  - apply tracked_ret.
  - apply tracked_bind; auto.
Qed.

Lemma tracked_retry {A} tries delay (f : M A) :
  tracked f -> tracked (retry tries delay f).
Proof.
  intros Hf. induction tries as [|tries IH]; simpl.
  - apply tracked_ret.
  - apply tracked_try.
    + apply tracked_bind; [exact Hf|]. intros. apply tracked_ret.
    + intros e. destruct tries; [apply tracked_raise|].
      apply tracked_bind; [apply tracked_logging|]. intros _.
      apply tracked_bind; [apply tracked_emit; exact I|]. intros _. exact IH.
Qed.

Lemma tracked_get_or_create_topic name : tracked (get_or_create_topic name).
Proof.
  apply tracked_try.
  - apply tracked_bind; [apply tracked_execute|]. intros _.
    apply tracked_bind; [apply tracked_execute|]. intros [id|].
    + apply tracked_ret.
    + apply tracked_raise.
  - intros e. apply tracked_bind; [apply tracked_logging|]. intros _.
    apply tracked_raise.
Qed.

Lemma tracked_get_or_create_subtopic tid name :
  tracked (get_or_create_subtopic tid name).
Proof.
  apply tracked_try.
  - apply tracked_bind; [apply tracked_execute|]. intros _.
    apply tracked_bind; [apply tracked_execute|]. intros [id|].
    + apply tracked_ret.
    + apply tracked_raise.
  - intros e. apply tracked_bind; [apply tracked_logging|]. intros _.
    apply tracked_raise.
Qed.

Lemma tracked_content_safe_upsert table rows :
  tracked (ContentIngestion.safe_upsert table rows).
Proof.
  apply tracked_retry. apply tracked_try; [apply tracked_execute|].
  intros e. apply tracked_bind; [apply tracked_logging|]. intros _.
  apply tracked_raise.
Qed.

Lemma tracked_question_safe_upsert table rows :
  tracked (QuestionIngestion.safe_upsert table rows).
Proof.
  apply tracked_retry. apply tracked_try; [apply tracked_execute|].
  intros e. apply tracked_bind; [apply tracked_logging|]. intros _.
  apply tracked_raise.
Qed.

Lemma tracked_content_file sid name file :
  tracked (ContentIngestion.ingest_file sid name file).
Proof.
  unfold ContentIngestion.ingest_file. destruct file as [| |data].
  - apply tracked_logging.
  - apply tracked_raise.
  - destruct (negb (is_dict data)); [apply tracked_logging|].
    apply tracked_bind.
    + apply tracked_for_fold. intros batch [yl dl].
      unfold ContentIngestion.ingest_level.
      apply tracked_bind; [apply tracked_lift|]. intros present.
      destruct (negb present); [apply tracked_ret|].
      apply tracked_bind; [apply tracked_lift|]. intros block.
      apply tracked_bind; [apply tracked_lift|]. intros title.
      apply tracked_bind; [apply tracked_lift|]. intros summary.
      apply tracked_ret.
    + intros [|r rows]; [apply tracked_ret|].
      apply tracked_bind; [apply tracked_content_safe_upsert|]. intros _.
      apply tracked_logging.
Qed.

Lemma tracked_question_file sid name file :
  tracked (QuestionIngestion.ingest_file sid name file).
Proof.
  unfold QuestionIngestion.ingest_file. destruct file as [| |data];
    try apply tracked_logging.
  match goal with |- context [if ?c then _ else _] => destruct c end;
    [apply tracked_logging|].
  apply tracked_bind; [apply tracked_lift|]. intros levels.
  apply tracked_bind.
  - apply tracked_for_fold. intros batch [yl dl].
    unfold QuestionIngestion.ingest_level.
    apply tracked_bind; [apply tracked_lift|]. intros present.
    destruct (negb present); [apply tracked_ret|].
    apply tracked_bind; [apply tracked_lift|]. intros block.
    apply tracked_bind; [apply tracked_lift|]. intros questions.
    apply tracked_bind; [apply tracked_lift|]. intros qs.
    apply tracked_for_fold. intros batch' q.
    unfold QuestionIngestion.ingest_question.
    apply tracked_bind; [apply tracked_lift|]. intros t.
    destruct (negb (truthy t)).
    + apply tracked_bind; [apply tracked_logging|]. intros _. apply tracked_ret.
    + match goal with |- context [if ?c then _ else _] => destruct c end;
        [|apply tracked_ret].
      apply tracked_bind; [apply tracked_question_safe_upsert|]. intros _.
      apply tracked_ret.
  - intros [|r rows]; [apply tracked_ret|].
    apply tracked_bind; [apply tracked_question_safe_upsert|]. intros _.
    apply tracked_logging.
Qed.

Lemma tracked_traverse select ingest_file root :
  (forall sid name file, tracked (ingest_file sid name file)) ->
  tracked (traverse select ingest_file root).
Proof.
  intros Hfile. unfold traverse, topic_step, subtopic_step.
  apply tracked_bind; [|intros _; apply tracked_logging].
  apply tracked_for_each. intros t.
  apply tracked_bind; [apply tracked_get_or_create_topic|]. intros tid.
  apply tracked_bind; [apply tracked_logging|]. intros _.
  apply tracked_for_each. intros s.
  apply tracked_bind; [apply tracked_get_or_create_subtopic|]. intros sid.
  apply tracked_bind; [apply tracked_logging|]. intros _.
  apply Hfile.
Qed.

Lemma tracked_content_ingest root : tracked (ContentIngestion.ingest root).
Proof.
  rewrite content_ingest_traverse. apply tracked_traverse.
  apply tracked_content_file.
Qed.

Lemma tracked_question_ingest root : tracked (QuestionIngestion.ingest root).
Proof.
  rewrite question_ingest_traverse. apply tracked_traverse.
  apply tracked_question_file.
Qed.

(** ** What a run leaves in place *)

Lemma upsert_rows_keeps {K R} `{Countable K} (key : R -> K) rows (t : gmap K R) k :
  is_Some (t !! k) -> is_Some (upsert_rows key rows t !! k).
Proof.
  intros Hk. rewrite upsert_lookup. destruct (last_row key k rows); eauto.
Qed.

Lemma replay_keeps_content s evs key :
  is_Some (content s !! key) -> is_Some (content (replay s evs) !! key).
Proof. rewrite replay_content. apply upsert_rows_keeps. Qed.

Lemma replay_keeps_questions s evs key :
  is_Some (questions s !! key) -> is_Some (questions (replay s evs) !! key).
Proof. rewrite replay_questions. apply upsert_rows_keeps. Qed.

Lemma spared_questions evs :
  Forall spares_questions evs -> questions_written evs = [].
Proof.
  induction 1 as [|e evs He _ IH]; [reflexivity|].
  unfold questions_written, writes in *. cbn [omap list_omap].
  destruct e as [| |r b [|]]; simpl; try exact IH.
  destruct r; simpl in *; try exact IH. contradiction.
Qed.

Lemma spared_content evs :
  Forall spares_content evs -> content_written evs = [].
Proof.
  induction 1 as [|e evs He _ IH]; [reflexivity|].
  unfold content_written, writes in *. cbn [omap list_omap].
  destruct e as [| |r b [|]]; simpl; try exact IH.
  destruct r; simpl in *; try exact IH. contradiction.
Qed.

Lemma content_ingest_spares_questions root w :
  Forall spares_questions (new_events (ContentIngestion.ingest root) w).
Proof.
  eapply emits_events. rewrite content_ingest_traverse. apply emits_traverse.
  - intros; exact I.
  - intros [] ? ? ?; simpl; try exact I; discriminate.
  - intros t s sid _ _.
    apply emits_content_file with (P := fun _ => True); simpl; auto.
    intros data batch entry _ _ Hbatch. apply emits_content_level; auto.
Qed.

Lemma question_ingest_spares_content root w :
  Forall spares_content (new_events (QuestionIngestion.ingest root) w).
Proof.
  eapply emits_events. rewrite question_ingest_traverse. apply emits_traverse.
  - intros; exact I.
  - intros [] ? ? ?; simpl; try exact I; discriminate.
  - intros t s sid _ _.
    apply emits_question_file with (P := fun _ => True); simpl; auto.
    intros data levels batch entry _ _ _ Hbatch.
    apply emits_question_level; simpl; auto.
Qed.

Lemma tracked_new_events {A} (m : M A) w :
  tracked m ->
  coherent (db w) (new_events m w) /\
  db (m w).2 = replay (db w) (new_events m w) /\
  (faults w = [] -> faults (m w).2 = [] /\ Forall attended (new_events m w)).
Proof.
  intros Hm. destruct (Hm w) as (new & Ht & Hc & Hd & Hs).
  rewrite (new_events_app _ _ _ Ht). auto.
Qed.

(** X5. Whatever the input files and the failures of the store, a run of
    either script removes nothing: every topic and subtopic keeps its
    identifier and every content and question row that was stored is still
    stored under its key afterwards; the content script leaves the
    [questions] table exactly as it was, and the question script the
    [content] table. *)
Theorem run_never_removes (root : list topic_folder) (w : world) :
  let c := db (ContentIngestion.ingest root w).2 in
  let q := db (QuestionIngestion.ingest root w).2 in
  (topics (db w) ⊆ topics c /\ subtopics (db w) ⊆ subtopics c /\
   (forall key, is_Some (content (db w) !! key) -> is_Some (content c !! key)) /\
   questions c = questions (db w)) /\
  (topics (db w) ⊆ topics q /\ subtopics (db w) ⊆ subtopics q /\
   (forall key, is_Some (questions (db w) !! key) -> is_Some (questions q !! key)) /\
   content q = content (db w)).
Proof.
  cbv zeta. split.
  - destruct (tracked_new_events _ w (tracked_content_ingest root)) as (_ & Hd & _).
    rewrite Hd. destruct (covers_replay (db w)
      (new_events (ContentIngestion.ingest root) w)) as [Ht Hs].
    split; [exact Ht|]. split; [exact Hs|].
    split; [intros key; apply replay_keeps_content|].
    rewrite replay_questions, spared_questions; [reflexivity|].
    apply content_ingest_spares_questions.
  - destruct (tracked_new_events _ w (tracked_question_ingest root)) as (_ & Hd & _).
    rewrite Hd. destruct (covers_replay (db w)
      (new_events (QuestionIngestion.ingest root) w)) as [Ht Hs].
    split; [exact Ht|]. split; [exact Hs|].
    split; [intros key; apply replay_keeps_questions|].
    rewrite replay_content, spared_content; [reflexivity|].
    apply question_ingest_spares_content.
Qed.

(** ** What the treatment of one file leaves in the store *)


Lemma content_rows_keys sid items entries :
  NoDup (map snd entries) ->
  NoDup (map content_key
    (omap (fun entry : string * string =>
             match dict_get entry.1 items with
             | Some (YDict block) => Some (content_row_of sid entry.2 block)
             | _ => None
             end) entries)).
Proof.
  induction entries as [|entry entries IH]; intros Hnd; [constructor|].
  simpl in Hnd. apply NoDup_cons in Hnd as [Hfresh Hnd].
  cbn [omap list_omap].
  destruct (dict_get entry.1 items) as [[| | | | |block]|]; auto.
  cbn [map]. apply NoDup_cons. split; [|auto].
  intros Hin. apply Hfresh.
  apply list_elem_of_fmap_1 in Hin as (r & Hkey & Hr).
  apply list_elem_of_omap in Hr as (entry' & Hin' & Hrow).
  destruct (dict_get entry'.1 items) as [[| | | | |block']|]; try discriminate.
  injection Hrow as <-. injection Hkey as ->.
  apply (list_elem_of_fmap_2 snd). exact Hin'.
Qed.

Lemma content_difficulties_distinct : NoDup (map snd ContentIngestion.DIFFICULTY_MAP).
Proof.
  unfold ContentIngestion.DIFFICULTY_MAP. simpl.
  repeat (apply NoDup_cons; split;
          [rewrite ?elem_of_cons, elem_of_nil; intros H;
           repeat (destruct H as [H|H]; try discriminate); exact H|]).
  constructor.
Qed.










(** ** Values of the wrong kind *)





(** X9. A question item whose [type] is present but empty (null, false, 0,
    the empty string, an empty list or mapping) is skipped like an item
    without [type]: the batch is unchanged, a warning is logged, nothing is
    raised. *)
Theorem question_with_empty_type_skipped
    (sid : nat) (name dl : string) (fields : list (string * value)) (t : value)
    (batch : list question_row) (w : world)
    (Htype : dict_get "type" fields = Some t)
    (Hempty : t ∈ [YNull; YBool false; YInt 0; YStr EmptyString; YList []; YDict []]) :
  QuestionIngestion.ingest_question sid name dl batch (YDict fields) w
  = (Ok batch, warn (SkippingQuestion name) w).
Proof.
  assert (truthy t = false) as Hfalse.
  { repeat (apply elem_of_cons in Hempty as [->|Hempty]; [reflexivity|]).
    apply elem_of_nil in Hempty. destruct Hempty. }
  unfold QuestionIngestion.ingest_question. simpl.
  rewrite bind_lift_ok, Htype, Hfalse. reflexivity.
Qed.

Lemma question_with_empty_type_skipped_witness :
  QuestionIngestion.ingest_question 1 "Sub1" "basic" []
    (YDict [("type", YStr EmptyString); ("q", YStr "Q1")]) (fresh [])
  = (Ok [], warn (SkippingQuestion "Sub1") (fresh [])).
Proof.
  refine (question_with_empty_type_skipped 1 "Sub1" "basic"
            [("type", YStr EmptyString); ("q", YStr "Q1")] (YStr EmptyString) []
            (fresh []) eq_refl _).
  do 3 right. left.
Defined.

(** X10. The validation of a questions file only checks that [by_level] is
    there.  A [by_level] that is null, a boolean or a number, a first level
    that is not a mapping, a [questions] that is null, a boolean or a number,
    and a first question item that is not a mapping each make the treatment
    of the file raise ([TypeError] when the value cannot be searched or
    iterated, [AttributeError] when it has no [get]) before anything is
    written or logged. *)
Theorem question_value_of_wrong_kind_raises
    (sid : nat) (name : string) (items : list (string * value)) (w : world) :
  (forall v,
      dict_get "by_level" items = Some v ->
      match v with YNull | YBool _ | YInt _ => True | _ => False end ->
      QuestionIngestion.ingest_file sid name (Loaded (YDict items)) w
      = (Raise TypeError, w)) /\
  (forall levels v,
      dict_get "by_level" items = Some (YDict levels) ->
      dict_get "beginner" levels = Some v -> is_dict v = false ->
      QuestionIngestion.ingest_file sid name (Loaded (YDict items)) w
      = (Raise AttributeError, w)) /\
  (forall levels block v,
      dict_get "by_level" items = Some (YDict levels) ->
      dict_get "beginner" levels = Some (YDict block) ->
      dict_get "questions" block = Some v ->
      match v with YNull | YBool _ | YInt _ => True | _ => False end ->
      QuestionIngestion.ingest_file sid name (Loaded (YDict items)) w
      = (Raise TypeError, w)) /\
  (forall levels block q qs,
      dict_get "by_level" items = Some (YDict levels) ->
      dict_get "beginner" levels = Some (YDict block) ->
      dict_get "questions" block = Some (YList (q :: qs)) ->
      is_dict q = false ->
      QuestionIngestion.ingest_file sid name (Loaded (YDict items)) w
      = (Raise AttributeError, w)).
Proof.
  assert (forall levels,
            dict_get "by_level" items = Some levels ->
            QuestionIngestion.ingest_file sid name (Loaded (YDict items)) w
            = (batch <- QuestionIngestion.ingest_level sid name levels []
                          ("beginner", "basic") ;;
               batch <- for_fold [("intermediate", "core"); ("advanced", "mastery")]
                          batch (QuestionIngestion.ingest_level sid name levels) ;;
               match batch with
               | [] => ret tt
               | _ :: _ =>
                   QuestionIngestion.safe_upsert "questions" batch ;;;
                   logging INFO (InsertedFinalBatch (length batch))
               end) w) as Hfile.
  { intros levels Hget.
    unfold QuestionIngestion.ingest_file, py_in, py_getitem.
    rewrite Hget. cbn [negb is_dict orb]. rewrite bind_lift_ok.
    unfold QuestionIngestion.DIFFICULTY_MAP. cbn [for_fold].
    unfold bind.
    destruct (QuestionIngestion.ingest_level sid name levels [] ("beginner", "basic") w)
      as [[b|e] w1]; reflexivity. }
  assert (forall levels v,
            dict_get "beginner" levels = Some v ->
            QuestionIngestion.ingest_level sid name (YDict levels) []
              ("beginner", "basic") w
            = (questions <- lift (py_get v "questions" (YList [])) ;;
               qs <- lift (py_iter questions) ;;
               for_fold qs []
                 (QuestionIngestion.ingest_question sid name "basic")) w) as Hlevel.
  { intros levels v Hget.
    unfold QuestionIngestion.ingest_level, py_in, py_getitem.
    rewrite Hget. reflexivity. }
  split; [|split; [|split]].
  - intros v Hget Hv. rewrite (Hfile _ Hget). apply bind_raise.
    destruct v; try contradiction; reflexivity.
  - intros levels v Hget Hbeginner Hv. rewrite (Hfile _ Hget). apply bind_raise.
    rewrite (Hlevel _ _ Hbeginner).
    destruct v; try discriminate; reflexivity.
  - intros levels block v Hget Hbeginner Hquestions Hv.
    rewrite (Hfile _ Hget). apply bind_raise.
    rewrite (Hlevel _ _ Hbeginner). unfold py_get. rewrite Hquestions.
    destruct v; try contradiction; reflexivity.
  - intros levels block q qs Hget Hbeginner Hquestions Hq.
    rewrite (Hfile _ Hget). apply bind_raise.
    rewrite (Hlevel _ _ Hbeginner). unfold py_get. rewrite Hquestions.
    destruct q; try discriminate; reflexivity.
Qed.

Lemma question_value_of_wrong_kind_raises_witness :
  QuestionIngestion.ingest_file 1 "Sub1" (Loaded (YDict [("by_level", YNull)]))
    (fresh [])
  = (Raise TypeError, fresh []).
Proof.
  exact (proj1 (question_value_of_wrong_kind_raises 1 "Sub1"
                  [("by_level", YNull)] (fresh [])) YNull eq_refl I).
Defined.

(** X11. Whatever the failures of the store, [safe_upsert] makes one, two
    or three attempts at the same request, each failed one logged as an error
    and followed, before the next, by a warning and a sleep of two seconds.
    It returns as soon as an attempt is served, the rows then being in the
    table, and it raises only after three failed attempts, the store then
    being as it was. *)
Theorem safe_upsert_attempts (table : string) (crows : list content_row)
    (qrows : list question_row) (w : world) :
  (exists k, (k < 3)%nat /\
     (ContentIngestion.safe_upsert table crows w
      = (Ok (Some None),
         {| db := with_content crows (db w);
            trace := trace w
                     ++ concat (repeat (failed_attempt (UpsertContent crows) table (db w)
                                        ++ pause) k)
                     ++ [Exec (UpsertContent crows) (db w) true];
            faults := drop (S k) (faults w) |}) \/
      k = 2%nat /\
      ContentIngestion.safe_upsert table crows w
      = (Raise APIError,
         {| db := db w;
            trace := trace w
                     ++ concat (repeat (failed_attempt (UpsertContent crows) table (db w)
                                        ++ pause) 2)
                     ++ failed_attempt (UpsertContent crows) table (db w);
            faults := drop 3 (faults w) |}))) /\
  (exists k, (k < 3)%nat /\
     (QuestionIngestion.safe_upsert table qrows w
      = (Ok (Some None),
         {| db := with_questions qrows (db w);
            trace := trace w
                     ++ concat (repeat (failed_attempt (UpsertQuestions qrows) table (db w)
                                        ++ pause) k)
                     ++ [Exec (UpsertQuestions qrows) (db w) true];
            faults := drop (S k) (faults w) |}) \/
      k = 2%nat /\
      QuestionIngestion.safe_upsert table qrows w
      = (Raise APIError,
         {| db := db w;
            trace := trace w
                     ++ concat (repeat (failed_attempt (UpsertQuestions qrows) table (db w)
                                        ++ pause) 2)
                     ++ failed_attempt (UpsertQuestions qrows) table (db w);
            faults := drop 3 (faults w) |}))).
Proof.
  destruct w as [s tr fl]. cbn [db trace faults].
  split.
  - destruct fl as [|[|] [|[|] [|[|] fl]]];
      first
        [ exists 0%nat; split; [lia|]; left; cbn; rewrite <- ?app_assoc; reflexivity
        | exists 1%nat; split; [lia|]; left; cbn; rewrite <- ?app_assoc; reflexivity
        | exists 2%nat; split; [lia|]; left; cbn; rewrite <- ?app_assoc; reflexivity
        | exists 2%nat; split; [lia|]; right; split; [reflexivity|];
          cbn; rewrite <- ?app_assoc; reflexivity ].
  - destruct fl as [|[|] [|[|] [|[|] fl]]];
      first
        [ exists 0%nat; split; [lia|]; left; cbn; rewrite <- ?app_assoc; reflexivity
        | exists 1%nat; split; [lia|]; left; cbn; rewrite <- ?app_assoc; reflexivity
        | exists 2%nat; split; [lia|]; left; cbn; rewrite <- ?app_assoc; reflexivity
        | exists 2%nat; split; [lia|]; right; split; [reflexivity|];
          cbn; rewrite <- ?app_assoc; reflexivity ].
Qed.

(** ** The digest *)








Lemma string_of_list_ascii_length l :
  String.length (string_of_list_ascii l) = length l.
Proof. induction l as [|c l IH]; simpl; [reflexivity|]. rewrite IH. reflexivity. Qed.



(** ** Induction on values *)

Lemma value_ind' (P : value -> Prop) :
  P YNull -> (forall b, P (YBool b)) -> (forall z, P (YInt z)) ->
  (forall s, P (YStr s)) ->
  (forall xs, Forall P xs -> P (YList xs)) ->
  (forall items, Forall (fun kv => P kv.2) items -> P (YDict items)) ->
  forall v, P v.
Proof.
  intros Hnull Hbool Hint Hstr Hlist Hdict.
  fix IH 1. intros [|b|z|s|xs|items].
  - exact Hnull.
  - apply Hbool.
  - apply Hint.
  - apply Hstr.
  - apply Hlist. induction xs as [|x xs IHxs]; constructor; [apply IH|exact IHxs].
  - apply Hdict. induction items as [|[k v] items IHitems]; constructor;
      [apply IH|exact IHitems].
Qed.

(** ** Sorting the items of a mapping *)

Lemma string_leb_trans a b c :
  String.leb a b = true -> String.leb b c = true -> String.leb a c = true.
Proof.
  unfold String.leb. revert b c.
  induction a as [|x a IH]; intros [|y b] [|z c]; simpl; try congruence.
  unfold Ascii.compare.
  destruct (N.compare_spec (N_of_ascii x) (N_of_ascii y)) as [Hxy|Hxy|Hxy];
    destruct (N.compare_spec (N_of_ascii y) (N_of_ascii z)) as [Hyz|Hyz|Hyz];
    destruct (N.compare_spec (N_of_ascii x) (N_of_ascii z)) as [Hxz|Hxz|Hxz];
    try congruence; try lia.
  apply IH.
Qed.

Lemma insert_item_swap {B} (a b : string * B) l :
  a.1 <> b.1 ->
  insert_item a (insert_item b l) = insert_item b (insert_item a l).
Proof.
  intros Hne. induction l as [|x l IH]; simpl.
  - destruct (String.leb a.1 b.1) eqn:Hab, (String.leb b.1 a.1) eqn:Hba;
      try reflexivity.
    + exfalso. apply Hne. apply String.leb_antisym; assumption.
    + destruct (String.leb_total a.1 b.1); congruence.
  - destruct (String.leb b.1 x.1) eqn:Hbx, (String.leb a.1 x.1) eqn:Hax; simpl;
      rewrite ?Hbx, ?Hax.
    + destruct (String.leb a.1 b.1) eqn:Hab, (String.leb b.1 a.1) eqn:Hba;
        rewrite ?Hbx, ?Hax; try reflexivity.
      * exfalso. apply Hne. apply String.leb_antisym; assumption.
      * destruct (String.leb_total a.1 b.1); congruence.
    + destruct (String.leb a.1 b.1) eqn:Hab.
      * rewrite (string_leb_trans _ _ _ Hab Hbx) in Hax. discriminate.
      * reflexivity.
    + destruct (String.leb b.1 a.1) eqn:Hba.
      * rewrite (string_leb_trans _ _ _ Hba Hax) in Hbx. discriminate.
      * reflexivity.
    + rewrite IH. reflexivity.
Qed.

Lemma sort_items_permutation {B} (l l' : list (string * B)) :
  NoDup (map fst l) -> Permutation l l' -> sort_items l = sort_items l'.
Proof.
  intros Hnd Hperm. unfold sort_items.
  apply (foldr_permutation eq insert_item []); [|exact Hperm].
  intros j1 a1 j2 a2 b Hj H1 H2. apply insert_item_swap.
  intros Hkeys. apply Hj.
  eapply (NoDup_lookup (map fst l)); [exact Hnd| |].
  - rewrite list_lookup_fmap, H1. reflexivity.
  - rewrite list_lookup_fmap, H2. simpl. rewrite Hkeys. reflexivity.
Qed.

(** ** The order of the keys *)

Lemma encode_reordered x :
  distinct_keys x = true -> forall y, reordered x y -> encode x = encode y.
Proof.
  induction x as [|b|z|s|xs IH|items IH] using value_ind';
    intros Hwf y Hy; inversion Hy; subst; try reflexivity.
  - simpl. do 3 f_equal.
    match goal with H : Forall2 reordered xs _ |- _ => rename H into Hall end.
    simpl in Hwf. clear Hy. induction Hall as [|x y xs ys Hxy Hall IHall];
      [reflexivity|].
    simpl in Hwf. apply andb_true_iff in Hwf as [Hx Hxs].
    apply Forall_cons in IH as [IHx IHxs].
    simpl. f_equal; [apply IHx; assumption|apply IHall; assumption].
  - match goal with
    | H : Forall2 _ items shuffled, H' : Permutation shuffled _ |- _ =>
        rename H into Hall; rename H' into Hperm
    end.
    simpl in Hwf. apply andb_true_iff in Hwf as [Hnd Hwf].
    apply bool_decide_eq_true_1 in Hnd.
    simpl. do 4 f_equal.
    assert (map (fun kv : string * value => (kv.1, encode kv.2)) items
            = map (fun kv : string * value => (kv.1, encode kv.2)) shuffled) as Hmap.
    { clear Hy Hperm Hnd. induction Hall as [|kv kv' l l' [Hk Hv] Hall IHall];
        [reflexivity|].
      simpl in Hwf. apply andb_true_iff in Hwf as [Hx Hxs].
      apply Forall_cons in IH as [IHx IHxs].
      simpl. f_equal; [|apply IHall; assumption].
      rewrite Hk. f_equal. apply IHx; assumption. }
    rewrite Hmap. apply sort_items_permutation.
    + rewrite <- Hmap, map_map. simpl. exact Hnd.
    + apply fmap_Permutation. exact Hperm.
Qed.

(** X13. On data whose mappings have string keys, [hash_content] does not
    depend on the order in which the keys of a mapping were inserted, at any
    depth of the data: two values of the kinds of [value] that differ only
    by that order have the same digest. *)
Theorem hash_content_ignores_key_order (x y : value)
    (Hkeys : distinct_keys x = true)
    (Hsame : reordered x y) :
  json_dumps x = json_dumps y /\ hash_content x = hash_content y.
Proof.
  unfold hash_content, json_dumps.
  rewrite (encode_reordered x Hkeys y Hsame). split; reflexivity.
Qed.

Lemma hash_content_ignores_key_order_witness :
  hash_content (YDict [("type", YStr "mcq"); ("q", YStr "Q1")])
  = hash_content (YDict [("q", YStr "Q1"); ("type", YStr "mcq")]).
Proof.
  refine (proj2 (hash_content_ignores_key_order
            (YDict [("type", YStr "mcq"); ("q", YStr "Q1")])
            (YDict [("q", YStr "Q1"); ("type", YStr "mcq")]) eq_refl _)).
  apply (reordered_dict _ [("type", YStr "mcq"); ("q", YStr "Q1")]).
  - repeat constructor.
  - apply perm_swap.
Defined.

(** ** Triples on the store *)

Lemma hoare_weaken {A} (P P' : store -> Prop) (m : M A) (Q Q' : A -> store -> Prop)
    (R R' : store -> Prop) :
  hoare P m Q R ->
  (forall s, P' s -> P s) -> (forall a s, Q a s -> Q' a s) ->
  (forall s, R s -> R' s) ->
  hoare P' m Q' R'.
Proof.
  intros Hm HP HQ HR w Hw. specialize (Hm w (HP _ Hw)).
  destruct (m w).1; auto.
Qed.

Lemma hoare_emit (P : store -> Prop) e R :
  hoare P (emit e) (fun _ => P) R.
Proof. intros w Hw. exact Hw. Qed.

Lemma hoare_bind {A B} (P : store -> Prop) (m : M A) (k : A -> M B)
    (Q : A -> store -> Prop) (Q' : B -> store -> Prop) R :
  hoare P m Q R -> (forall a, hoare (Q a) (k a) Q' R) ->
  hoare P (bind m k) Q' R.
Proof.
  intros Hm Hk w Hw. specialize (Hm w Hw). unfold bind.
  destruct (m w) as [[a|e] w1]; simpl in *.
  - apply Hk. exact Hm.
  - exact Hm.
Qed.

Lemma hoare_assume {A} (fact : Prop) (P : store -> Prop) (m : M A) Q R :
  (forall s, P s -> fact) -> (fact -> hoare P m Q R) -> hoare P m Q R.
Proof. intros Hfact Hm w Hw. apply Hm; eauto. Qed.

(** A loop whose invariant follows the elements already treated. *)
Lemma hoare_for_each_from {A} (I : list A -> store -> Prop) R
    (done xs : list A) (body : A -> M unit) :
  (forall before x after, done ++ xs = before ++ x :: after ->
     hoare (I before) (body x) (fun _ => I (before ++ [x])) R) ->
  hoare (I done) (for_each xs body) (fun _ => I (done ++ xs)) R.
Proof.
  revert done. induction xs as [|x xs IH]; intros done Hbody.
  - intros w Hw. simpl. rewrite app_nil_r. exact Hw.
  - simpl. eapply hoare_bind.
    + apply (Hbody done x xs). reflexivity.
    + intros []. replace (done ++ x :: xs) with ((done ++ [x]) ++ xs)
        by (rewrite <- app_assoc; reflexivity).
      apply IH. intros before y after Heq. apply (Hbody before y after).
      rewrite <- Heq, <- app_assoc. reflexivity.
Qed.

Lemma hoare_for_each {A} (I : store -> Prop) R (xs : list A) (body : A -> M unit) :
  (forall x, x ∈ xs -> hoare I (body x) (fun _ => I) R) ->
  hoare I (for_each xs body) (fun _ => I) R.
Proof.
  intros Hbody.
  apply (hoare_for_each_from (fun _ => I) R [] xs body).
  intros before x after Heq. simpl. apply Hbody. simpl in Heq. rewrite Heq.
  apply elem_of_app. right. left.
Qed.

(** ** The identities, as triples *)

Lemma hoare_get_or_create_topic (P : store -> Prop) name :
  (forall s, P s -> P (with_topic name s)) ->
  hoare P (get_or_create_topic name)
    (fun id s => P s /\ topics s !! name = Some id) P.
Proof.
  intros Hstep [s tr fl] Hw. simpl in Hw.
  pose proof (topic_after_upsert name s) as Hid.
  unfold get_or_create_topic, try_except, bind, execute, logging, emit, ret, raise.
  destruct fl as [|[|] [|[|] fl]]; cbn [faults db trace serve tail fst snd];
    rewrite ?Hid; cbn [faults db trace serve tail fst snd]; auto.
Qed.

Lemma hoare_get_or_create_subtopic (P : store -> Prop) tid name :
  (forall s, P s -> P (with_subtopic tid name s)) ->
  hoare P (get_or_create_subtopic tid name)
    (fun id s => P s /\ subtopics s !! (tid, name) = Some id) P.
Proof.
  intros Hstep [s tr fl] Hw. simpl in Hw.
  pose proof (subtopic_after_upsert tid name s) as Hid.
  unfold get_or_create_subtopic, try_except, bind, execute, logging, emit, ret, raise.
  destruct fl as [|[|] [|[|] fl]]; cbn [faults db trace serve tail fst snd];
    rewrite ?Hid; cbn [faults db trace serve tail fst snd]; auto.
Qed.

(** ** References between the tables *)

Lemma topic_stored_covers s s' tid :
  covers s s' -> topic_stored s tid -> topic_stored s' tid.
Proof.
  intros [Ht _] [name Hname]. exists name.
  eapply lookup_weaken; eassumption.
Qed.

Lemma subtopic_stored_covers s s' sid :
  covers s s' -> subtopic_stored s sid -> subtopic_stored s' sid.
Proof.
  intros [_ Hs] [key Hkey]. exists key.
  eapply lookup_weaken; eassumption.
Qed.

Lemma referential_with_topic name s :
  referential s -> referential (with_topic name s).
Proof.
  intros (Hsub & Hcontent & Hquestions).
  pose proof (covers_with_topic name s) as Hcov.
  assert (subtopics (with_topic name s) = subtopics s
          /\ content (with_topic name s) = content s
          /\ questions (with_topic name s) = questions s) as (Es & Ec & Eq).
  { unfold with_topic. destruct (topics s !! name); auto. }
  split; [|split].
  - intros key sid Hkey. rewrite Es in Hkey.
    eapply topic_stored_covers; eauto.
  - intros key r Hkey. rewrite Ec in Hkey.
    eapply subtopic_stored_covers; eauto.
  - intros h r Hh. rewrite Eq in Hh.
    eapply subtopic_stored_covers; eauto.
Qed.

Lemma referential_with_subtopic tid name s :
  topic_stored s tid -> referential s -> referential (with_subtopic tid name s).
Proof.
  intros Htid (Hsub & Hcontent & Hquestions).
  pose proof (covers_with_subtopic tid name s) as Hcov.
  assert (content (with_subtopic tid name s) = content s
          /\ questions (with_subtopic tid name s) = questions s) as (Ec & Eq).
  { unfold with_subtopic. destruct (subtopics s !! (tid, name)); auto. }
  split; [|split].
  - intros key sid Hkey. eapply topic_stored_covers; [exact Hcov|].
    unfold with_subtopic in Hkey.
    destruct (subtopics s !! (tid, name)) eqn:Hold; [eauto|].
    simpl in Hkey. destruct (decide (key = (tid, name))) as [->|Hne].
    + exact Htid.
    + rewrite lookup_insert_ne in Hkey by congruence. eauto.
  - intros key r Hkey. rewrite Ec in Hkey.
    eapply subtopic_stored_covers; eauto.
  - intros h r Hh. rewrite Eq in Hh.
    eapply subtopic_stored_covers; eauto.
Qed.

Lemma upsert_rows_from {K R} `{Countable K} (key : R -> K) rows (t : gmap K R) k r :
  upsert_rows key rows t !! k = Some r -> r ∈ rows \/ t !! k = Some r.
Proof.
  rewrite upsert_lookup. destruct (last_row key k rows) as [r'|] eqn:Hlast.
  - intros [= <-]. left. apply last_row_key in Hlast. apply Hlast.
  - auto.
Qed.

Lemma referential_with_content rows sid s :
  Forall (fun r => c_subtopic_id r = sid) rows -> subtopic_stored s sid ->
  referential s -> referential (with_content rows s).
Proof.
  intros Hrows Hsid (Hsub & Hcontent & Hquestions).
  split; [|split]; [exact Hsub| |exact Hquestions].
  intros key r Hkey. simpl in Hkey. unfold upsert_content in Hkey.
  apply upsert_rows_from in Hkey as [Hin|Hold].
  - rewrite Forall_forall in Hrows. rewrite (Hrows r Hin). exact Hsid.
  - exact (Hcontent key r Hold).
Qed.

Lemma referential_with_questions rows sid s :
  Forall (fun r => q_subtopic_id r = sid) rows -> subtopic_stored s sid ->
  referential s -> referential (with_questions rows s).
Proof.
  intros Hrows Hsid (Hsub & Hcontent & Hquestions).
  split; [|split]; [exact Hsub|exact Hcontent|].
  intros h r Hh. simpl in Hh. unfold upsert_questions in Hh.
  apply upsert_rows_from in Hh as [Hin|Hold].
  - rewrite Forall_forall in Hrows. rewrite (Hrows r Hin). exact Hsid.
  - exact (Hquestions h r Hold).
Qed.

Lemma replay_rows_of_subtopic sid evs s :
  Forall (rows_of_subtopic sid) evs ->
  same_hierarchy (replay s evs) s /\
  (referential s -> subtopic_stored s sid -> referential (replay s evs)).
Proof.
  intros Hevs. revert s. induction Hevs as [|e evs He _ IH]; intros s.
  - split; [apply same_hierarchy_refl|auto].
  - change (replay s (e :: evs)) with (replay (replay_step s e) evs).
    destruct (IH (replay_step s e)) as [Hsame Href].
    assert (same_hierarchy (replay_step s e) s
            /\ (referential s -> subtopic_stored s sid ->
                referential (replay_step s e) /\ subtopic_stored (replay_step s e) sid))
      as [Hstep Hrefstep].
    { destruct e as [| |r b [|]]; try (split; [apply same_hierarchy_refl|auto]).
      destruct r; simpl in He; try contradiction.
      - split; [repeat split|]. intros Hr Hs. split; [|exact Hs].
        eapply referential_with_content; eauto.
      - split; [repeat split|]. intros Hr Hs. split; [|exact Hs].
        eapply referential_with_questions; eauto. }
    split; [eapply same_hierarchy_trans; eassumption|].
    intros Hr Hs. destruct (Hrefstep Hr Hs). auto.
Qed.

Lemma content_file_rows_of_subtopic sid name file :
  emits (rows_of_subtopic sid) (fun _ => True)
    (ContentIngestion.ingest_file sid name file).
Proof.
  apply emits_content_file with (P := fun r => c_subtopic_id r = sid); simpl; auto.
  intros data batch entry _ _ Hbatch. apply emits_content_level; auto.
Qed.

Lemma question_file_rows_of_subtopic sid name file :
  emits (rows_of_subtopic sid) (fun _ => True)
    (QuestionIngestion.ingest_file sid name file).
Proof.
  apply emits_question_file with (P := fun r => q_subtopic_id r = sid); simpl; auto.
  intros data levels batch entry _ _ _ Hbatch.
  apply emits_question_level; simpl; auto.
Qed.

Lemma registered_covers root s s' :
  covers s s' -> registered root s -> registered root s'.
Proof.
  intros [Ht Hs] Hreg t Hin. destruct (Hreg t Hin) as (tid & Htid & Hsubs).
  exists tid. split; [eapply lookup_weaken; eassumption|].
  intros sub Hsub. destruct (Hsubs sub Hsub) as [sid Hsid]. exists sid.
  eapply lookup_weaken; eassumption.
Qed.

(** ** The traversal, as triples *)

Section Traversal.
Context (select : subtopic_folder -> yaml_file).
Context (ingest_file : nat -> string -> yaml_file -> M unit).
Context (file_tracked : forall sid name file, tracked (ingest_file sid name file)).
Context (file_rows : forall sid name file,
            emits (rows_of_subtopic sid) (fun _ => True) (ingest_file sid name file)).

Lemma file_keeps_hierarchy sid name file w :
  same_hierarchy (db (ingest_file sid name file w).2) (db w).
Proof.
  destruct (tracked_new_events _ w (file_tracked sid name file)) as (_ & -> & _).
  eapply replay_rows_of_subtopic, emits_events, file_rows.
Qed.

Lemma hoare_file (P : store -> Prop) sid name file :
  (forall s s', same_hierarchy s' s -> P s -> P s') ->
  hoare P (ingest_file sid name file) (fun _ => P) P.
Proof.
  intros HP w Hw.
  pose proof (HP _ _ (file_keeps_hierarchy sid name file w) Hw).
  destruct (ingest_file sid name file w).1; assumption.
Qed.

Lemma hoare_file_references tid name' sid name file :
  hoare (fun s => (referential s /\ topics s !! name' = Some tid)
                  /\ subtopics s !! (tid, name) = Some sid)
    (ingest_file sid name file)
    (fun _ s => referential s /\ topics s !! name' = Some tid)
    (fun s => referential s /\ topics s !! name' = Some tid).
Proof.
  intros w [[Href Htid] Hsid].
  destruct (file_keeps_hierarchy sid name file w) as (Et & _).
  assert (referential (db (ingest_file sid name file w).2)) as Href'.
  { destruct (tracked_new_events _ w (file_tracked sid name file)) as (_ & -> & _).
    eapply replay_rows_of_subtopic; [eapply emits_events, file_rows|exact Href|].
    exists (tid, name). exact Hsid. }
  rewrite <- Et in Htid.
  destruct (ingest_file sid name file w).1; auto.
Qed.

Lemma traverse_keeps_references root :
  hoare referential (traverse select ingest_file root)
    (fun _ => referential) referential.
Proof.
  unfold traverse.
  apply hoare_bind with (Q := fun _ => referential); [|intros []; apply hoare_emit].
  apply hoare_for_each. intros t _. unfold topic_step.
  eapply hoare_bind.
  { apply hoare_get_or_create_topic. intros s. apply referential_with_topic. }
  intros tid. simpl.
  eapply hoare_weaken with
    (P := fun s => referential s /\ topics s !! topic_folder_name t = Some tid)
    (Q := fun _ s => referential s /\ topics s !! topic_folder_name t = Some tid)
    (R := fun s => referential s /\ topics s !! topic_folder_name t = Some tid);
    [|auto|intros _ s [? _]; auto|intros s [? _]; auto].
  eapply hoare_bind; [apply hoare_emit|]. intros [].
  apply hoare_for_each. intros sub _. unfold subtopic_step.
  eapply hoare_bind.
  { apply hoare_get_or_create_subtopic. intros s [Href Htid]. split.
    - apply referential_with_subtopic; [|exact Href].
      exists (topic_folder_name t). exact Htid.
    - eapply lookup_weaken; [exact Htid|]. apply covers_with_subtopic. }
  intros sid. simpl.
  eapply hoare_bind; [apply hoare_emit|]. intros [].
  apply hoare_file_references.
Qed.

Lemma traverse_registers root :
  hoare (fun _ => True) (traverse select ingest_file root)
    (fun _ => registered root) (fun _ => True).
Proof.
  unfold traverse.
  apply hoare_bind with (Q := fun _ => registered root); [|intros []; apply hoare_emit].
  apply hoare_weaken with
    (P := registered []) (Q := fun _ => registered ([] ++ root)) (R := fun _ => True);
    [|intros s _ t Ht; inversion Ht|auto|auto].
  apply (hoare_for_each_from registered (fun _ => True) [] root).
  intros before t after _. unfold topic_step.
  apply hoare_bind with
    (Q := fun tid s => registered before s
                       /\ topics s !! topic_folder_name t = Some tid).
  { apply hoare_weaken with
      (P := registered before)
      (Q := fun tid s => registered before s
                         /\ topics s !! topic_folder_name t = Some tid)
      (R := registered before); auto.
    apply hoare_get_or_create_topic.
    intros s. apply registered_covers, covers_with_topic. }
  intros tid. simpl.
  eapply hoare_bind; [apply hoare_emit|]. intros [].
  set (J := fun (treated : list subtopic_folder) (s : store) =>
              registered before s /\
              topics s !! topic_folder_name t = Some tid /\
              forall sub, sub ∈ treated ->
                is_Some (subtopics s !! (tid, subtopic_folder_name sub))).
  assert (forall treated s s', covers s s' -> J treated s -> J treated s') as Jcovers.
  { intros treated s s' Hcov (Hreg & Htid & Hsubs). split; [|split].
    - eapply registered_covers; eassumption.
    - eapply lookup_weaken; [exact Htid|apply Hcov].
    - intros sub Hsub. destruct (Hsubs sub Hsub) as [sid Hsid]. exists sid.
      eapply lookup_weaken; [exact Hsid|apply Hcov]. }
  apply hoare_weaken with
    (P := J []) (Q := fun _ => J ([] ++ subtopic_folders t)) (R := fun _ => True);
    [|intros s [Hreg Htid]; split; [exact Hreg|split; [exact Htid|]];
      intros sub Hsub; inversion Hsub| |auto].
  2:{ intros _ s (Hreg & Htid & Hsubs) t' Ht'.
      apply elem_of_app in Ht' as [Ht'|Ht']; [apply Hreg; exact Ht'|].
      apply list_elem_of_singleton in Ht' as ->. exists tid. auto. }
  apply (hoare_for_each_from J (fun _ => True) [] (subtopic_folders t)).
  intros treated sub untreated _. unfold subtopic_step.
  apply hoare_bind with
    (Q := fun sid s => J treated s
                       /\ subtopics s !! (tid, subtopic_folder_name sub) = Some sid).
  { apply hoare_weaken with
      (P := J treated)
      (Q := fun sid s => J treated s
                         /\ subtopics s !! (tid, subtopic_folder_name sub) = Some sid)
      (R := J treated); auto.
    apply hoare_get_or_create_subtopic.
    intros s. apply Jcovers, covers_with_subtopic. }
  intros sid. simpl.
  eapply hoare_bind; [apply hoare_emit|]. intros [].
  eapply hoare_weaken with (R := J (treated ++ [sub]));
    [apply hoare_file with (P := J (treated ++ [sub]))| |auto..].
  - intros s s' (Et & Es & _) (Hreg & Htid & Hsubs). unfold J.
    rewrite Et, Es. split; [|split; [exact Htid|exact Hsubs]].
    intros t' Ht'. destruct (Hreg t' Ht') as (tid' & Htid' & Hsubs').
    exists tid'. rewrite Et, Es. auto.
  - intros s [(Hreg & Htid & Hsubs) Hsid]. split; [exact Hreg|split; [exact Htid|]].
    intros sub' Hsub'. apply elem_of_app in Hsub' as [Hsub'|Hsub']; [auto|].
    apply list_elem_of_singleton in Hsub' as ->. eauto.
Qed.

Lemma traverse_creates_nothing root s0 :
  registered root s0 ->
  hoare (fun s => same_hierarchy s s0) (traverse select ingest_file root)
    (fun _ s => same_hierarchy s s0) (fun s => same_hierarchy s s0).
Proof.
  intros Hreg. unfold traverse.
  apply hoare_bind with (Q := fun _ s => same_hierarchy s s0);
    [|intros []; apply hoare_emit].
  apply hoare_for_each. intros t Ht. unfold topic_step.
  destruct (Hreg t Ht) as (tid0 & Htid0 & Hsubs).
  eapply hoare_bind.
  { apply hoare_get_or_create_topic with (P := fun s => same_hierarchy s s0).
    intros s Hs. rewrite (with_topic_present _ tid0); [exact Hs|].
    destruct Hs as (-> & _). exact Htid0. }
  intros tid. simpl.
  apply (hoare_assume (tid = tid0)).
  { intros s [(Et & _) Htid]. rewrite Et in Htid. congruence. }
  intros ->.
  eapply hoare_weaken with
    (P := fun s => same_hierarchy s s0)
    (Q := fun _ s => same_hierarchy s s0)
    (R := fun s => same_hierarchy s s0); [|intros s [? _]; auto|auto|auto].
  eapply hoare_bind; [apply hoare_emit|]. intros [].
  apply hoare_for_each. intros sub Hsub. unfold subtopic_step.
  destruct (Hsubs sub Hsub) as [sid0 Hsid0].
  eapply hoare_bind.
  { apply hoare_get_or_create_subtopic with (P := fun s => same_hierarchy s s0).
    intros s Hs. rewrite (with_subtopic_present _ _ sid0); [exact Hs|].
    destruct Hs as (_ & -> & _). exact Hsid0. }
  intros sid. simpl.
  eapply hoare_bind; [apply hoare_emit|]. intros [].
  eapply hoare_weaken;
    [apply hoare_file with (P := fun s => same_hierarchy s s0)|intros s [? _]; auto|auto..].
  intros s s' Hs' Hs. eapply same_hierarchy_trans; eassumption.
Qed.

End Traversal.

Lemma referential_empty : referential empty_store.
Proof.
  split; [|split]; intros k r Hk; simpl in Hk; rewrite lookup_empty in Hk;
    discriminate.
Qed.

(** X14. Both scripts keep the references between the tables: when every
    subtopic of the store belongs to a stored topic and every content row and
    question row to a stored subtopic, the same holds after a run, whatever
    the input files and the failures of the store, and whether the run
    returns or raises. *)
Theorem run_keeps_references (root : list topic_folder) (w : world)
    (Href : referential (db w)) :
  referential (db (ContentIngestion.ingest root w).2) /\
  referential (db (QuestionIngestion.ingest root w).2).
Proof.
  split.
  - pose proof (traverse_keeps_references chunks_by_level
                  ContentIngestion.ingest_file tracked_content_file
                  content_file_rows_of_subtopic root w Href) as H.
    rewrite content_ingest_traverse.
    destruct (traverse _ _ root w).1; exact H.
  - pose proof (traverse_keeps_references questions_by_level
                  QuestionIngestion.ingest_file tracked_question_file
                  question_file_rows_of_subtopic root w Href) as H.
    rewrite question_ingest_traverse.
    destruct (traverse _ _ root w).1; exact H.
Qed.

Lemma run_keeps_references_witness :
  referential (db (ContentIngestion.ingest two_subtopics (fresh [])).2) /\
  referential
    (db (QuestionIngestion.ingest two_subtopics
           (fresh [false; false; false; false; true; true; true])).2).
Proof.
  split.
  - exact (proj1 (run_keeps_references two_subtopics (fresh []) referential_empty)).
  - exact (proj2 (run_keeps_references two_subtopics
                    (fresh [false; false; false; false; true; true; true])
                    referential_empty)).
Defined.

Lemma content_run_registers root w :
  (ContentIngestion.ingest root w).1 = Ok tt ->
  registered root (db (ContentIngestion.ingest root w).2).
Proof.
  intros Hok.
  pose proof (traverse_registers chunks_by_level
                ContentIngestion.ingest_file tracked_content_file
                content_file_rows_of_subtopic root w I) as H.
  rewrite content_ingest_traverse in Hok |- *. rewrite Hok in H. exact H.
Qed.

Lemma question_run_registers root w :
  (QuestionIngestion.ingest root w).1 = Ok tt ->
  registered root (db (QuestionIngestion.ingest root w).2).
Proof.
  intros Hok.
  pose proof (traverse_registers questions_by_level
                QuestionIngestion.ingest_file tracked_question_file
                question_file_rows_of_subtopic root w I) as H.
  rewrite question_ingest_traverse in Hok |- *. rewrite Hok in H. exact H.
Qed.

(** X15. A run that returns has registered the whole hierarchy: every
    topic folder has its row, and every subtopic folder its row under the
    identifier of its topic, whatever the per-level files hold (a subtopic
    whose file is missing or is refused is registered like the others) and
    whatever the store failed on the way. *)
Theorem returned_run_registered_every_folder (root : list topic_folder) (w : world) :
  ((ContentIngestion.ingest root w).1 = Ok tt ->
   registered root (db (ContentIngestion.ingest root w).2)) /\
  ((QuestionIngestion.ingest root w).1 = Ok tt ->
   registered root (db (QuestionIngestion.ingest root w).2)).
Proof.
  split; [apply content_run_registers|apply question_run_registers].
Qed.

Lemma returned_run_registered_every_folder_witness :
  registered odd_files (db (ContentIngestion.ingest odd_files (fresh [])).2) /\
  registered odd_files
    (db (QuestionIngestion.ingest odd_files (fresh [false; false; false])).2).
Proof.
  split.
  - apply (proj1 (returned_run_registered_every_folder odd_files (fresh []))).
    vm_compute. reflexivity.
  - apply (proj2 (returned_run_registered_every_folder odd_files
                    (fresh [false; false; false]))).
    vm_compute. reflexivity.
Defined.

(** X16. The hierarchy is created once: on a store that holds the rows of
    every topic folder and subtopic folder, as a returned run of either
    script leaves it, a run of either script creates no topic and no
    subtopic and hands out no identifier, whatever the input files and the
    failures of the store, and whether the run returns or raises. *)
Theorem registered_hierarchy_is_reused (root : list topic_folder) (w : world)
    (Hreg : registered root (db w)) :
  same_hierarchy (db (ContentIngestion.ingest root w).2) (db w) /\
  same_hierarchy (db (QuestionIngestion.ingest root w).2) (db w).
Proof.
  split.
  - pose proof (traverse_creates_nothing chunks_by_level
                  ContentIngestion.ingest_file tracked_content_file
                  content_file_rows_of_subtopic root (db w) Hreg w
                  (same_hierarchy_refl _)) as H.
    rewrite content_ingest_traverse.
    destruct (traverse _ _ root w).1; exact H.
  - pose proof (traverse_creates_nothing questions_by_level
                  QuestionIngestion.ingest_file tracked_question_file
                  question_file_rows_of_subtopic root (db w) Hreg w
                  (same_hierarchy_refl _)) as H.
    rewrite question_ingest_traverse.
    destruct (traverse _ _ root w).1; exact H.
Qed.

Lemma registered_hierarchy_is_reused_witness :
  same_hierarchy
    (db (QuestionIngestion.ingest odd_files
           (ContentIngestion.ingest odd_files (fresh [])).2).2)
    (db (ContentIngestion.ingest odd_files (fresh [])).2).
Proof.
  assert ((ContentIngestion.ingest odd_files (fresh [])).1 = Ok tt) as Hok
    by (vm_compute; reflexivity).
  exact (proj2 (registered_hierarchy_is_reused odd_files
                  (ContentIngestion.ingest odd_files (fresh [])).2
                  (content_run_registers odd_files (fresh []) Hok))).
Defined.

(** ** The size of the batches *)

Lemma emits_for_fold_from {A B} E (Inv : nat -> B -> Prop) (xs : list A) acc body n :
  Inv n acc ->
  (forall i acc x, Inv i acc -> x ∈ xs -> emits E (Inv (S i)) (body acc x)) ->
  emits E (Inv (n + length xs)%nat) (for_fold xs acc body).
Proof.
  revert n acc. induction xs as [|x xs IH]; intros n acc Hacc Hbody; simpl.
  - apply emits_ret. rewrite Nat.add_0_r. exact Hacc.
  - eapply emits_bind.
    + apply Hbody; [exact Hacc|left].
    + intros acc' Hacc'. rewrite Nat.add_succ_r.
      apply (IH (S n)); [exact Hacc'|].
      intros i acc0 y H0 Hy. apply Hbody; [exact H0|right; exact Hy].
Qed.

Lemma content_level_grows_by_one E sid data batch entry i :
  (length batch <= i)%nat ->
  emits E (fun batch' => (length batch' <= S i)%nat)
    (ContentIngestion.ingest_level sid data batch entry).
Proof.
  intros Hbatch. destruct entry as [yl dl]. unfold ContentIngestion.ingest_level.
  eapply emits_bind; [apply emits_lift with (Q := fun _ => True); auto|].
  intros present _. destruct (negb present); [apply emits_ret; lia|].
  eapply emits_bind; [apply emits_lift with (Q := fun _ => True); auto|].
  intros block _.
  eapply emits_bind; [apply emits_lift with (Q := fun _ => True); auto|].
  intros title _.
  eapply emits_bind; [apply emits_lift with (Q := fun _ => True); auto|].
  intros summary _.
  apply emits_ret. rewrite length_app. simpl. lia.
Qed.

Lemma content_file_batch_sized sid name file :
  emits batch_sized (fun _ => True) (ContentIngestion.ingest_file sid name file).
Proof.
  assert (forall lvl msg, batch_sized (Log lvl msg)) as Hlog by (intros; exact I).
  unfold ContentIngestion.ingest_file. destruct file as [| |data].
  - apply emits_logging, Hlog.
  - apply emits_raise.
  - destruct (negb (is_dict data)); [apply emits_logging, Hlog|].
    eapply emits_bind.
    + apply (emits_for_fold_from batch_sized
               (fun i (batch : list content_row) => (length batch <= i)%nat)
               ContentIngestion.DIFFICULTY_MAP [] _ 0); [simpl; lia|].
      intros i acc entry Hacc _. apply content_level_grows_by_one. exact Hacc.
    + intros [|r batch] Hbatch; [apply emits_ret; exact I|].
      eapply emits_bind; [|intros _ _; apply emits_logging, Hlog].
      apply emits_content_safe_upsert; [exact Hlog| |exact I].
      intros before served. simpl in *. lia.
Qed.

Lemma question_item_keeps_buffer_short sid name dl batch q :
  (length batch < QuestionIngestion.BATCH_SIZE)%nat ->
  emits batch_sized
    (fun batch' => (length batch' < QuestionIngestion.BATCH_SIZE)%nat)
    (QuestionIngestion.ingest_question sid name dl batch q).
Proof.
  assert (forall lvl msg, batch_sized (Log lvl msg)) as Hlog by (intros; exact I).
  intros Hbatch. unfold QuestionIngestion.ingest_question.
  eapply emits_bind; [apply emits_lift with (Q := fun _ => True); auto|].
  intros t _. destruct (negb (truthy t)).
  - eapply emits_bind; [apply emits_logging, Hlog|]. intros _ _.
    apply emits_ret. exact Hbatch.
  - match goal with |- context [if ?c then _ else _] => destruct c eqn:Hfull end.
    + eapply emits_bind.
      * apply emits_question_safe_upsert; [exact Hlog| |exact I].
        intros before served. simpl. rewrite length_app. simpl. lia.
      * intros _ _. apply emits_ret. unfold QuestionIngestion.BATCH_SIZE. simpl. lia.
    + apply emits_ret. apply Nat.leb_gt in Hfull. exact Hfull.
Qed.

Lemma question_level_keeps_buffer_short sid name levels batch entry :
  (length batch < QuestionIngestion.BATCH_SIZE)%nat ->
  emits batch_sized
    (fun batch' => (length batch' < QuestionIngestion.BATCH_SIZE)%nat)
    (QuestionIngestion.ingest_level sid name levels batch entry).
Proof.
  intros Hbatch. destruct entry as [yl dl]. unfold QuestionIngestion.ingest_level.
  eapply emits_bind; [apply emits_lift with (Q := fun _ => True); auto|].
  intros present _. destruct (negb present); [apply emits_ret; exact Hbatch|].
  eapply emits_bind; [apply emits_lift with (Q := fun _ => True); auto|].
  intros block _.
  eapply emits_bind; [apply emits_lift with (Q := fun _ => True); auto|].
  intros questions _.
  eapply emits_bind; [apply emits_lift with (Q := fun _ => True); auto|].
  intros qs _.
  apply emits_for_fold; [exact Hbatch|].
  intros acc q Hacc _. apply question_item_keeps_buffer_short. exact Hacc.
Qed.

Lemma question_file_batch_sized sid name file :
  emits batch_sized (fun _ => True) (QuestionIngestion.ingest_file sid name file).
Proof.
  assert (forall lvl msg, batch_sized (Log lvl msg)) as Hlog by (intros; exact I).
  unfold QuestionIngestion.ingest_file.
  destruct file as [| |data]; try (apply emits_logging, Hlog).
  match goal with |- context [if ?c then _ else _] => destruct c end;
    [apply emits_logging, Hlog|].
  eapply emits_bind; [apply emits_lift with (Q := fun _ => True); auto|].
  intros levels _.
  eapply emits_bind.
  - apply (emits_for_fold batch_sized
             (fun batch : list question_row =>
                (length batch < QuestionIngestion.BATCH_SIZE)%nat));
      [unfold QuestionIngestion.BATCH_SIZE; simpl; lia|].
    intros acc entry Hacc _. apply question_level_keeps_buffer_short. exact Hacc.
  - intros [|r batch] Hbatch; [apply emits_ret; exact I|].
    eapply emits_bind; [|intros _ _; apply emits_logging, Hlog].
    apply emits_question_safe_upsert; [exact Hlog| |exact I].
    intros before served. simpl in *. lia.
Qed.

(** X17. Whatever the input files and the failures of the store, no
    request of a run carries an empty batch or an oversized one: a batch of
    content rows holds one to three rows (one per level of the table, the
    content script never consulting [BATCH_SIZE]) and a batch of question
    rows one to [BATCH_SIZE] = 10 rows. *)
Theorem batches_never_empty_nor_oversized (root : list topic_folder) (w : world) :
  Forall batch_sized (new_events (ContentIngestion.ingest root) w) /\
  Forall batch_sized (new_events (QuestionIngestion.ingest root) w).
Proof.
  split; eapply emits_events.
  - rewrite content_ingest_traverse. apply emits_traverse.
    + intros; exact I.
    + intros [] ? ? ?; simpl; try exact I; discriminate.
    + intros t s sid _ _. apply content_file_batch_sized.
  - rewrite question_ingest_traverse. apply emits_traverse.
    + intros; exact I.
    + intros [] ? ? ?; simpl; try exact I; discriminate.
    + intros t s sid _ _. apply question_file_batch_sized.
Qed.

(** ** The record of completion *)

Lemma unfinished_get_or_create_topic name :
  emits unfinished (fun _ => True) (get_or_create_topic name).
Proof.
  apply emits_try.
  - eapply emits_bind; [apply emits_execute; discriminate|]. intros _ _.
    eapply emits_bind; [apply emits_execute; discriminate|]. intros [id|] _.
    + apply emits_ret. exact I.
    + apply emits_raise.
  - intros e. eapply emits_bind; [apply emits_emit; discriminate|]. intros _ _.
    apply emits_raise.
Qed.

Lemma unfinished_get_or_create_subtopic tid name :
  emits unfinished (fun _ => True) (get_or_create_subtopic tid name).
Proof.
  apply emits_try.
  - eapply emits_bind; [apply emits_execute; discriminate|]. intros _ _.
    eapply emits_bind; [apply emits_execute; discriminate|]. intros [id|] _.
    + apply emits_ret. exact I.
    + apply emits_raise.
  - intros e. eapply emits_bind; [apply emits_emit; discriminate|]. intros _ _.
    apply emits_raise.
Qed.

Lemma unfinished_attempts (r : request) (msg : message) :
  msg <> Completed ->
  emits unfinished (fun _ => True)
    (retry 3 2 (try_except (execute r) (fun e => logging ERROR msg ;;; raise e))).
Proof.
  intros Hmsg. apply emits_retry; try discriminate.
  apply emits_try.
  - eapply emits_weaken; [apply emits_execute; discriminate|]. auto.
  - intros e. eapply emits_bind; [apply emits_emit; discriminate|]. intros _ _.
    apply emits_raise.
Qed.

Lemma unfinished_content_file sid name file :
  emits unfinished (fun _ => True) (ContentIngestion.ingest_file sid name file).
Proof.
  unfold ContentIngestion.ingest_file. destruct file as [| |data].
  - apply emits_emit. discriminate.
  - apply emits_raise.
  - destruct (negb (is_dict data)); [apply emits_emit; discriminate|].
    eapply emits_bind.
    + apply (emits_for_fold unfinished (Forall (fun _ => True))); [constructor|].
      intros acc entry Hacc _. apply emits_content_level; auto.
    + intros [|r batch] _; [apply emits_ret; exact I|].
      eapply emits_bind; [|intros _ _; apply emits_emit; discriminate].
      apply unfinished_attempts. discriminate.
Qed.

Lemma unfinished_question_file sid name file :
  emits unfinished (fun _ => True) (QuestionIngestion.ingest_file sid name file).
Proof.
  unfold QuestionIngestion.ingest_file.
  destruct file as [| |data]; try (apply emits_emit; discriminate).
  match goal with |- context [if ?c then _ else _] => destruct c end;
    [apply emits_emit; discriminate|].
  eapply emits_bind; [apply emits_lift with (Q := fun _ => True); auto|].
  intros levels _.
  eapply emits_bind.
  - apply (emits_for_fold unfinished (fun _ => True)); [exact I|].
    intros acc [yl dl] _ _. unfold QuestionIngestion.ingest_level.
    eapply emits_bind; [apply emits_lift with (Q := fun _ => True); auto|].
    intros present _. destruct (negb present); [apply emits_ret; exact I|].
    eapply emits_bind; [apply emits_lift with (Q := fun _ => True); auto|].
    intros block _.
    eapply emits_bind; [apply emits_lift with (Q := fun _ => True); auto|].
    intros questions _.
    eapply emits_bind; [apply emits_lift with (Q := fun _ => True); auto|].
    intros qs _.
    apply emits_for_fold; [exact I|].
    intros batch q _ _. unfold QuestionIngestion.ingest_question.
    eapply emits_bind; [apply emits_lift with (Q := fun _ => True); auto|].
    intros t _. destruct (negb (truthy t)).
    + eapply emits_bind; [apply emits_emit; discriminate|]. intros _ _.
      apply emits_ret. exact I.
    + match goal with |- context [if ?c then _ else _] => destruct c end;
        [|apply emits_ret; exact I].
      eapply emits_bind; [|intros _ _; apply emits_ret; exact I].
      apply unfinished_attempts. discriminate.
  - intros [|r batch] _; [apply emits_ret; exact I|].
    eapply emits_bind; [|intros _ _; apply emits_emit; discriminate].
    apply unfinished_attempts. discriminate.
Qed.

Lemma traverse_completion select ingest_file root w :
  (forall sid name file,
      emits unfinished (fun _ => True) (ingest_file sid name file)) ->
  exists loop,
    Forall unfinished loop /\
    new_events (traverse select ingest_file root) w
    = loop ++ match (traverse select ingest_file root w).1 with
              | Ok _ => [Log INFO Completed]
              | Raise _ => []
              end.
Proof.
  intros Hfile.
  assert (emits unfinished (fun _ => True)
            (for_each root (topic_step select ingest_file))) as Hloop.
  { apply emits_for_each. intros t _. unfold topic_step.
    eapply emits_bind; [apply unfinished_get_or_create_topic|]. intros tid _.
    eapply emits_bind; [apply emits_emit; discriminate|]. intros _ _.
    apply emits_for_each. intros s _. unfold subtopic_step.
    eapply emits_bind; [apply unfinished_get_or_create_subtopic|]. intros sid _.
    eapply emits_bind; [apply emits_emit; discriminate|]. intros _ _.
    apply Hfile. }
  destruct (Hloop w) as [(loop & Htrace & Hunfinished) _].
  exists loop. split; [exact Hunfinished|].
  apply new_events_app. unfold traverse, bind.
  destruct (for_each root (topic_step select ingest_file) w) as [[[]|e] w1];
    simpl in *; rewrite Htrace.
  - rewrite app_assoc. reflexivity.
  - rewrite app_nil_r. reflexivity.
Qed.

(** X18. The record [Ingestion completed] ([Questions ingestion completed]
    in the question script) is the last thing a run does and nothing else
    logs it: what a run adds to the trace is the events of its loop, none of
    which is that record, followed by that record when the run returns and
    by nothing when it raises.  So the record is in the log of a run exactly
    when the run returned. *)
Theorem completion_is_logged_last_and_only_on_return
    (root : list topic_folder) (w : world) :
  (exists loop,
     Forall unfinished loop /\
     new_events (ContentIngestion.ingest root) w
     = loop ++ match (ContentIngestion.ingest root w).1 with
               | Ok _ => [Log INFO Completed]
               | Raise _ => []
               end) /\
  (exists loop,
     Forall unfinished loop /\
     new_events (QuestionIngestion.ingest root) w
     = loop ++ match (QuestionIngestion.ingest root w).1 with
               | Ok _ => [Log INFO Completed]
               | Raise _ => []
               end).
Proof.
  split.
  - rewrite content_ingest_traverse. apply traverse_completion.
    apply unfinished_content_file.
  - rewrite question_ingest_traverse. apply traverse_completion.
    apply unfinished_question_file.
Qed.

(** ** The serialisation can be read back *)

Lemma join_cons sep (p : list ascii) ps :
  join sep (p :: ps)
  = p ++ match ps with [] => [] | _ :: _ => sep ++ join sep ps end.
Proof. destruct ps; simpl; rewrite ?app_nil_r; reflexivity. Qed.




Lemma uint_digits d :
  Forall (fun c => is_digit c = true) (chars (NilEmpty.string_of_uint d)).
Proof. induction d; constructor; auto. Qed.



Lemma json_int_shape z :
  exists d c rest,
    chars (NilEmpty.string_of_uint d) = c :: rest /\ is_digit c = true /\
    (Z.to_int z = Pos d /\ json_int z = chars (NilEmpty.string_of_uint d) \/
     Z.to_int z = Neg d /\ json_int z = "-"%char :: chars (NilEmpty.string_of_uint d)).
Proof.
  assert (forall d, d <> Nil ->
            exists c rest, chars (NilEmpty.string_of_uint d) = c :: rest
                           /\ is_digit c = true) as Hhead.
  { intros d Hd. pose proof (uint_digits d) as Hall.
    destruct d; try congruence; simpl in *; apply Forall_cons in Hall as [Hc _]; eauto. }
  unfold json_int. destruct z as [|p|p]; simpl.
  - exists zero, "0"%char, []. auto.
  - destruct (Hhead (Pos.to_uint p) (DecimalPos.Unsigned.to_uint_nonnil p)) as (c & rest & Hc & Hd).
    exists (Pos.to_uint p), c, rest. auto.
  - destruct (Hhead (Pos.to_uint p) (DecimalPos.Unsigned.to_uint_nonnil p)) as (c & rest & Hc & Hd).
    exists (Pos.to_uint p), c, rest. auto.
Qed.




Lemma member_app kv t :
  member kv ++ t = json_string kv.1 ++ ":"%char :: encode kv.2 ++ t.
Proof. unfold member, json_member. simpl. rewrite <- app_assoc. reflexivity. Qed.



Lemma insert_item_map {B C} (g : B -> C) (kv : string * B) l :
  insert_item (kv.1, g kv.2) (map (fun kv => (kv.1, g kv.2)) l)
  = map (fun kv => (kv.1, g kv.2)) (insert_item kv l).
Proof.
  induction l as [|kv' l IH]; simpl; [reflexivity|].
  destruct (String.leb kv.1 kv'.1); simpl; [reflexivity|].
  rewrite IH. reflexivity.
Qed.

Lemma sort_items_map {B C} (g : B -> C) (l : list (string * B)) :
  sort_items (map (fun kv => (kv.1, g kv.2)) l)
  = map (fun kv => (kv.1, g kv.2)) (sort_items l).
Proof.
  unfold sort_items. induction l as [|kv l IH]; simpl; [reflexivity|].
  rewrite IH. apply insert_item_map.
Qed.

Lemma insert_item_sorted {B} (kv : string * B) l : insert_item kv l ≡ₚ kv :: l.
Proof.
  induction l as [|kv' l IH]; simpl; [reflexivity|].
  destruct (String.leb kv.1 kv'.1); [reflexivity|].
  rewrite IH. apply perm_swap.
Qed.

Lemma sort_items_sorted {B} (l : list (string * B)) : sort_items l ≡ₚ l.
Proof.
  unfold sort_items. induction l as [|kv l IH]; simpl; [reflexivity|].
  rewrite insert_item_sorted, IH. reflexivity.
Qed.

Lemma encode_dict items :
  encode (YDict items)
  = "{"%char :: join [","%char] (map member (sort_items items)) ++ ["}"%char].
Proof.
  simpl. rewrite (sort_items_map encode), map_map. reflexivity.
Qed.








(** ** The serialisation is plain text *)

Lemma digit_printable c : is_digit c = true -> printable c = true.
Proof.
  unfold is_digit, printable. intros H.
  apply andb_true_iff in H as [H1 H2]. apply N.leb_le in H1, H2.
  apply andb_true_iff. split; apply N.leb_le; lia.
Qed.

Lemma escape_char_printable c : Forall (fun c => printable c = true) (escape_char c).
Proof. destruct c as [[] [] [] [] [] [] [] []]; repeat constructor. Qed.

Lemma json_string_printable s : Forall (fun c => printable c = true) (json_string s).
Proof.
  unfold json_string. constructor; [reflexivity|].
  apply Forall_app. split; [|repeat constructor].
  induction s as [|c s IH]; simpl; [constructor|].
  apply Forall_app. split; [apply escape_char_printable|exact IH].
Qed.

Lemma join_printable parts :
  Forall (Forall (fun c => printable c = true)) parts ->
  Forall (fun c => printable c = true) (join [","%char] parts).
Proof.
  induction 1 as [|p parts Hp Hparts IH]; [constructor|].
  rewrite join_cons. apply Forall_app. split; [exact Hp|].
  destruct parts; [constructor|].
  apply Forall_app. split; [repeat constructor|exact IH].
Qed.

Lemma encode_printable v : Forall (fun c => printable c = true) (encode v).
Proof.
  induction v as [|b|z|s|xs IH|items IH] using value_ind'.
  - repeat constructor.
  - destruct b; repeat constructor.
  - simpl. destruct (json_int_shape z) as (d & c & rest & _ & _ & [[_ ->]|[_ ->]]).
    + eapply Forall_impl; [apply uint_digits|]. apply digit_printable.
    + constructor; [reflexivity|].
      eapply Forall_impl; [apply uint_digits|]. apply digit_printable.
  - apply json_string_printable.
  - simpl. constructor; [reflexivity|].
    apply Forall_app. split; [|repeat constructor].
    apply join_printable. apply Forall_fmap. exact IH.
  - rewrite encode_dict. constructor; [reflexivity|].
    apply Forall_app. split; [|repeat constructor].
    apply join_printable. apply Forall_fmap.
    rewrite (sort_items_sorted items). eapply Forall_impl; [exact IH|].
    intros [k v] Hv.
    change (Forall (fun c => printable c = true) (member (k, v))).
    rewrite <- (app_nil_r (member (k, v))), member_app, app_nil_r.
    apply Forall_app. split; [apply (json_string_printable k)|].
    constructor; [reflexivity|exact Hv].
Qed.

(** X21. Whatever the data (of the kinds of [value]), the text
    [hash_content] digests is plain printable ASCII: every character of the
    serialisation lies in [' '..'~'] (anything else in a string is written as
    an escape), so its UTF-8 encoding is one byte per character, each from
    32 to 126. *)
Theorem serialisation_is_printable_ascii (data : value) :
  Forall (fun c => printable c = true) (chars (json_dumps data)) /\
  length (utf8 (json_dumps data)) = String.length (json_dumps data) /\
  Forall (fun b => 32 <= b <= 126)%Z (utf8 (json_dumps data)).
Proof.
  assert (Forall (fun c => printable c = true) (chars (json_dumps data))) as Hchars.
  { unfold json_dumps, chars. rewrite list_ascii_of_string_of_list_ascii.
    apply encode_printable. }
  split; [exact Hchars|]. split.
  - unfold utf8, json_dumps. rewrite length_map, list_ascii_of_string_of_list_ascii.
    symmetry. apply string_of_list_ascii_length.
  - unfold utf8. apply Forall_fmap. eapply Forall_impl; [exact Hchars|].
    intros c Hc. unfold printable in Hc. simpl.
    apply andb_true_iff in Hc as [H1 H2]. apply N.leb_le in H1, H2. lia.
Qed.

(** ** The hierarchy a run leaves *)

Lemma same_hierarchy_sym s s' : same_hierarchy s s' -> same_hierarchy s' s.
Proof. intros (? & ? & ? & ?). repeat split; congruence. Qed.

Lemma same_hierarchy_with_topic name s s' :
  same_hierarchy s s' -> same_hierarchy (with_topic name s) (with_topic name s').
Proof.
  intros (Et & Es & En & Em). unfold with_topic. rewrite Et.
  destruct (topics s' !! name); repeat split; simpl; congruence.
Qed.

Lemma same_hierarchy_with_subtopic tid name s s' :
  same_hierarchy s s' ->
  same_hierarchy (with_subtopic tid name s) (with_subtopic tid name s').
Proof.
  intros (Et & Es & En & Em). unfold with_subtopic. rewrite Es.
  destruct (subtopics s' !! (tid, name)); repeat split; simpl; congruence.
Qed.

Lemma with_topic_twice name s : with_topic name (with_topic name s) = with_topic name s.
Proof. eapply with_topic_present. apply topic_after_upsert. Qed.

Lemma with_subtopic_twice tid name s :
  with_subtopic tid name (with_subtopic tid name s) = with_subtopic tid name s.
Proof. eapply with_subtopic_present. apply subtopic_after_upsert. Qed.

Section Registers.
Context (select : subtopic_folder -> yaml_file).
Context (ingest_file : nat -> string -> yaml_file -> M unit).
Context (file_tracked : forall sid name file, tracked (ingest_file sid name file)).
Context (file_rows : forall sid name file,
            emits (rows_of_subtopic sid) (fun _ => True) (ingest_file sid name file)).

Lemma traverse_registers_in_order root s0 :
  hoare (fun s => same_hierarchy s s0) (traverse select ingest_file root)
    (fun _ s => same_hierarchy s (register root s0)) (fun _ => True).
Proof.
  unfold traverse.
  apply hoare_bind with (Q := fun _ s => same_hierarchy s (register root s0));
    [|intros []; apply hoare_emit].
  apply (hoare_for_each_from
           (fun treated s => same_hierarchy s (register treated s0))
           (fun _ => True) [] root).
  intros treated t untreated _. unfold topic_step.
  set (h := register treated s0). set (name := topic_folder_name t).
  set (P := fun s => same_hierarchy s h \/ same_hierarchy s (with_topic name h)).
  apply hoare_bind with (Q := fun tid s => P s /\ topics s !! name = Some tid).
  { apply hoare_weaken with
      (P := P) (Q := fun tid s => P s /\ topics s !! name = Some tid) (R := P);
      [|intros s Hs; left; exact Hs|auto|auto].
    apply hoare_get_or_create_topic. intros s [Hs|Hs]; right.
    - apply same_hierarchy_with_topic. exact Hs.
    - rewrite <- (with_topic_twice name h). apply same_hierarchy_with_topic. exact Hs. }
  intros tid. simpl.
  set (h1 := with_topic name h).
  apply (hoare_assume (same_hierarchy h1 h1 /\ topics h1 !! name = Some tid)).
  { intros s [[Hs|Hs] Htid]; (split; [apply same_hierarchy_refl|]).
    - destruct Hs as (Et & _). rewrite Et in Htid.
      unfold h1. rewrite (with_topic_present _ _ _ Htid). exact Htid.
    - destruct Hs as (Et & _). rewrite Et in Htid. exact Htid. }
  intros [_ Htid].
  assert (register (treated ++ [t]) s0 = register_subtopics tid (subtopic_folders t) h1)
    as ->.
  { unfold register. rewrite fold_left_app.
    change (match topics h1 !! name with
            | Some tid' => register_subtopics tid' (subtopic_folders t) h1
            | None => h1
            end = register_subtopics tid (subtopic_folders t) h1).
    rewrite Htid. reflexivity. }
  apply hoare_weaken with
    (P := fun s => same_hierarchy s (register_subtopics tid [] h1))
    (Q := fun _ s => same_hierarchy s
                       (register_subtopics tid ([] ++ subtopic_folders t) h1))
    (R := fun _ => True); [| |auto|auto].
  2:{ intros s [[Hs|Hs] Htid']; simpl; [|exact Hs].
      destruct Hs as (Et & Hrest). pose proof Htid' as Hh. rewrite Et in Hh.
      unfold h1. rewrite (with_topic_present _ _ _ Hh). repeat split; tauto. }
  apply hoare_bind with
    (Q := fun _ s => same_hierarchy s (register_subtopics tid [] h1));
    [apply hoare_emit|]. intros [].
  apply (hoare_for_each_from
           (fun done s => same_hierarchy s (register_subtopics tid done h1))
           (fun _ => True) [] (subtopic_folders t)).
  intros done sub rest _. unfold subtopic_step.
  set (g := register_subtopics tid done h1). set (sname := subtopic_folder_name sub).
  assert (register_subtopics tid (done ++ [sub]) h1 = with_subtopic tid sname g) as ->.
  { unfold register_subtopics. rewrite fold_left_app. reflexivity. }
  set (J := fun s => same_hierarchy s g \/ same_hierarchy s (with_subtopic tid sname g)).
  apply hoare_bind with
    (Q := fun sid s => J s /\ subtopics s !! (tid, sname) = Some sid).
  { apply hoare_weaken with
      (P := J) (Q := fun sid s => J s /\ subtopics s !! (tid, sname) = Some sid)
      (R := J); [|intros s Hs; left; exact Hs|auto|auto].
    apply hoare_get_or_create_subtopic. intros s [Hs|Hs]; right.
    - apply same_hierarchy_with_subtopic. exact Hs.
    - rewrite <- (with_subtopic_twice tid sname g).
      apply same_hierarchy_with_subtopic. exact Hs. }
  intros sid. simpl.
  apply hoare_weaken with
    (P := fun s => same_hierarchy s (with_subtopic tid sname g))
    (Q := fun _ s => same_hierarchy s (with_subtopic tid sname g))
    (R := fun s => same_hierarchy s (with_subtopic tid sname g)); [| |auto|auto].
  2:{ intros s [[Hs|Hs] Hsid]; [|exact Hs].
      destruct Hs as (Et & Es & Hrest). pose proof Hsid as Hg. rewrite Es in Hg.
      rewrite (with_subtopic_present _ _ _ _ Hg). repeat split; tauto. }
  apply hoare_bind with
    (Q := fun _ s => same_hierarchy s (with_subtopic tid sname g));
    [apply hoare_emit|]. intros [].
  apply (hoare_file ingest_file file_tracked file_rows).
  intros s s' Hs' Hs. eapply same_hierarchy_trans; eassumption.
Qed.

End Registers.

Lemma content_run_registers_in_order root w :
  (ContentIngestion.ingest root w).1 = Ok tt ->
  same_hierarchy (db (ContentIngestion.ingest root w).2) (register root (db w)).
Proof.
  intros Hok.
  pose proof (traverse_registers_in_order chunks_by_level
                ContentIngestion.ingest_file tracked_content_file
                content_file_rows_of_subtopic root (db w) w
                (same_hierarchy_refl _)) as H.
  rewrite content_ingest_traverse in Hok |- *. rewrite Hok in H. exact H.
Qed.

Lemma question_run_registers_in_order root w :
  (QuestionIngestion.ingest root w).1 = Ok tt ->
  same_hierarchy (db (QuestionIngestion.ingest root w).2) (register root (db w)).
Proof.
  intros Hok.
  pose proof (traverse_registers_in_order questions_by_level
                QuestionIngestion.ingest_file tracked_question_file
                question_file_rows_of_subtopic root (db w) w
                (same_hierarchy_refl _)) as H.
  rewrite question_ingest_traverse in Hok |- *. rewrite Hok in H. exact H.
Qed.

(** X22. The hierarchy a returned run leaves is determined by the folders
    and the hierarchy it started from, not by the files or by the script:
    the topics and subtopics are those obtained by registering each topic
    folder, then its subtopic folders under the topic's identifier, in the
    order of the enumeration, new rows taking the next identifiers.  So on
    the same store both scripts, when they return, leave the same topics and
    subtopics with the same identifiers. *)
Theorem hierarchy_follows_the_folders (root : list topic_folder) (w : world) :
  ((ContentIngestion.ingest root w).1 = Ok tt ->
   same_hierarchy (db (ContentIngestion.ingest root w).2) (register root (db w))) /\
  ((QuestionIngestion.ingest root w).1 = Ok tt ->
   same_hierarchy (db (QuestionIngestion.ingest root w).2) (register root (db w))) /\
  ((ContentIngestion.ingest root w).1 = Ok tt ->
   (QuestionIngestion.ingest root w).1 = Ok tt ->
   same_hierarchy (db (ContentIngestion.ingest root w).2)
     (db (QuestionIngestion.ingest root w).2)).
Proof.
  split; [apply content_run_registers_in_order|].
  split; [apply question_run_registers_in_order|].
  intros Hc Hq. eapply same_hierarchy_trans.
  - apply content_run_registers_in_order. exact Hc.
  - apply same_hierarchy_sym, question_run_registers_in_order. exact Hq.
Qed.

Lemma hierarchy_follows_the_folders_witness :
  same_hierarchy
    (db (ContentIngestion.ingest odd_files (fresh [])).2)
    (db (QuestionIngestion.ingest odd_files (fresh [])).2) /\
  topics (db (ContentIngestion.ingest odd_files (fresh [])).2)
  = topics (register odd_files empty_store).
Proof.
  assert ((ContentIngestion.ingest odd_files (fresh [])).1 = Ok tt) as Hc
    by (vm_compute; reflexivity).
  assert ((QuestionIngestion.ingest odd_files (fresh [])).1 = Ok tt) as Hq
    by (vm_compute; reflexivity).
  destruct (hierarchy_follows_the_folders odd_files (fresh [])) as (H1 & _ & H3).
  split; [exact (H3 Hc Hq)|]. apply (H1 Hc).
Defined.

(** ** The two scripts in either order *)

Lemma store_ext s s' :
  same_hierarchy s s' -> content s = content s' -> questions s = questions s' ->
  s = s'.
Proof.
  intros (Et & Es & En & Em) Ec Eq. rewrite <- (store_eta s), <- (store_eta s').
  congruence.
Qed.

Lemma rerun_writes {A} (m : M A) w1 w2 :
  good m -> faults w1 = [] -> faults w2 = [] ->
  covers (db (m w1).2) (db w2) ->
  (m w2).1 = (m w1).1 /\
  same_hierarchy (db (m w2).2) (db w2) /\
  writes (new_events m w2) = writes (new_events m w1).
Proof.
  intros [_ Hrerun] Hf1 Hf2 Hcov.
  destruct (Hrerun w1 w2 Hf1 Hf2 Hcov)
    as (Hres & Hsame & n1 & n2 & Hn1 & Hn2 & Hw & _).
  rewrite (new_events_app _ _ _ Hn1), (new_events_app _ _ _ Hn2). auto.
Qed.

(** X23. The two scripts can be run in either order.  With the store
    serving its requests, when each of them returns on a store, running the
    content script and then the question script, or the question script and
    then the content script, returns both times and leaves the same store:
    the same topics and subtopics under the same identifiers, the same
    content rows and the same question rows. *)
Theorem scripts_commute (root : list topic_folder) (w : world)
    (Hfaults : faults w = [])
    (Hcontent : (ContentIngestion.ingest root w).1 = Ok tt)
    (Hquestions : (QuestionIngestion.ingest root w).1 = Ok tt) :
  let content_first :=
    QuestionIngestion.ingest root (ContentIngestion.ingest root w).2 in
  let questions_first :=
    ContentIngestion.ingest root (QuestionIngestion.ingest root w).2 in
  content_first.1 = Ok tt /\ questions_first.1 = Ok tt /\
  db content_first.2 = db questions_first.2.
Proof.
  cbv zeta.
  set (A := ContentIngestion.ingest root) in *.
  set (B := QuestionIngestion.ingest root) in *.
  assert (good A) as HgA by apply good_content_ingest.
  assert (good B) as HgB by apply good_question_ingest.
  assert (tracked A) as HtA by apply tracked_content_ingest.
  assert (tracked B) as HtB by apply tracked_question_ingest.
  destruct (tracked_new_events A w HtA) as (_ & HdA & HfA).
  destruct (tracked_new_events B w HtB) as (_ & HdB & HfB).
  destruct (HfA Hfaults) as [HfA' _]. destruct (HfB Hfaults) as [HfB' _].
  pose proof (content_run_registers_in_order root w Hcontent) as HhA.
  pose proof (question_run_registers_in_order root w Hquestions) as HhB.
  fold A in HhA. fold B in HhB.
  assert (same_hierarchy (db (A w).2) (db (B w).2)) as Hab.
  { eapply same_hierarchy_trans; [exact HhA|]. apply same_hierarchy_sym. exact HhB. }
  destruct (rerun_writes B w (A w).2 HgB Hfaults HfA') as (HrB & HsB & HwB).
  { eapply covers_same_hierarchy; [apply covers_refl|exact Hab]. }
  destruct (rerun_writes A w (B w).2 HgA Hfaults HfB') as (HrA & HsA & HwA).
  { eapply covers_same_hierarchy; [apply covers_refl|].
    apply same_hierarchy_sym. exact Hab. }
  split; [rewrite HrB; exact Hquestions|].
  split; [rewrite HrA; exact Hcontent|].
  destruct (tracked_new_events B (A w).2 HtB) as (_ & HdAB & _).
  destruct (tracked_new_events A (B w).2 HtA) as (_ & HdBA & _).
  subst A B. apply store_ext.
  - eapply same_hierarchy_trans; [exact HsB|].
    eapply same_hierarchy_trans; [exact Hab|].
    apply same_hierarchy_sym. exact HsA.
  - rewrite HdAB, replay_content.
    rewrite (spared_content _ (question_ingest_spares_content root _)).
    rewrite HdBA, replay_content. unfold content_written at 1. rewrite HwA.
    fold (content_written (new_events (ContentIngestion.ingest root) w)).
    rewrite HdB, replay_content.
    rewrite (spared_content _ (question_ingest_spares_content root w)).
    rewrite HdA, replay_content. reflexivity.
  - rewrite HdAB, replay_questions. unfold questions_written at 1. rewrite HwB.
    fold (questions_written (new_events (QuestionIngestion.ingest root) w)).
    rewrite HdA, replay_questions.
    rewrite (spared_questions _ (content_ingest_spares_questions root w)).
    rewrite HdBA, replay_questions.
    rewrite (spared_questions _ (content_ingest_spares_questions root _)).
    rewrite HdB, replay_questions. reflexivity.
Qed.

Lemma scripts_commute_witness :
  db (QuestionIngestion.ingest two_subtopics
        (ContentIngestion.ingest two_subtopics (fresh [])).2).2
  = db (ContentIngestion.ingest two_subtopics
          (QuestionIngestion.ingest two_subtopics (fresh [])).2).2.
Proof.
  assert ((ContentIngestion.ingest two_subtopics (fresh [])).1 = Ok tt) as Hc
    by (vm_compute; reflexivity).
  assert ((QuestionIngestion.ingest two_subtopics (fresh [])).1 = Ok tt) as Hq
    by (vm_compute; reflexivity).
  exact (proj2 (proj2 (scripts_commute two_subtopics (fresh []) eq_refl Hc Hq))).
Defined.

(** ** Rows and their payloads *)

Lemma content_level_rows_sound E sid data batch entry :
  Forall content_row_sound batch ->
  emits E (Forall content_row_sound)
    (ContentIngestion.ingest_level sid data batch entry).
Proof.
  intros Hbatch. destruct entry as [yl dl]. unfold ContentIngestion.ingest_level.
  eapply emits_bind; [apply emits_lift with (Q := fun _ => True); auto|].
  intros present _. destruct (negb present); [apply emits_ret; exact Hbatch|].
  eapply emits_bind; [apply emits_lift with (Q := fun _ => True); auto|].
  intros block _.
  eapply (emits_bind E (fun title => py_get block "title" YNull = Ok title)).
  { apply emits_lift. auto. }
  intros title Htitle.
  eapply (emits_bind E (fun summary => py_get block "summary" YNull = Ok summary)).
  { apply emits_lift. auto. }
  intros summary Hsummary.
  apply emits_ret. apply Forall_app. split; [exact Hbatch|].
  constructor; [|constructor]. repeat split; assumption.
Qed.

Lemma question_level_rows_sound sid name levels batch entry :
  Forall question_row_sound batch ->
  emits rows_sound (Forall question_row_sound)
    (QuestionIngestion.ingest_level sid name levels batch entry).
Proof.
  intros Hbatch. destruct entry as [yl dl]. unfold QuestionIngestion.ingest_level.
  eapply emits_bind; [apply emits_lift with (Q := fun _ => True); auto|].
  intros present _. destruct (negb present); [apply emits_ret; exact Hbatch|].
  eapply emits_bind; [apply emits_lift with (Q := fun _ => True); auto|].
  intros block _.
  eapply emits_bind; [apply emits_lift with (Q := fun _ => True); auto|].
  intros questions _.
  eapply emits_bind; [apply emits_lift with (Q := fun _ => True); auto|].
  intros qs _.
  apply emits_for_fold; [exact Hbatch|].
  clear batch Hbatch. intros batch q Hbatch _.
  unfold QuestionIngestion.ingest_question.
  eapply (emits_bind rows_sound (fun t => py_get q "type" YNull = Ok t)).
  { apply emits_lift. auto. }
  intros t Ht. destruct (negb (truthy t)) eqn:Htruthy.
  - eapply emits_bind; [apply emits_emit; exact I|]. intros _ _.
    apply emits_ret. exact Hbatch.
  - apply negb_false_iff in Htruthy.
    assert (Forall question_row_sound
              (batch ++ [{| q_subtopic_id := sid; q_difficulty := dl;
                            q_question_type := t; q_content_json := q;
                            q_question_hash := hash_content q;
                            q_is_published := true |}])) as Hall.
    { apply Forall_app. split; [exact Hbatch|].
      constructor; [|constructor]. repeat split; assumption. }
    match goal with |- context [if ?c then _ else _] => destruct c end.
    + eapply emits_bind.
      * apply emits_question_safe_upsert; [intros; exact I| |exact I].
        intros before served. exact Hall.
      * intros _ _. apply emits_ret. constructor.
    + apply emits_ret. exact Hall.
Qed.

(** X24. Whatever the input files and the failures of the store, every
    row a run sends to the store agrees with the payload it carries: a
    content row has the digest of its [content_json] and the [title] and
    [summary] that payload gives ([None] when it has none); a question row has
    the digest of its [content_json] as [question_hash] and, as
    [question_type], the [type] of that payload, which is never empty. *)
Theorem rows_agree_with_their_payload (root : list topic_folder) (w : world) :
  Forall rows_sound (new_events (ContentIngestion.ingest root) w) /\
  Forall rows_sound (new_events (QuestionIngestion.ingest root) w).
Proof.
  split; eapply emits_events.
  - rewrite content_ingest_traverse. apply emits_traverse.
    + intros; exact I.
    + intros [] ? ? ?; simpl; try exact I; discriminate.
    + intros t s sid _ _.
      apply emits_content_file with (P := content_row_sound); simpl; auto.
      intros data batch entry _ _ Hbatch.
      apply content_level_rows_sound. exact Hbatch.
  - rewrite question_ingest_traverse. apply emits_traverse.
    + intros; exact I.
    + intros [] ? ? ?; simpl; try exact I; discriminate.
    + intros t s sid _ _.
      apply emits_question_file with (P := question_row_sound); simpl; auto.
      intros data levels batch entry _ _ _ Hbatch.
      apply question_level_rows_sound. exact Hbatch.
Qed.

(** ** The conflict keys of a content batch *)

Lemma emits_for_fold_at {A B} E (Inv : nat -> B -> Prop) (xs : list A) acc body :
  Inv 0%nat acc ->
  (forall i acc x, xs !! i = Some x -> Inv i acc -> emits E (Inv (S i)) (body acc x)) ->
  emits E (Inv (length xs)) (for_fold xs acc body).
Proof.
  revert Inv acc. induction xs as [|x xs IH]; intros Inv acc Hacc Hbody; simpl.
  - apply emits_ret. exact Hacc.
  - eapply emits_bind.
    + apply (Hbody 0%nat acc x); [reflexivity|exact Hacc].
    + intros acc' Hacc'. apply (IH (fun i => Inv (S i))); [exact Hacc'|].
      intros i acc0 y Hy H0. apply (Hbody (S i)); assumption.
Qed.

Lemma content_level_keys E sid data batch entry i :
  ContentIngestion.DIFFICULTY_MAP !! i = Some entry ->
  Forall (fun r => c_subtopic_id r = sid) batch ->
  map c_difficulty batch `sublist_of` map snd (take i ContentIngestion.DIFFICULTY_MAP) ->
  emits E
    (fun batch' =>
       Forall (fun r => c_subtopic_id r = sid) batch' /\
       map c_difficulty batch'
         `sublist_of` map snd (take (S i) ContentIngestion.DIFFICULTY_MAP))
    (ContentIngestion.ingest_level sid data batch entry).
Proof.
  intros Hentry Hsid Hsub. rewrite (take_S_r _ _ _ Hentry), map_app.
  destruct entry as [yl dl]. unfold ContentIngestion.ingest_level.
  eapply emits_bind; [apply emits_lift with (Q := fun _ => True); auto|].
  intros present _. destruct (negb present).
  { apply emits_ret. split; [exact Hsid|]. apply sublist_inserts_r. exact Hsub. }
  eapply emits_bind; [apply emits_lift with (Q := fun _ => True); auto|].
  intros block _.
  eapply emits_bind; [apply emits_lift with (Q := fun _ => True); auto|].
  intros title _.
  eapply emits_bind; [apply emits_lift with (Q := fun _ => True); auto|].
  intros summary _.
  apply emits_ret. split.
  - apply Forall_app. split; [exact Hsid|]. constructor; [reflexivity|constructor].
  - rewrite map_app. apply sublist_app; [exact Hsub|reflexivity].
Qed.

Lemma content_keys_of_difficulties sid (rows : list content_row) :
  Forall (fun r => c_subtopic_id r = sid) rows ->
  map content_key rows = map (pair sid) (map c_difficulty rows).
Proof.
  induction 1 as [|r rows Hr _ IH]; simpl; [reflexivity|].
  rewrite IH. unfold content_key. rewrite Hr. reflexivity.
Qed.

Lemma content_file_keys_distinct sid name file :
  emits keys_distinct (fun _ => True) (ContentIngestion.ingest_file sid name file).
Proof.
  assert (forall lvl msg, keys_distinct (Log lvl msg)) as Hlog by (intros; exact I).
  unfold ContentIngestion.ingest_file. destruct file as [| |data].
  - apply emits_logging, Hlog.
  - apply emits_raise.
  - destruct (negb (is_dict data)); [apply emits_logging, Hlog|].
    eapply emits_bind.
    + apply (emits_for_fold_at keys_distinct
               (fun i (batch : list content_row) =>
                  Forall (fun r => c_subtopic_id r = sid) batch /\
                  map c_difficulty batch
                    `sublist_of` map snd (take i ContentIngestion.DIFFICULTY_MAP))).
      * split; [constructor|]. apply sublist_nil_l.
      * intros i acc entry Hentry [Hsid Hsub]. apply content_level_keys; assumption.
    + intros [|r batch] [Hsid Hsub]; [apply emits_ret; exact I|].
      eapply emits_bind; [|intros _ _; apply emits_logging, Hlog].
      apply emits_content_safe_upsert; [exact Hlog| |exact I].
      intros before served. unfold keys_distinct.
      rewrite (content_keys_of_difficulties sid _ Hsid).
      apply (NoDup_fmap_2 _).
      eapply sublist_NoDup; [|exact Hsub].
      apply (bool_decide_unpack _). vm_compute. exact I.
Qed.

(** X25. Whatever the input files and the failures of the store, a batch
    of content rows never holds two rows for the same conflict key
    [(subtopic_id, difficulty)]: it holds at most one row per entry of
    [DIFFICULTY_MAP], all of one subtopic, and the three stored difficulties
    are pairwise distinct.  So no upsert of the content script meets its
    conflict target twice in one request. *)
Theorem content_batch_keys_are_distinct (root : list topic_folder) (w : world) :
  Forall keys_distinct (new_events (ContentIngestion.ingest root) w).
Proof.
  eapply emits_events. rewrite content_ingest_traverse. apply emits_traverse.
  - intros; exact I.
  - intros [] ? ? ?; simpl; try exact I; discriminate.
  - intros t s sid _ _. apply content_file_keys_distinct.
Qed.

(** ** A run, cut before one of its subtopics *)

Lemma reopened_completed w1 :
  reopened {| db := db w1; trace := trace w1 ++ [Log INFO Completed];
              faults := faults w1 |} = w1.
Proof. unfold reopened. simpl. rewrite removelast_last. destruct w1. reflexivity. Qed.

Section Cut.
Context (select : subtopic_folder -> yaml_file).
Context (ingest_file : nat -> string -> yaml_file -> M unit).
Context (file_tracked : forall sid name file, tracked (ingest_file sid name file)).

Lemma tracked_subtopic_step tid s :
  tracked (subtopic_step select ingest_file tid s).
Proof.
  unfold subtopic_step. apply tracked_bind; [apply tracked_get_or_create_subtopic|].
  intros sid. apply tracked_bind; [apply tracked_logging|]. intros _.
  apply file_tracked.
Qed.

(** When the run over the folders up to a subtopic returns, the run over
    any corpus with more subtopics and topics after them is the run from
    there on, started where the first one ended. *)
Lemma cut_run before name subs w w_cut :
  traverse select ingest_file (before ++ [folder name subs]) w = (Ok tt, w_cut) ->
  exists tid,
    topics (db w_cut) !! name = Some tid /\
    forall s later after,
      traverse select ingest_file (before ++ folder name (subs ++ s :: later) :: after) w
      = (subtopic_step select ingest_file tid s ;;;
         for_each later (subtopic_step select ingest_file tid) ;;;
         for_each after (topic_step select ingest_file) ;;;
         logging INFO Completed) (reopened w_cut).
Proof.
  intros Hcut. unfold traverse in Hcut. unfold bind in Hcut at 1.
  destruct (for_each (before ++ [folder name subs]) (topic_step select ingest_file) w)
    as [[[]|e] w1] eqn:Hloop; [|discriminate].
  injection Hcut as <-. rewrite reopened_completed. cbn [db].
  rewrite for_each_app in Hloop. unfold bind in Hloop at 1.
  destruct (for_each before (topic_step select ingest_file) w)
    as [[[]|e] w0] eqn:Hbefore; [|discriminate].
  cbn [for_each] in Hloop. unfold bind in Hloop at 1.
  destruct (topic_step select ingest_file (folder name subs) w0)
    as [[[]|e] w1'] eqn:Htopic; [|discriminate].
  injection Hloop as ->.
  unfold topic_step in Htopic. cbn [folder topic_folder_name subtopic_folders] in Htopic.
  unfold bind in Htopic at 1.
  destruct (get_or_create_topic name w0) as [[tid|e] w0'] eqn:Hget; [|discriminate].
  unfold bind in Htopic at 1. cbn [logging emit] in Htopic.
  exists tid. split.
  - pose proof (hoare_get_or_create_topic (fun _ => True) name (fun _ _ => I) w0 I)
      as Hid.
    rewrite Hget in Hid. destruct Hid as [_ Hid]. cbn [fst snd] in Hid.
    match type of Htopic with for_each _ _ ?w' = _ =>
      destruct (tracked_new_events _ w'
                  (tracked_for_each subs _ (tracked_subtopic_step tid)))
        as (_ & Hdb & _)
    end.
    rewrite Htopic in Hdb. cbn [fst snd db] in Hdb. rewrite Hdb.
    eapply lookup_weaken; [exact Hid|]. apply covers_replay.
  - intros s later after.
    match goal with |- _ = ?r => remember r as rhs eqn:Hrhs end.
    unfold traverse, bind. rewrite for_each_app. unfold bind. rewrite Hbefore.
    cbn [for_each]. unfold bind, topic_step.
    cbn [folder topic_folder_name subtopic_folders].
    unfold bind. rewrite Hget. cbn [logging emit].
    rewrite for_each_app. unfold bind. rewrite Htopic.
    cbn [for_each]. subst rhs. unfold bind.
    destruct (subtopic_step select ingest_file tid s w1) as [[[]|e1] w2];
      [|reflexivity].
    destruct (for_each later (subtopic_step select ingest_file tid) w2)
      as [[[]|e2] w3]; [|reflexivity].
    reflexivity.
Qed.

End Cut.

(** ** One subtopic of a run *)


Lemma get_or_create_subtopic_resolved tid name w :
  faults w = [] ->
  get_or_create_subtopic tid name w
  = (Ok (resolved_id tid name (db w)),
     {| db := with_subtopic tid name (db w);
        trace := trace w ++ resolved tid name (db w);
        faults := [] |}).
Proof. apply get_or_create_subtopic_served. Qed.

Lemma content_subtopic_served tid s items w :
  faults w = [] -> chunks_by_level s = Loaded (YDict items) ->
  content_shaped items = true ->
  subtopic_step chunks_by_level ContentIngestion.ingest_file tid s w
  = let name := subtopic_folder_name s in
    let sid := resolved_id tid name (db w) in
    let rows := content_rows sid items in
    (Ok tt,
     {| db := with_content rows (with_subtopic tid name (db w));
        trace := trace w ++ resolved tid name (db w)
                 ++ [Log INFO (ProcessingSubtopic name sid)]
                 ++ match rows with
                    | [] => []
                    | _ :: _ =>
                        [Exec (UpsertContent rows) (with_subtopic tid name (db w)) true;
                         Log INFO (InsertedFinalBatch (length rows))]
                    end;
        faults := [] |}).
Proof.
  intros Hfaults Hfile Hshape. cbv zeta. unfold subtopic_step.
  erewrite bind_ok by (apply get_or_create_subtopic_resolved; exact Hfaults).
  unfold bind at 1. cbn [logging emit db trace faults]. rewrite Hfile.
  rewrite content_file_served by (auto; reflexivity).
  destruct (content_rows _ items) as [|r rows] eqn:Hrows.
  - cbn [db trace faults]. f_equal. unfold with_content. cbn.
    rewrite store_eta, <- !app_assoc. reflexivity.
  - cbn [db trace faults]. rewrite <- !app_assoc. reflexivity.
Qed.


(** ** A questions file whose first write the store fails three times *)




Lemma question_rows_as_table sid levels :
  question_rows sid levels
  = question_rows_as QuestionIngestion.DIFFICULTY_MAP sid levels.
Proof. reflexivity. Qed.



(** ** A questions file the store serves *)

Lemma with_questions_nil s : with_questions [] s = s.
Proof. apply store_eta. Qed.

Lemma with_questions_app rows rows' s :
  with_questions (rows ++ rows') s = with_questions rows' (with_questions rows s).
Proof. unfold with_questions. cbn. rewrite upsert_questions_app. reflexivity. Qed.

Lemma skipped_app evs evs' : skipped (evs ++ evs') = skipped evs ++ skipped evs'.
Proof. apply omap_app. Qed.

Lemma untyped_has_no_row sid dl q :
  is_dict q = true ->
  untyped q = match item_row sid dl q with None => true | Some _ => false end.
Proof.
  destruct q as [| | | | |fields]; try discriminate. intros _.
  unfold untyped, item_row. destruct (truthy _); reflexivity.
Qed.

Lemma question_items_run sid name dl qs :
  forall all flushed batch w,
    faults w = [] -> forallb is_dict qs = true ->
    packs QuestionIngestion.BATCH_SIZE all flushed batch ->
    exists flushed' buffer new,
      for_fold qs batch (QuestionIngestion.ingest_question sid name dl) w
        = (Ok buffer,
           {| db := with_questions (concat flushed') (db w);
              trace := trace w ++ new; faults := [] |}) /\
      requests new = map UpsertQuestions flushed' /\
      writes new = map UpsertQuestions flushed' /\
      skipped new = repeat name (length (List.filter untyped qs)) /\
      packs QuestionIngestion.BATCH_SIZE (all ++ omap (item_row sid dl) qs)
        (flushed ++ flushed') buffer.
Proof.
  induction qs as [|q qs IH]; intros all flushed batch w Hfaults Hqs Hpacks.
  - exists [], batch, []. cbn [for_fold concat]. rewrite with_questions_nil.
    simpl. rewrite !app_nil_r. repeat split; try apply Hpacks.
    destruct w. simpl in *. subst. reflexivity.
  - simpl in Hqs. apply andb_true_iff in Hqs as [Hq Hqs].
    cbn [for_fold omap list_omap List.filter].
    pose proof (question_item_served sid name dl batch q w Hfaults Hq) as Hstep.
    rewrite (untyped_has_no_row sid dl q Hq).
    destruct Hpacks as (Hall & Hfull & Hlen).
    destruct (item_row sid dl q) as [row|].
    + destruct (QuestionIngestion.BATCH_SIZE <=? length (batch ++ [row]))%nat eqn:Hfullb.
      * apply Nat.leb_le in Hfullb. rewrite length_app in Hfullb. simpl in Hfullb.
        destruct (IH (all ++ [row]) (flushed ++ [batch ++ [row]]) []
                    {| db := with_questions (batch ++ [row]) (db w);
                       trace := trace w
                                ++ [Exec (UpsertQuestions (batch ++ [row])) (db w) true];
                       faults := [] |})
          as (fl' & buf & new & Hrun & Hreq & Hwr & Hsk & Hp); auto.
        { split; [|split].
          - rewrite concat_app. simpl. rewrite !app_nil_r, <- Hall, app_assoc.
            reflexivity.
          - apply Forall_app. split; [exact Hfull|]. constructor; [|constructor].
            rewrite length_app. simpl. lia.
          - unfold QuestionIngestion.BATCH_SIZE. simpl. lia. }
        exists ((batch ++ [row]) :: fl'), buf,
          (Exec (UpsertQuestions (batch ++ [row])) (db w) true :: new).
        rewrite (bind_ok _ _ _ _ _ Hstep). split.
        { rewrite Hrun. cbn [db trace faults concat].
          rewrite (with_questions_app (batch ++ [row])), <- (app_assoc (trace w)).
          reflexivity. }
        split; [cbn; f_equal; exact Hreq|].
        split; [cbn; f_equal; exact Hwr|].
        split; [exact Hsk|].
        rewrite <- !app_assoc in Hp. exact Hp.
      * apply Nat.leb_gt in Hfullb.
        destruct (IH (all ++ [row]) flushed (batch ++ [row]) w)
          as (fl' & buf & new & Hrun & Hreq & Hwr & Hsk & Hp); auto.
        { split; [|split]; auto. rewrite app_assoc, Hall. reflexivity. }
        exists fl', buf, new.
        rewrite (bind_ok _ _ _ _ _ Hstep). split; [exact Hrun|].
        split; [exact Hreq|]. split; [exact Hwr|]. split; [exact Hsk|].
        rewrite <- app_assoc in Hp. exact Hp.
    + destruct (IH all flushed batch (warn (SkippingQuestion name) w))
        as (fl' & buf & new & Hrun & Hreq & Hwr & Hsk & Hp); auto.
      { split; [|split]; auto. }
      exists fl', buf, (Log WARNING (SkippingQuestion name) :: new).
      rewrite (bind_ok _ _ _ _ _ Hstep). split.
      { rewrite Hrun. cbn [db trace faults warn]. rewrite <- app_assoc. reflexivity. }
      split; [exact Hreq|]. split; [exact Hwr|].
      split; [cbn; f_equal; exact Hsk|exact Hp].
Qed.

Lemma question_levels_run sid name levels entries :
  forall all flushed batch w,
    faults w = [] -> forallb (question_level_shaped levels) entries = true ->
    packs QuestionIngestion.BATCH_SIZE all flushed batch ->
    exists flushed' buffer new,
      for_fold entries batch (QuestionIngestion.ingest_level sid name (YDict levels)) w
        = (Ok buffer,
           {| db := with_questions (concat flushed') (db w);
              trace := trace w ++ new; faults := [] |}) /\
      requests new = map UpsertQuestions flushed' /\
      writes new = map UpsertQuestions flushed' /\
      skipped new
      = repeat name
          (length (concat (map (fun entry : string * string =>
                                  List.filter untyped (level_items levels entry.1))
                             entries))) /\
      packs QuestionIngestion.BATCH_SIZE
        (all ++ question_rows_as entries sid levels) (flushed ++ flushed') buffer.
Proof.
  induction entries as [|entry entries IH]; intros all flushed batch w Hfaults Hshape Hp.
  - exists [], batch, []. cbn [for_fold concat map]. rewrite with_questions_nil.
    unfold question_rows_as. simpl. rewrite !app_nil_r. repeat split; try apply Hp.
    destruct w. simpl in *. subst. reflexivity.
  - simpl in Hshape. apply andb_true_iff in Hshape as [Hentry Hrest].
    destruct (question_items_run sid name entry.2 (level_items levels entry.1)
                all flushed batch w Hfaults
                (question_level_items_dicts _ _ Hentry) Hp)
      as (fl1 & buf1 & new1 & Hrun1 & Hreq1 & Hwr1 & Hsk1 & Hp1).
    destruct (IH _ _ _ {| db := with_questions (concat fl1) (db w);
                          trace := trace w ++ new1; faults := [] |}
                eq_refl Hrest Hp1)
      as (fl2 & buf2 & new2 & Hrun2 & Hreq2 & Hwr2 & Hsk2 & Hp2).
    exists (fl1 ++ fl2), buf2, (new1 ++ new2).
    cbn [for_fold]. erewrite bind_ok
      by (rewrite question_level_items by exact Hentry; exact Hrun1).
    split.
    { rewrite Hrun2. cbn [db trace faults].
      rewrite concat_app, with_questions_app, <- app_assoc. reflexivity. }
    split; [rewrite requests_app, Hreq1, Hreq2, map_app; reflexivity|].
    split; [rewrite writes_app, Hwr1, Hwr2, map_app; reflexivity|].
    split.
    { rewrite skipped_app, Hsk1, Hsk2. cbn [map concat].
      rewrite length_app, repeat_app. reflexivity. }
    unfold question_rows_as in *. cbn [map concat].
    rewrite !app_assoc in *. exact Hp2.
Qed.

Lemma questions_written_batches (batches : list (list question_row)) :
  concat (map question_rows_of (map UpsertQuestions batches)) = concat batches.
Proof.
  induction batches as [|b bs IH]; [reflexivity|]. cbn. rewrite IH. reflexivity.
Qed.

Lemma question_file_run sid name items levels w :
  faults w = [] -> dict_get "by_level" items = Some (YDict levels) ->
  question_shaped levels = true ->
  exists new,
    QuestionIngestion.ingest_file sid name (Loaded (YDict items)) w
    = (Ok tt,
       {| db := with_questions (question_rows sid levels) (db w);
          trace := trace w ++ new; faults := [] |}) /\
    requests new
    = map UpsertQuestions
        (chunks QuestionIngestion.BATCH_SIZE (question_rows sid levels)) /\
    questions_written new = question_rows sid levels /\
    skipped new = repeat name (length (untyped_items levels)).
Proof.
  intros Hfaults Hlevels Hshape.
  destruct (question_levels_run sid name levels QuestionIngestion.DIFFICULTY_MAP
              [] [] [] w Hfaults Hshape)
    as (fl & buf & new & Hrun & Hreq & Hwr & Hsk & Hp).
  { split; [reflexivity|]. split; [constructor|].
    unfold QuestionIngestion.BATCH_SIZE. simpl. lia. }
  cbn [app] in Hp. rewrite <- question_rows_as_table in Hp.
  fold (untyped_items levels) in Hsk.
  assert (0 < QuestionIngestion.BATCH_SIZE)%nat as Hpos
    by (unfold QuestionIngestion.BATCH_SIZE; lia).
  rewrite (chunks_packs _ _ _ _ Hpos Hp).
  destruct Hp as (Hall & _ & _). cbn [app] in Hall. rewrite <- Hall.
  unfold QuestionIngestion.ingest_file, py_in, py_getitem.
  rewrite Hlevels. cbn [negb is_dict orb]. rewrite bind_lift_ok.
  rewrite (bind_ok _ _ _ _ _ Hrun).
  destruct buf as [|r rows].
  - exists new. rewrite !app_nil_r. split; [reflexivity|].
    split; [exact Hreq|]. split; [|exact Hsk].
    unfold questions_written. rewrite Hwr. apply questions_written_batches.
  - exists (new ++ [Exec (UpsertQuestions (r :: rows))
                      (with_questions (concat fl) (db w)) true;
                    Log INFO (InsertedFinalBatch (length (r :: rows)))]).
    erewrite bind_ok by (apply question_safe_upsert_served; reflexivity).
    split.
    { unfold logging, emit. cbn [db trace faults].
      rewrite with_questions_app, <- !app_assoc. reflexivity. }
    split; [rewrite requests_app, map_app, Hreq; reflexivity|].
    split.
    + unfold questions_written. rewrite writes_app, Hwr, map_app, concat_app.
      rewrite questions_written_batches. cbn. rewrite app_nil_r. reflexivity.
    + rewrite skipped_app, Hsk. cbn. rewrite app_nil_r. reflexivity.
Qed.

Lemma question_subtopic_served tid s items levels w :
  faults w = [] ->
  questions_by_level s = Loaded (YDict items) ->
  dict_get "by_level" items = Some (YDict levels) ->
  question_shaped levels = true ->
  exists new,
    subtopic_step questions_by_level QuestionIngestion.ingest_file tid s w
    = (let name := subtopic_folder_name s in
       let sid := resolved_id tid name (db w) in
       (Ok tt,
        {| db := with_questions (question_rows sid levels)
                   (with_subtopic tid name (db w));
           trace := trace w ++ resolved tid name (db w)
                    ++ [Log INFO (ProcessingSubtopic name sid)] ++ new;
           faults := [] |})) /\
    requests new
    = map UpsertQuestions
        (chunks QuestionIngestion.BATCH_SIZE
           (question_rows (resolved_id tid (subtopic_folder_name s) (db w)) levels)) /\
    questions_written new
    = question_rows (resolved_id tid (subtopic_folder_name s) (db w)) levels /\
    skipped new = repeat (subtopic_folder_name s) (length (untyped_items levels)).
Proof.
  intros Hfaults Hfile Hlevels Hshape.
  set (name := subtopic_folder_name s) in *.
  set (sid := resolved_id tid name (db w)) in *.
  destruct (question_file_run sid name items levels
              {| db := with_subtopic tid name (db w);
                 trace := (trace w ++ resolved tid name (db w))
                          ++ [Log INFO (ProcessingSubtopic name sid)];
                 faults := [] |}
              eq_refl Hlevels Hshape) as (new & Hrun & Hreq & Hwr & Hsk).
  exists new. split; [|auto]. cbv zeta. unfold subtopic_step.
  erewrite bind_ok by (apply get_or_create_subtopic_resolved; exact Hfaults).
  unfold bind at 1. cbn [logging emit db trace faults]. rewrite Hfile.
  fold name. fold sid. rewrite Hrun. cbn [db trace faults].
  rewrite <- !app_assoc. reflexivity.
Qed.

(** ** Rows and items of a file, level by level *)

Lemma content_rows_as_table sid items :
  content_rows sid items = content_rows_as ContentIngestion.DIFFICULTY_MAP sid items.
Proof. reflexivity. Qed.

Lemma items_ingested_or_skipped sid dl qs :
  forallb is_dict qs = true ->
  (length (omap (item_row sid dl) qs) + length (List.filter untyped qs))%nat
  = length qs.
Proof.
  induction qs as [|q qs IH]; [reflexivity|].
  cbn [omap list_omap List.filter forallb].
  intros Hqs. apply andb_true_iff in Hqs as [Hq Hqs].
  rewrite (untyped_has_no_row sid dl q Hq). specialize (IH Hqs).
  destruct (item_row sid dl q); cbn [length]; lia.
Qed.

Lemma typed_item_has_row sid dl fields qs :
  In (YDict fields) qs ->
  truthy (default YNull (dict_get "type" fields)) = true ->
  In (question_row_of sid dl fields) (omap (item_row sid dl) qs).
Proof.
  intros Hin Htype. apply list_elem_of_In, list_elem_of_omap.
  exists (YDict fields). split; [apply list_elem_of_In; exact Hin|].
  simpl. rewrite Htype. reflexivity.
Qed.

Lemma untyped_item_listed fields qs :
  In (YDict fields) qs ->
  truthy (default YNull (dict_get "type" fields)) = false ->
  In (YDict fields) (List.filter untyped qs).
Proof.
  intros Hin Htype. apply filter_In. split; [exact Hin|].
  simpl. rewrite Htype. reflexivity.
Qed.

(** ** The claims about whole runs *)

(** C8. In a run of the question script whose store serves its requests,
    take any subtopic whose questions file has the documented shape,
    wherever it stands in the corpus.  The items of the file whose type is
    missing or empty are skipped one by one, each with one warning naming
    the subtopic, and the treatment of the file returns: the rows of all the
    other items, level after level in the order of the file, are sent in
    batches of [BATCH_SIZE] and are in the store afterwards; every item is
    either ingested or skipped; and the run goes on from there with the
    later subtopics and topics, so that it returns when the subtopic is the
    last one. *)
Theorem typeless_question_skipped
    (before : list topic_folder) (name : string) (subs : list subtopic_folder)
    (s : subtopic_folder) (items levels : list (string * value))
    (w w_cut : world) :
  QuestionIngestion.ingest (before ++ [folder name subs]) w = (Ok tt, w_cut) ->
  faults w_cut = [] ->
  questions_by_level s = Loaded (YDict items) ->
  dict_get "by_level" items = Some (YDict levels) ->
  question_shaped levels = true ->
  exists tid new,
    let sname := subtopic_folder_name s in
    let sid := resolved_id tid sname (db w_cut) in
    let w_s :=
      {| db := with_questions (question_rows sid levels)
                 (with_subtopic tid sname (db w_cut));
         trace := removelast (trace w_cut) ++ resolved tid sname (db w_cut)
                  ++ [Log INFO (ProcessingSubtopic sname sid)] ++ new;
         faults := [] |} in
    topics (db w_cut) !! name = Some tid /\
    (forall later after,
       QuestionIngestion.ingest
         (before ++ folder name (subs ++ s :: later) :: after) w
       = (for_each later
            (subtopic_step questions_by_level QuestionIngestion.ingest_file tid) ;;;
          for_each after
            (topic_step questions_by_level QuestionIngestion.ingest_file) ;;;
          logging INFO Completed) w_s) /\
    QuestionIngestion.ingest (before ++ [folder name (subs ++ [s])]) w
    = (Ok tt,
       {| db := db w_s; trace := trace w_s ++ [Log INFO Completed];
          faults := [] |}) /\
    skipped new = repeat sname (length (untyped_items levels)) /\
    requests new
    = map UpsertQuestions
        (chunks QuestionIngestion.BATCH_SIZE (question_rows sid levels)) /\
    questions_written new = question_rows sid levels /\
    (length (question_rows sid levels) + length (untyped_items levels))%nat
    = length (concat (map (fun entry : string * string => level_items levels entry.1)
                        QuestionIngestion.DIFFICULTY_MAP)) /\
    (forall yaml_level db_level fields,
       In (yaml_level, db_level) QuestionIngestion.DIFFICULTY_MAP ->
       In (YDict fields) (level_items levels yaml_level) ->
       if truthy (default YNull (dict_get "type" fields))
       then In (question_row_of sid db_level fields) (questions_written new)
       else In (YDict fields) (untyped_items levels)).
Proof.
  intros Hcut Hfaults Hfile Hlevels Hshape.
  rewrite question_ingest_traverse in Hcut.
  destruct (cut_run questions_by_level QuestionIngestion.ingest_file
              tracked_question_file before name subs w w_cut Hcut)
    as (tid & Htid & Hrun).
  destruct (question_subtopic_served tid s items levels (reopened w_cut)
              Hfaults Hfile Hlevels Hshape) as (new & Hstep & Hreq & Hwr & Hsk).
  cbv zeta in Hstep. cbn [reopened db trace faults] in Hstep, Hreq, Hwr.
  exists tid, new. cbv zeta.
  split; [exact Htid|].
  split.
  { intros later after. rewrite question_ingest_traverse, (Hrun s later after).
    rewrite (bind_ok _ _ _ _ _ Hstep). reflexivity. }
  split.
  { rewrite question_ingest_traverse, (Hrun s [] []).
    rewrite (bind_ok _ _ _ _ _ Hstep). reflexivity. }
  split; [exact Hsk|]. split; [exact Hreq|]. split; [exact Hwr|].
  split.
  { unfold question_rows, untyped_items, QuestionIngestion.DIFFICULTY_MAP.
    unfold question_shaped, QuestionIngestion.DIFFICULTY_MAP in Hshape.
    cbn [forallb] in Hshape.
    apply andb_true_iff in Hshape as [H1 Hshape].
    apply andb_true_iff in Hshape as [H2 Hshape].
    apply andb_true_iff in Hshape as [H3 _].
    apply question_level_items_dicts in H1, H2, H3.
    cbn [map concat fst snd] in *. rewrite !length_app. cbn [length].
    set (sid := resolved_id tid (subtopic_folder_name s) (db w_cut)).
    pose proof (items_ingested_or_skipped sid "basic" _ H1).
    pose proof (items_ingested_or_skipped sid "core" _ H2).
    pose proof (items_ingested_or_skipped sid "mastery" _ H3).
    lia. }
  intros yl dl fields Hentry Hin.
  destruct (truthy (default YNull (dict_get "type" fields))) eqn:Htype.
  - rewrite Hwr. unfold question_rows. apply in_concat.
    exists (omap (item_row (resolved_id tid (subtopic_folder_name s) (db w_cut)) dl)
              (level_items levels yl)).
    split; [|apply typed_item_has_row; assumption].
    apply in_map_iff. exists (yl, dl). split; [reflexivity|exact Hentry].
  - unfold untyped_items. apply in_concat.
    exists (List.filter untyped (level_items levels yl)).
    split; [|apply untyped_item_listed; assumption].
    apply in_map_iff. exists (yl, dl). split; [reflexivity|exact Hentry].
Qed.

Lemma typeless_question_skipped_witness :
  exists new w',
    QuestionIngestion.ingest [folder "TopicA" [SubB; SubMixed]] (fresh [])
    = (Ok tt, w') /\
    skipped new = ["SubMixed"; "SubMixed"] /\
    map q_content_json (questions_written new)
    = [YDict [("type", YStr "mcq"); ("q", YStr "Q1")];
       YDict [("type", YStr "open"); ("q", YStr "Q4")]].
Proof.
  set (w_cut := (QuestionIngestion.ingest [folder "TopicA" [SubB]] (fresh [])).2).
  assert (QuestionIngestion.ingest ([] ++ [folder "TopicA" [SubB]]) (fresh [])
          = (Ok tt, w_cut)) as Hcut by (vm_compute; reflexivity).
  assert (faults w_cut = []) as Hfaults by (vm_compute; reflexivity).
  destruct (typeless_question_skipped [] "TopicA" [SubB] SubMixed _ _
              (fresh []) w_cut Hcut Hfaults eq_refl eq_refl eq_refl)
    as (tid & new & H).
  cbv zeta in H. destruct H as (_ & _ & Hrun & Hsk & _ & Hwr & _).
  exists new. eexists. split; [exact Hrun|]. split; [exact Hsk|].
  rewrite Hwr. reflexivity.
Defined.

(** C2. In runs of the two scripts over the same corpus, with the store
    serving its requests, take any subtopic whose two files have the
    documented shape, wherever it stands in the corpus.  The content script
    sends, in one batch, exactly one row per level the chunks file holds,
    with beginner stored as basic, intermediate as core and advanced as
    advanced; the question script sends, in batches of [BATCH_SIZE], exactly
    one row per typed item, with the items of beginner stored as basic, of
    intermediate as core and of advanced as mastery.  These rows are in the
    store when the subtopic is done, and the run goes on from there.  In
    particular the block under advanced is stored as the content row
    (subtopic, advanced), while a typed item under advanced is written with
    difficulty mastery, and likewise for the two other levels. *)
Theorem difficulty_remap
    (before : list topic_folder) (name : string) (subs : list subtopic_folder)
    (s : subtopic_folder) (chunks_file questions_file levels : list (string * value))
    (wc wc_cut wq wq_cut : world) :
  ContentIngestion.ingest (before ++ [folder name subs]) wc = (Ok tt, wc_cut) ->
  QuestionIngestion.ingest (before ++ [folder name subs]) wq = (Ok tt, wq_cut) ->
  faults wc_cut = [] -> faults wq_cut = [] ->
  chunks_by_level s = Loaded (YDict chunks_file) ->
  content_shaped chunks_file = true ->
  questions_by_level s = Loaded (YDict questions_file) ->
  dict_get "by_level" questions_file = Some (YDict levels) ->
  question_shaped levels = true ->
  exists tidc tidq newq,
    let sname := subtopic_folder_name s in
    let sidc := resolved_id tidc sname (db wc_cut) in
    let sidq := resolved_id tidq sname (db wq_cut) in
    let content_sent :=
      content_rows_as
        [("beginner", "basic"); ("intermediate", "core"); ("advanced", "advanced")]
        sidc chunks_file in
    let questions_sent :=
      question_rows_as
        [("beginner", "basic"); ("intermediate", "core"); ("advanced", "mastery")]
        sidq levels in
    let wc_s :=
      {| db := with_content content_sent (with_subtopic tidc sname (db wc_cut));
         trace := removelast (trace wc_cut) ++ resolved tidc sname (db wc_cut)
                  ++ [Log INFO (ProcessingSubtopic sname sidc)]
                  ++ match content_sent with
                     | [] => []
                     | _ :: _ =>
                         [Exec (UpsertContent content_sent)
                            (with_subtopic tidc sname (db wc_cut)) true;
                          Log INFO (InsertedFinalBatch (length content_sent))]
                     end;
         faults := [] |} in
    let wq_s :=
      {| db := with_questions questions_sent (with_subtopic tidq sname (db wq_cut));
         trace := removelast (trace wq_cut) ++ resolved tidq sname (db wq_cut)
                  ++ [Log INFO (ProcessingSubtopic sname sidq)] ++ newq;
         faults := [] |} in
    topics (db wc_cut) !! name = Some tidc /\
    topics (db wq_cut) !! name = Some tidq /\
    (forall later after,
       ContentIngestion.ingest
         (before ++ folder name (subs ++ s :: later) :: after) wc
       = (for_each later
            (subtopic_step chunks_by_level ContentIngestion.ingest_file tidc) ;;;
          for_each after
            (topic_step chunks_by_level ContentIngestion.ingest_file) ;;;
          logging INFO Completed) wc_s) /\
    (forall later after,
       QuestionIngestion.ingest
         (before ++ folder name (subs ++ s :: later) :: after) wq
       = (for_each later
            (subtopic_step questions_by_level QuestionIngestion.ingest_file tidq) ;;;
          for_each after
            (topic_step questions_by_level QuestionIngestion.ingest_file) ;;;
          logging INFO Completed) wq_s) /\
    requests newq
    = map UpsertQuestions (chunks QuestionIngestion.BATCH_SIZE questions_sent) /\
    questions_written newq = questions_sent /\
    (forall yaml_level db_level block,
       In (yaml_level, db_level)
         [("beginner", "basic"); ("intermediate", "core"); ("advanced", "advanced")] ->
       dict_get yaml_level chunks_file = Some (YDict block) ->
       content (db wc_s) !! (sidc, db_level)
       = Some (content_row_of sidc db_level block)) /\
    (forall yaml_level db_level fields,
       In (yaml_level, db_level)
         [("beginner", "basic"); ("intermediate", "core"); ("advanced", "mastery")] ->
       In (YDict fields) (level_items levels yaml_level) ->
       truthy (default YNull (dict_get "type" fields)) = true ->
       In (question_row_of sidq db_level fields) (questions_written newq)).
Proof.
  intros Hc Hq Hcf Hqf Hchunks Hcshape Hquestions Hlevels Hqshape.
  rewrite content_ingest_traverse in Hc. rewrite question_ingest_traverse in Hq.
  destruct (cut_run chunks_by_level ContentIngestion.ingest_file
              tracked_content_file before name subs wc wc_cut Hc)
    as (tidc & Htidc & Hrunc).
  destruct (cut_run questions_by_level QuestionIngestion.ingest_file
              tracked_question_file before name subs wq wq_cut Hq)
    as (tidq & Htidq & Hrunq).
  pose proof (content_subtopic_served tidc s chunks_file (reopened wc_cut)
                Hcf Hchunks Hcshape) as Hstepc.
  destruct (question_subtopic_served tidq s questions_file levels (reopened wq_cut)
              Hqf Hquestions Hlevels Hqshape) as (newq & Hstepq & Hreq & Hwr & _).
  cbv zeta in Hstepc, Hstepq.
  cbn [reopened db trace faults] in Hstepc, Hstepq, Hreq, Hwr.
  exists tidc, tidq, newq. cbv zeta.
  change (content_rows_as
            [("beginner", "basic"); ("intermediate", "core"); ("advanced", "advanced")])
    with content_rows.
  change (question_rows_as
            [("beginner", "basic"); ("intermediate", "core"); ("advanced", "mastery")])
    with question_rows.
  split; [exact Htidc|]. split; [exact Htidq|].
  split.
  { intros later after. rewrite content_ingest_traverse, (Hrunc s later after).
    rewrite (bind_ok _ _ _ _ _ Hstepc). reflexivity. }
  split.
  { intros later after. rewrite question_ingest_traverse, (Hrunq s later after).
    rewrite (bind_ok _ _ _ _ _ Hstepq). reflexivity. }
  split; [exact Hreq|]. split; [exact Hwr|].
  split.
  - intros yl dl block Hentry Hblock. cbn [db content with_content].
    set (sidc := resolved_id tidc (subtopic_folder_name s) (db wc_cut)).
    apply (upsert_nodup_stored content_key _ _ (content_row_of sidc dl block)).
    + apply content_rows_keys, content_difficulties_distinct.
    + unfold content_rows. apply list_elem_of_omap.
      exists (yl, dl). cbn [fst snd]. rewrite Hblock.
      split; [apply list_elem_of_In; exact Hentry|reflexivity].
  - intros yl dl fields Hentry Hin Htype. rewrite Hwr. unfold question_rows.
    apply in_concat.
    exists (omap (item_row (resolved_id tidq (subtopic_folder_name s) (db wq_cut)) dl)
              (level_items levels yl)).
    split; [|apply typed_item_has_row; assumption].
    apply in_map_iff. exists (yl, dl). split; [reflexivity|exact Hentry].
Qed.

Lemma difficulty_remap_witness :
  exists newq wc' wq',
    ContentIngestion.ingest [folder "TopicA" [SubB; SubAll]] (fresh []) = (Ok tt, wc') /\
    QuestionIngestion.ingest [folder "TopicA" [SubB; SubAll]] (fresh []) = (Ok tt, wq') /\
    map c_difficulty (content_written (trace wc'))
    = ["basic"; "basic"; "core"; "advanced"] /\
    map q_difficulty (questions_written newq) = ["basic"; "core"; "mastery"].
Proof.
  set (wc_cut := (ContentIngestion.ingest [folder "TopicA" [SubB]] (fresh [])).2).
  set (wq_cut := (QuestionIngestion.ingest [folder "TopicA" [SubB]] (fresh [])).2).
  assert (ContentIngestion.ingest ([] ++ [folder "TopicA" [SubB]]) (fresh [])
          = (Ok tt, wc_cut)) as Hc by (vm_compute; reflexivity).
  assert (QuestionIngestion.ingest ([] ++ [folder "TopicA" [SubB]]) (fresh [])
          = (Ok tt, wq_cut)) as Hq by (vm_compute; reflexivity).
  assert (faults wc_cut = []) as Hcf by (vm_compute; reflexivity).
  assert (faults wq_cut = []) as Hqf by (vm_compute; reflexivity).
  destruct (difficulty_remap [] "TopicA" [SubB] SubAll _ _ _
              (fresh []) wc_cut (fresh []) wq_cut Hc Hq Hcf Hqf
              eq_refl eq_refl eq_refl eq_refl eq_refl)
    as (tidc & tidq & newq & H).
  cbv zeta in H. destruct H as (Htidc & _ & Hrunc & Hrunq & _ & Hwr & _).
  assert (topics (db wc_cut) !! "TopicA" = Some 1%nat) as Hone
    by (vm_compute; reflexivity).
  rewrite Hone in Htidc. injection Htidc as <-.
  exists newq. eexists. eexists.
  split; [exact (Hrunc [] [])|]. split; [exact (Hrunq [] [])|].
  split; [vm_compute; reflexivity|].
  rewrite Hwr. reflexivity.
Defined.


